(** * The OpenMC / heat-conduction coupling driver

    A shallow embedding of [src/openmc_heat_driver.cpp]: the geometry
    mapping builder ([init_mappings]), the two field projectors
    ([update_heat_source], [update_temperature]) and the coupling
    controller ([solve_step]).

    Conventions of the embedding.
    - A C++ [double] is a primitive binary64 float; the arithmetic operators
      are the IEEE-754 ones of [PrimFloat], each rounded on its own (no fused
      multiply-add) and in the order the source writes them.  Equality of
      doubles is Leibniz equality (all NaNs are one value).
    - The counts of the heat-conduction grid are natural numbers.
    - A C++ [int] is a [Z].  Loop counters run below a bound of their own
      type and cannot overflow; the three places where the source computes an
      [int] that is not bounded by a loop guard ([++ring_index], the
      conversion of [cells_.size() - 1], the iteration index of
      [solve_step]) carry the 32-bit two's-complement wrap-around explicitly.
    - [std::unordered_map<int32_t, std::vector<int32_t>>] is a
      [gmap Z (list Z)]; [operator[]] creates an empty vector for a missing
      key, and the embedding does so too.
    - Unchecked xtensor reads ([a(i)]) return NaN outside the array, where
      C++ leaves the behaviour undefined; the checked write [at(i, j, k)]
      fails ([None]) where xtensor's index check throws.  That check lets any
      index pass on an axis of size 1, which broadcasts. *)

From Stdlib Require Import ZArith Lia List Floats Uint63.
From stdpp Require Import base option list gmap.

#[local] Set Warnings "-inexact-float".
#[local] Open Scope Z_scope.

(** ** Machine arithmetic *)

Module Numeric.

Definition int_max : Z := 2147483647.

(** 32-bit two's-complement reduction of a mathematical integer. *)
Definition wrap32 (z : Z) : Z := (z + 2 ^ 31) mod 2 ^ 32 - 2 ^ 31.

Definition int_add (a b : Z) : Z := wrap32 (a + b).
Definition int_mul (a b : Z) : Z := wrap32 (a * b).

(** [std::size_t] to [int]. *)
Definition int_of_size (n : Z) : Z := wrap32 n.

(** [int] to [double]. *)
Definition double_of_int (z : Z) : float :=
  if z <? 0 then (- PrimFloat.of_uint63 (Uint63.of_Z (- z)))%float
  else PrimFloat.of_uint63 (Uint63.of_Z z).

(** [std::size_t] to [double]. *)
Definition double_of_size (n : nat) : float :=
  PrimFloat.of_uint63 (Uint63.of_Z (Z.of_nat n)).

(** [openmc::PI] (openmc/constants.h). *)
Definition PI : float := 3.14159265358979323846%float.

(** Left-to-right double-precision sum, started at [0.0]. *)
Definition fsum (l : list float) : float :=
  fold_left (fun acc x => (acc + x)%float) l 0%float.

(** Arithmetic mean: the sum divided by the number of entries. *)
Definition fmean (l : list float) : float :=
  (fsum l / double_of_size (length l))%float.

Lemma wrap32_small (z : Z) : - 2 ^ 31 <= z <= int_max -> wrap32 z = z.
Proof.
  unfold wrap32, int_max. intros Hz.
  rewrite Z.mod_small by lia. lia.
Qed.

Lemma int_add_small (a b : Z) :
  - 2 ^ 31 <= a + b <= int_max -> int_add a b = a + b.
Proof. apply wrap32_small. Qed.

Lemma int_mul_small (a b : Z) :
  - 2 ^ 31 <= a * b <= int_max -> int_mul a b = a * b.
Proof. apply wrap32_small. Qed.

(** Dividing by a zero (of either sign) never gives a finite double:
    [0/0] and [NaN/0] are NaN, everything else is an infinity. *)
Lemma div_by_zero_not_finite (x y : float) :
  PrimFloat.is_zero y = true -> PrimFloat.is_finite (x / y) = false.
Proof.
  unfold PrimFloat.is_finite, PrimFloat.is_nan, PrimFloat.is_infinity,
    PrimFloat.is_zero.
  rewrite !FloatAxioms.eqb_spec, FloatAxioms.abs_spec, FloatAxioms.div_spec.
  change (Prim2SF zero) with (S754_zero false).
  change (Prim2SF infinity) with (S754_infinity false).
  unfold SF64div, SFdiv.
  destruct (Prim2SF y) as [sy | sy | | sy my ey]; try discriminate;
    try (destruct sy; discriminate).
  intros _.
  destruct (Prim2SF x) as [sx | sx | | sx mx ex]; try reflexivity;
    destruct sx, sy; reflexivity.
Qed.

End Numeric.
Export Numeric.

(** ** Counted loops *)

Module Loops.

Section ForLoops.
Context {S : Type}.

(** [for (int i = 0; i < n; ++i) body(i);] acting on a state [S]. *)
Definition for_int (n : Z) (body : Z -> S -> S) (s : S) : S :=
  fold_left (fun acc i => body i acc) (seqZ 0 n) s.

(** The same loop when the body may throw: the first failure ends it. *)
Fixpoint try_each {A : Type} (body : A -> S -> option S) (l : list A)
    (s : S) : option S :=
  match l with
  | [] => Some s
  | x :: l' =>
      match body x s with
      | Some s' => try_each body l' s'
      | None => None
      end
  end.

Definition try_for_int (n : Z) (body : Z -> S -> option S) (s : S)
    : option S :=
  try_each body (seqZ 0 n) s.

Lemma seqZ_snoc (n : Z) : 0 <= n -> seqZ 0 (n + 1) = seqZ 0 n ++ [n].
Proof.
  intros Hn. rewrite seqZ_app by lia. f_equal.
Qed.

Lemma for_int_succ (n : Z) body s :
  0 <= n -> for_int (n + 1) body s = body n (for_int n body s).
Proof.
  intros Hn. unfold for_int. rewrite seqZ_snoc by lia.
  now rewrite fold_left_app.
Qed.

Lemma try_each_app {A : Type} (body : A -> S -> option S) l1 l2 s :
  try_each body (l1 ++ l2) s =
  match try_each body l1 s with
  | Some s' => try_each body l2 s'
  | None => None
  end.
Proof.
  revert s. induction l1 as [|x l1 IH]; intros s; simpl; [done|].
  destruct (body x s); [apply IH | done].
Qed.

Lemma try_for_int_succ (n : Z) body s :
  0 <= n ->
  try_for_int (n + 1) body s =
  match try_for_int n body s with
  | Some s' => body n s'
  | None => None
  end.
Proof.
  intros Hn. unfold try_for_int. rewrite seqZ_snoc by lia.
  rewrite try_each_app. destruct (try_each body (seqZ 0 n) s); [|done].
  simpl. now destruct (body n s0).
Qed.

Lemma try_for_int_nonpos (n : Z) body s :
  n <= 0 -> try_for_int n body s = Some s.
Proof. intros Hn. unfold try_for_int. now rewrite seqZ_nil. Qed.

(** Loop rule: [P i] holds before iteration [i], [P n] at the exit. *)
Lemma for_int_ind (P : Z -> S -> Prop) (n : Z) body s :
  0 <= n ->
  P 0 s ->
  (forall i t, 0 <= i < n -> P i t -> P (i + 1) (body i t)) ->
  P n (for_int n body s).
Proof.
  intros Hn H0 Hstep.
  assert (Hall : forall m, 0 <= m -> m <= n -> P m (for_int m body s)).
  { intros m Hm. pattern m. apply natlike_ind; [| |exact Hm].
    - intros _. exact H0.
    - intros x Hx IH Hle. unfold Z.succ. rewrite for_int_succ by lia.
      apply Hstep; [lia|]. apply IH. lia. }
  apply Hall; lia.
Qed.

(** Loop rule for a body that may throw: if no iteration reached under
    the invariant throws, the loop returns and the invariant holds. *)
Lemma try_for_int_ind (P : Z -> S -> Prop) (n : Z) body s :
  0 <= n ->
  P 0 s ->
  (forall i t, 0 <= i < n -> P i t ->
     exists t', body i t = Some t' /\ P (i + 1) t') ->
  exists s', try_for_int n body s = Some s' /\ P n s'.
Proof.
  intros Hn H0 Hstep.
  assert (Hall : forall m, 0 <= m -> m <= n ->
            exists s', try_for_int m body s = Some s' /\ P m s').
  { intros m Hm. pattern m. apply natlike_ind; [| |exact Hm].
    - intros _. exists s. split; [reflexivity | exact H0].
    - intros x Hx IH Hle. destruct IH as (t & Ht & HP); [lia|].
      unfold Z.succ. rewrite try_for_int_succ by lia. rewrite Ht.
      apply Hstep; [lia | exact HP]. }
  apply Hall; lia.
Qed.

(** Three nested counted loops visit the cells of an [ni * nj * nk] grid
    in row-major order: the body at [(i, j, k)] runs as step number
    [(i * nj + j) * nk + k]. *)
Lemma for_int3_ind (P : Z -> S -> Prop) (ni nj nk : Z) body s :
  0 <= ni -> 0 <= nj -> 0 <= nk ->
  P 0 s ->
  (forall i j k t, 0 <= i < ni -> 0 <= j < nj -> 0 <= k < nk ->
     P ((i * nj + j) * nk + k) t ->
     P ((i * nj + j) * nk + k + 1) (body i j k t)) ->
  P (ni * nj * nk)
    (for_int ni (fun i => for_int nj (fun j => for_int nk (body i j))) s).
Proof.
  intros Hi Hj Hk H0 Hstep.
  apply (for_int_ind (fun i t => P (i * nj * nk) t)); [lia | exact H0 |].
  intros i t Hir Ht.
  replace ((i + 1) * nj * nk) with ((i * nj + nj) * nk) by ring.
  apply (for_int_ind (fun j u => P ((i * nj + j) * nk) u)); [lia | |].
  { replace ((i * nj + 0) * nk) with (i * nj * nk) by ring. exact Ht. }
  intros j u Hjr Hu.
  replace ((i * nj + (j + 1)) * nk) with ((i * nj + j) * nk + nk) by ring.
  apply (for_int_ind (fun k v => P ((i * nj + j) * nk + k) v)); [lia | |].
  { now rewrite Z.add_0_r. }
  intros k v Hkr Hv.
  rewrite Z.add_assoc. now apply Hstep.
Qed.

Lemma try_for_int3_ind (P : Z -> S -> Prop) (ni nj nk : Z) body s :
  0 <= ni -> 0 <= nj -> 0 <= nk ->
  P 0 s ->
  (forall i j k t, 0 <= i < ni -> 0 <= j < nj -> 0 <= k < nk ->
     P ((i * nj + j) * nk + k) t ->
     exists t', body i j k t = Some t' /\ P ((i * nj + j) * nk + k + 1) t') ->
  exists s',
    try_for_int ni
      (fun i => try_for_int nj (fun j => try_for_int nk (body i j))) s
    = Some s' /\ P (ni * nj * nk) s'.
Proof.
  intros Hi Hj Hk H0 Hstep.
  apply (try_for_int_ind (fun i t => P (i * nj * nk) t)); [lia | exact H0 |].
  intros i t Hir Ht.
  replace ((i + 1) * nj * nk) with ((i * nj + nj) * nk) by ring.
  apply (try_for_int_ind (fun j u => P ((i * nj + j) * nk) u)); [lia | |].
  { replace ((i * nj + 0) * nk) with (i * nj * nk) by ring. exact Ht. }
  intros j u Hjr Hu.
  replace ((i * nj + (j + 1)) * nk) with ((i * nj + j) * nk + nk) by ring.
  apply (try_for_int_ind (fun k v => P ((i * nj + j) * nk + k) v));
    [lia | |].
  { now rewrite Z.add_0_r. }
  intros k v Hkr Hv.
  rewrite Z.add_assoc. now apply Hstep.
Qed.

End ForLoops.

End Loops.
Export Loops.

(** ** xtensor arrays *)

Module Xt.

(** Unchecked read [a(i)] of a one-dimensional array. *)
Definition get (a : list float) (i : Z) : float :=
  if i <? 0 then nan else default nan (a !! Z.to_nat i).

(** A three-dimensional array: its shape and its elements in row-major
    order (xtensor's default layout). *)
Record tensor3 : Type := {
  shape : nat * nat * nat;
  data : list float
}.

Definition well_shaped (t : tensor3) : Prop :=
  let '(d0, d1, d2) := shape t in length (data t) = (d0 * d1 * d2)%nat.

(** Row-major offset of [(i, j, k)], when the three indices are within the
    shape. *)
Definition offset (t : tensor3) (i j k : Z) : option nat :=
  let '(d0, d1, d2) := shape t in
  if (0 <=? i) && (i <? Z.of_nat d0) && (0 <=? j) && (j <? Z.of_nat d1)
     && (0 <=? k) && (k <? Z.of_nat d2)
  then Some (Z.to_nat ((i * Z.of_nat d1 + j) * Z.of_nat d2 + k))
  else None.

(** The element in slot [(i, j, k)], for indices within the shape. *)
Definition at_ (t : tensor3) (i j k : Z) : option float :=
  match offset t i j k with
  | Some o => data t !! o
  | None => None
  end.

(** The index check of [at] on one axis (xtensor's [check_index]): the
    index, converted to [std::size_t], must be below the size of the axis,
    unless that size is 1.  An axis of size 1 has stride 0, so that every
    index addresses its only element. *)
Definition axis_index (size : nat) (i : Z) : option Z :=
  if Z.of_nat size =? 1 then Some 0
  else if (0 <=? i) && (i <? Z.of_nat size) then Some i
  else None.

(** Offset of the element that [t.at(i, j, k)] addresses, when the index
    check passes. *)
Definition at_offset (t : tensor3) (i j k : Z) : option nat :=
  let '(d0, d1, d2) := shape t in
  match axis_index d0 i, axis_index d1 j, axis_index d2 k with
  | Some i', Some j', Some k' =>
      Some (Z.to_nat ((i' * Z.of_nat d1 + j') * Z.of_nat d2 + k'))
  | _, _, _ => None
  end.

(** Checked write [t.at(i, j, k) = v]. *)
Definition at_put (t : tensor3) (i j k : Z) (v : float) : option tensor3 :=
  match at_offset t i j k with
  | Some o => Some {| shape := shape t; data := <[o := v]> (data t) |}
  | None => None
  end.

(** [for (auto& val : t) val = v;] *)
Definition fill (v : float) (t : tensor3) : tensor3 :=
  {| shape := shape t; data := map (fun _ => v) (data t) |}.

(** [xt::flatten(t)]. *)
Definition flatten (t : tensor3) : list float := data t.

End Xt.

(** ** [std::unordered_map<int32_t, std::vector<int32_t>>] *)

Module Table.

(** The vector stored under [k]; a missing key reads as the empty vector
    that [operator[]] would create. *)
Definition get (m : gmap Z (list Z)) (k : Z) : list Z := default [] (m !! k).

(** [m[k]] used as a value: the key is created when it is missing. *)
Definition touch (m : gmap Z (list Z)) (k : Z) : gmap Z (list Z) :=
  <[k := get m k]> m.

(** [m[k].push_back(v)]. *)
Definition push_back (m : gmap Z (list Z)) (k v : Z) : gmap Z (list Z) :=
  <[k := get m k ++ [v]]> m.

Lemma get_push_back (m : gmap Z (list Z)) (k v k' : Z) :
  get (push_back m k v) k' = if decide (k = k') then get m k ++ [v] else get m k'.
Proof.
  unfold get at 1, push_back. rewrite lookup_insert.
  destruct (decide (k = k')); reflexivity.
Qed.

Lemma get_touch (m : gmap Z (list Z)) (k k' : Z) : get (touch m k) k' = get m k'.
Proof.
  unfold get at 1, touch. rewrite lookup_insert.
  destruct (decide (k = k')); [subst|]; reflexivity.
Qed.

Lemma get_empty (k : Z) : get ∅ k = [].
Proof. unfold get. now rewrite lookup_empty. Qed.

End Table.

(** ** The data model *)

Record Position : Type := {
  pos_x : float;
  pos_y : float;
  pos_z : float
}.

(** Modelled from the spec: the declaration of the heat-conduction driver
    (stream/surrogate_heat_driver.h) is not part of the sources.  The
    spec (section 6) lists what the coupling reads from it: the counts
    [n_pins], [n_axial], [n_fuel_rings] and the total [n_rings], the fuel and
    cladding radial boundaries, the axial boundaries, the pin centres, a
    mutable heat-source field and a readable temperature field addressed by
    (pin, axial layer, radial ring), and [active()]. *)
Record SurrogateHeatDriver : Type := {
  n_pins_ : nat;
  n_axial_ : nat;
  n_fuel_rings_ : nat;
  n_clad_rings_ : nat;
  r_grid_fuel_ : list float;
  r_grid_clad_ : list float;
  z_ : list float;
  pin_centers_ : list (float * float);
  source_ : Xt.tensor3;
  temperature_ : Xt.tensor3;
  heat_active_ : bool
}.

(** Modelled from the spec: [n_rings()] is declared in the missing header;
    the spec (section 3) gives [n_rings = n_fuel_rings + n_clad_rings]. *)
Definition n_rings (h : SurrogateHeatDriver) : nat :=
  (n_fuel_rings_ h + n_clad_rings_ h)%nat.

(** What the controller does, in program order. *)
Inductive Event : Type :=
  | EvInitStep
  | EvSolveStep (i : Z)
  | EvFinalizeStep
  | EvBarrier
  | EvUpdateHeatSource
  | EvHeatSolve
  | EvUpdateTemperature.

#[local] Coercion Z.of_nat : nat >-> Z.

Section Coupling.

(** *** The collaborators

    The transport solver (OpenMC), the C math library and the
    heat-conduction solve are outside the coupling layer; the driver is
    parameterised by them. *)

(** A located cell instance; [std::unordered_map<CellInstance, int>] needs
    its equality and hash. *)
Context {CellInstance : Type} `{Countable CellInstance}.

(** The internal state of the transport solver. *)
Context {TransportState : Type}.

(** [CellInstance c {r}]: the cell instance that contains the point. *)
Variable locate : Position -> CellInstance.

(** [std::cos] and [std::sin]. *)
Variable libm_cos : float -> float.
Variable libm_sin : float -> float.

(** [OpenmcDriver::init_step], [solve_step(i)], [finalize_step],
    [heat_source(power)] and [CellInstance::set_temperature]. *)
Variable transport_init_step : TransportState -> TransportState.
Variable transport_solve_step : Z -> TransportState -> TransportState.
Variable transport_finalize_step : TransportState -> TransportState.
Variable transport_heat_source : TransportState -> float -> list float.
Variable transport_set_temperature :
  CellInstance -> float -> TransportState -> TransportState.

(** Modelled from the spec: [SurrogateHeatDriver::solve_step] is not part
    of the sources.  By the spec (section 3) the solve reads the
    heat-source field and produces the temperature field. *)
Variable heat_solve : SurrogateHeatDriver -> Xt.tensor3.

(** Modelled from the spec: the declaration of the transport driver
    (stream/openmc_driver.h) is not part of the sources.  The spec
    (section 6) lists what the coupling uses: the append-only registry
    [cells] of cell instances, [active()], the three step calls,
    [heatSource] and [setTemperature].  [located_] and [temperature_calls_]
    record, in program order, the points handed to the point location and
    the calls of [set_temperature]. *)
Record OpenmcDriver : Type := {
  cells_ : list CellInstance;
  openmc_active_ : bool;
  transport_ : TransportState;
  located_ : list Position;
  temperature_calls_ : list (CellInstance * float)
}.

(** The members of [OpenmcHeatDriver] that the source file uses (its
    declaration, stream/openmc_heat_driver.h, is not part of the sources).
    [trace_] records, in program order, what [solve_step] does. *)
Record OpenmcHeatDriver : Type := {
  power_ : float;
  max_timesteps_ : Z;
  max_picard_iter_ : Z;
  openmc_driver_ : OpenmcDriver;
  heat_driver_ : SurrogateHeatDriver;
  cell_inst_to_ring_ : gmap Z (list Z);
  ring_to_cell_inst_ : gmap Z (list Z);
  trace_ : list Event
}.

(** The object as the constructor has it when it calls [init_mappings]:
    parameters read, both drivers built, both tables empty. *)
Definition fresh_driver (power : float) (max_timesteps max_picard_iter : Z)
    (od : OpenmcDriver) (hd : SurrogateHeatDriver) : OpenmcHeatDriver :=
  {| power_ := power;
     max_timesteps_ := max_timesteps;
     max_picard_iter_ := max_picard_iter;
     openmc_driver_ := od;
     heat_driver_ := hd;
     cell_inst_to_ring_ := ∅;
     ring_to_cell_inst_ := ∅;
     trace_ := [] |}.

(** *** [OpenmcHeatDriver::init_mappings] *)

(** What the loops of [init_mappings] read and write. *)
Record MapLoop : Type := {
  ml_cells : list CellInstance;
  ml_located : list Position;
  ml_tracked : gmap CellInstance Z;
  ml_ring_index : Z;
  ml_c2r : gmap Z (list Z);
  ml_r2c : gmap Z (list Z)
}.

Definition n_azimuthal : Z := 4.

(** Body of the loop over the azimuthal samples [m]. *)
Definition azimuthal_body (zavg ravg : float) (m : Z) (s : MapLoop)
    : MapLoop :=
  let theta :=
    (2.0 * double_of_int m * PI / double_of_int n_azimuthal + 0.01)%float in
  let x := (ravg * libm_cos theta)%float in
  let y := (ravg * libm_sin theta)%float in
  let r := {| pos_x := x; pos_y := y; pos_z := zavg |} in
  let c := locate r in
  let '(cells, tracked) :=
    match ml_tracked s !! c with
    | None =>
        let cells := ml_cells s ++ [c] in
        (cells,
         <[c := int_of_size (Z.of_nat (length cells) - 1)]> (ml_tracked s))
    | Some _ => (ml_cells s, ml_tracked s)
    end in
  let array_index := default 0 (tracked !! c) in
  {| ml_cells := cells;
     ml_located := ml_located s ++ [r];
     ml_tracked := tracked;
     ml_ring_index := ml_ring_index s;
     ml_c2r := Table.push_back (ml_c2r s) array_index (ml_ring_index s);
     ml_r2c := Table.push_back (ml_r2c s) (ml_ring_index s) array_index |}.

(** Body of the loop over the radial rings [k]. *)
Definition ring_body (h : SurrogateHeatDriver) (zavg : float) (k : Z)
    (s : MapLoop) : MapLoop :=
  let r_fuel := r_grid_fuel_ h in
  let r_clad := r_grid_clad_ h in
  let ravg :=
    if k <? n_fuel_rings_ h
    then (0.5 * (Xt.get r_fuel k + Xt.get r_fuel (k + 1)))%float
    else
      let m := k - n_fuel_rings_ h in
      (0.5 * (Xt.get r_clad m + Xt.get r_clad (m + 1)))%float in
  let s := for_int n_azimuthal (azimuthal_body zavg ravg) s in
  {| ml_cells := ml_cells s;
     ml_located := ml_located s;
     ml_tracked := ml_tracked s;
     ml_ring_index := int_add (ml_ring_index s) 1;
     ml_c2r := ml_c2r s;
     ml_r2c := ml_r2c s |}.

(** The three nested loops of [init_mappings]. *)
Definition mapping_loops (h : SurrogateHeatDriver) (s : MapLoop) : MapLoop :=
  let z := z_ h in
  let nz := n_axial_ h in
  let npins := length (pin_centers_ h) in
  for_int npins (fun i =>
    for_int nz (fun j s =>
      let zavg := (0.5 * (Xt.get z j + Xt.get z (j + 1)))%float in
      for_int (n_rings h) (fun k => ring_body h zavg k) s)) s.

Definition init_mappings (d : OpenmcHeatDriver) : OpenmcHeatDriver :=
  let od := openmc_driver_ d in
  let s :=
    mapping_loops (heat_driver_ d)
      {| ml_cells := cells_ od;
         ml_located := located_ od;
         ml_tracked := ∅;
         ml_ring_index := 0;
         ml_c2r := cell_inst_to_ring_ d;
         ml_r2c := ring_to_cell_inst_ d |} in
  {| power_ := power_ d;
     max_timesteps_ := max_timesteps_ d;
     max_picard_iter_ := max_picard_iter_ d;
     openmc_driver_ :=
       {| cells_ := ml_cells s;
          openmc_active_ := openmc_active_ od;
          transport_ := transport_ od;
          located_ := ml_located s;
          temperature_calls_ := temperature_calls_ od |};
     heat_driver_ := heat_driver_ d;
     cell_inst_to_ring_ := ml_c2r s;
     ring_to_cell_inst_ := ml_r2c s;
     trace_ := trace_ d |}.

(** *** [OpenmcHeatDriver::update_heat_source] *)

Definition with_source (h : SurrogateHeatDriver) (src : Xt.tensor3)
    : SurrogateHeatDriver :=
  {| n_pins_ := n_pins_ h;
     n_axial_ := n_axial_ h;
     n_fuel_rings_ := n_fuel_rings_ h;
     n_clad_rings_ := n_clad_rings_ h;
     r_grid_fuel_ := r_grid_fuel_ h;
     r_grid_clad_ := r_grid_clad_ h;
     z_ := z_ h;
     pin_centers_ := pin_centers_ h;
     source_ := src;
     temperature_ := temperature_ h;
     heat_active_ := heat_active_ h |}.

(** What the loops of [update_heat_source] read and write. *)
Record SourceLoop : Type := {
  sl_ring_index : Z;
  sl_r2c : gmap Z (list Z);
  sl_source : Xt.tensor3
}.

(** Body of the loop over the radial rings [k] of pin [i], layer [j]. *)
Definition heat_source_body (h : SurrogateHeatDriver) (Q : list float)
    (i j k : Z) (s : SourceLoop) : option SourceLoop :=
  if k <? n_fuel_rings_ h then
    let cell_instances := Table.get (sl_r2c s) (sl_ring_index s) in
    let r2c := Table.touch (sl_r2c s) (sl_ring_index s) in
    let q_avg :=
      fold_left (fun q idx => (q + Xt.get Q idx)%float) cell_instances
        0%float in
    let q_avg := (q_avg / double_of_size (length cell_instances))%float in
    match Xt.at_put (sl_source s) i j k q_avg with
    | Some src =>
        Some {| sl_ring_index := int_add (sl_ring_index s) 1;
                sl_r2c := r2c;
                sl_source := src |}
    | None => None
    end
  else
    Some {| sl_ring_index := int_add (sl_ring_index s) 1;
            sl_r2c := sl_r2c s;
            sl_source := sl_source s |}.

Definition heat_source_loops (h : SurrogateHeatDriver) (Q : list float)
    (s : SourceLoop) : option SourceLoop :=
  try_for_int (n_pins_ h) (fun i =>
    try_for_int (n_axial_ h) (fun j =>
      try_for_int (n_rings h) (fun k => heat_source_body h Q i j k))) s.

Definition update_heat_source (d : OpenmcHeatDriver)
    : option OpenmcHeatDriver :=
  let h := heat_driver_ d in
  let zeroed := Xt.fill 0%float (source_ h) in
  let Q := transport_heat_source (transport_ (openmc_driver_ d)) (power_ d) in
  match
    heat_source_loops h Q
      {| sl_ring_index := 0;
         sl_r2c := ring_to_cell_inst_ d;
         sl_source := zeroed |}
  with
  | Some s =>
      Some {| power_ := power_ d;
              max_timesteps_ := max_timesteps_ d;
              max_picard_iter_ := max_picard_iter_ d;
              openmc_driver_ := openmc_driver_ d;
              heat_driver_ := with_source h (sl_source s);
              cell_inst_to_ring_ := cell_inst_to_ring_ d;
              ring_to_cell_inst_ := sl_r2c s;
              trace_ := trace_ d |}
  | None => None
  end.

(** *** [OpenmcHeatDriver::update_temperature] *)

(** [c.set_temperature(t)]. *)
Definition set_temperature (c : CellInstance) (t : float)
    (od : OpenmcDriver) : OpenmcDriver :=
  {| cells_ := cells_ od;
     openmc_active_ := openmc_active_ od;
     transport_ := transport_set_temperature c t (transport_ od);
     located_ := located_ od;
     temperature_calls_ := temperature_calls_ od ++ [(c, t)] |}.

(** What the loop of [update_temperature] reads and writes. *)
Record TempLoop : Type := {
  tl_c2r : gmap Z (list Z);
  tl_openmc : OpenmcDriver
}.

(** Body of the loop over the rings of one cell instance; the state is
    the pair [(average_temp, total_vol)]. *)
Definition ring_volume_body (h : SurrogateHeatDriver)
    (temperature : list float) (acc : float * float) (ring_index : Z)
    : float * float :=
  let r_fuel := r_grid_fuel_ h in
  let r_clad := r_grid_clad_ h in
  let '(average_temp, total_vol) := acc in
  let i := Z.rem ring_index (n_rings h) in
  let vol :=
    if i <? n_fuel_rings_ h
    then (Xt.get r_fuel (i + 1) * Xt.get r_fuel (i + 1)
          - Xt.get r_fuel i * Xt.get r_fuel i)%float
    else
      let j := i - n_fuel_rings_ h in
      (Xt.get r_clad (j + 1) * Xt.get r_clad (j + 1)
       - Xt.get r_clad j * Xt.get r_clad j)%float in
  ((average_temp + Xt.get temperature ring_index * vol)%float,
   (total_vol + vol)%float).

(** Body of the loop over the cell instances [i]. *)
Definition temperature_body (h : SurrogateHeatDriver)
    (temperature : list float) (i : Z) (s : TempLoop) : TempLoop :=
  match cells_ (tl_openmc s) !! Z.to_nat i with
  | Some c =>
      let rings := Table.get (tl_c2r s) i in
      let c2r := Table.touch (tl_c2r s) i in
      let '(average_temp, total_vol) :=
        fold_left (ring_volume_body h temperature) rings
          (0%float, 0%float) in
      let average_temp := (average_temp / total_vol)%float in
      {| tl_c2r := c2r;
         tl_openmc := set_temperature c average_temp (tl_openmc s) |}
  | None => s
  end.

Definition update_temperature (d : OpenmcHeatDriver) : OpenmcHeatDriver :=
  let h := heat_driver_ d in
  let temperature := Xt.flatten (temperature_ h) in
  let s :=
    for_int (length (cells_ (openmc_driver_ d)))
      (temperature_body h temperature)
      {| tl_c2r := cell_inst_to_ring_ d; tl_openmc := openmc_driver_ d |} in
  {| power_ := power_ d;
     max_timesteps_ := max_timesteps_ d;
     max_picard_iter_ := max_picard_iter_ d;
     openmc_driver_ := tl_openmc s;
     heat_driver_ := heat_driver_ d;
     cell_inst_to_ring_ := tl_c2r s;
     ring_to_cell_inst_ := ring_to_cell_inst_ d;
     trace_ := trace_ d |}.

(** *** [OpenmcHeatDriver::solve_step] *)

Definition log (e : Event) (d : OpenmcHeatDriver) : OpenmcHeatDriver :=
  {| power_ := power_ d;
     max_timesteps_ := max_timesteps_ d;
     max_picard_iter_ := max_picard_iter_ d;
     openmc_driver_ := openmc_driver_ d;
     heat_driver_ := heat_driver_ d;
     cell_inst_to_ring_ := cell_inst_to_ring_ d;
     ring_to_cell_inst_ := ring_to_cell_inst_ d;
     trace_ := trace_ d ++ [e] |}.

(** A call into the transport solver. *)
Definition on_transport (f : TransportState -> TransportState)
    (d : OpenmcHeatDriver) : OpenmcHeatDriver :=
  let od := openmc_driver_ d in
  {| power_ := power_ d;
     max_timesteps_ := max_timesteps_ d;
     max_picard_iter_ := max_picard_iter_ d;
     openmc_driver_ :=
       {| cells_ := cells_ od;
          openmc_active_ := openmc_active_ od;
          transport_ := f (transport_ od);
          located_ := located_ od;
          temperature_calls_ := temperature_calls_ od |};
     heat_driver_ := heat_driver_ d;
     cell_inst_to_ring_ := cell_inst_to_ring_ d;
     ring_to_cell_inst_ := ring_to_cell_inst_ d;
     trace_ := trace_ d |}.

Definition openmc_init_step (d : OpenmcHeatDriver) : OpenmcHeatDriver :=
  log EvInitStep (on_transport transport_init_step d).

Definition openmc_solve_step (i : Z) (d : OpenmcHeatDriver)
    : OpenmcHeatDriver :=
  log (EvSolveStep i) (on_transport (transport_solve_step i) d).

Definition openmc_finalize_step (d : OpenmcHeatDriver) : OpenmcHeatDriver :=
  log EvFinalizeStep (on_transport transport_finalize_step d).

(** [heat_driver_->solve_step()]. *)
Definition heat_solve_step (d : OpenmcHeatDriver) : OpenmcHeatDriver :=
  let h := heat_driver_ d in
  log EvHeatSolve
    {| power_ := power_ d;
       max_timesteps_ := max_timesteps_ d;
       max_picard_iter_ := max_picard_iter_ d;
       openmc_driver_ := openmc_driver_ d;
       heat_driver_ :=
         {| n_pins_ := n_pins_ h;
            n_axial_ := n_axial_ h;
            n_fuel_rings_ := n_fuel_rings_ h;
            n_clad_rings_ := n_clad_rings_ h;
            r_grid_fuel_ := r_grid_fuel_ h;
            r_grid_clad_ := r_grid_clad_ h;
            z_ := z_ h;
            pin_centers_ := pin_centers_ h;
            source_ := source_ h;
            temperature_ := heat_solve h;
            heat_active_ := heat_active_ h |};
       cell_inst_to_ring_ := cell_inst_to_ring_ d;
       ring_to_cell_inst_ := ring_to_cell_inst_ d;
       trace_ := trace_ d |}.

(** [comm_.Barrier()]. *)
Definition barrier (d : OpenmcHeatDriver) : OpenmcHeatDriver :=
  log EvBarrier d.

(** Body of the Picard loop. *)
Definition picard_body (i_timestep i_picard : Z) (d : OpenmcHeatDriver)
    : option OpenmcHeatDriver :=
  let d :=
    if openmc_active_ (openmc_driver_ d) then
      let d := openmc_init_step d in
      let i := int_add (int_mul i_timestep (max_timesteps_ d)) i_picard in
      let d := openmc_solve_step i d in
      openmc_finalize_step d
    else d in
  let d := barrier d in
  match update_heat_source (log EvUpdateHeatSource d) with
  | Some d =>
      let d := if heat_active_ (heat_driver_ d) then heat_solve_step d
               else d in
      let d := barrier d in
      Some (update_temperature (log EvUpdateTemperature d))
  | None => None
  end.

Definition solve_step (d : OpenmcHeatDriver) : option OpenmcHeatDriver :=
  try_for_int (max_timesteps_ d) (fun i_timestep =>
    try_for_int (max_picard_iter_ d) (fun i_picard =>
      picard_body i_timestep i_picard)) d.

(** ** Heat-source projection *)

(** The heat-conduction grid has [n_pins * n_axial * n_rings] rings. *)
Definition total_rings (h : SurrogateHeatDriver) : nat :=
  (n_pins_ h * n_axial_ h * n_rings h)%nat.

(** Flattened index of ring [k] of layer [j] of pin [i]. *)
Definition ring_of (h : SurrogateHeatDriver) (i j k : Z) : Z :=
  (i * n_axial_ h + j) * n_rings h + k.

(** The heat-source field has the shape of the grid. *)
Definition source_shaped (h : SurrogateHeatDriver) : Prop :=
  Xt.shape (source_ h) = (n_pins_ h, n_axial_ h, n_rings h).

(** The ring counter of the projector stays an [int]. *)
Definition rings_fit_int (h : SurrogateHeatDriver) : Prop :=
  Z.of_nat (total_rings h) <= int_max.

(** What the specification prescribes for the slot of ring [r]: the mean of the
    reported heat generation over the ring's forward mapping in the fuel,
    zero in the cladding. *)
Definition ring_heat_source (h : SurrogateHeatDriver) (Q : list float)
    (r2c : gmap Z (list Z)) (r : Z) : float :=
  if r mod n_rings h <? n_fuel_rings_ h
  then fmean (map (Xt.get Q) (Table.get r2c r))
  else 0%float.

Definition in_grid (h : SurrogateHeatDriver) (i j k : Z) : Prop :=
  0 <= i < n_pins_ h /\ 0 <= j < n_axial_ h /\ 0 <= k < n_rings h.

Lemma sum_heat_fsum (Q : list float) (l : list Z) (a : float) :
  fold_left (fun q idx => (q + Xt.get Q idx)%float) l a =
  fold_left (fun acc x => (acc + x)%float) (map (Xt.get Q) l) a.
Proof. revert a. induction l as [|x l IH]; intros a; simpl; [done|apply IH]. Qed.

Lemma offset_in_shape (t : Xt.tensor3) (d0 d1 d2 : nat) (i j k : Z) :
  Xt.shape t = (d0, d1, d2) ->
  0 <= i < d0 -> 0 <= j < d1 -> 0 <= k < d2 ->
  Xt.offset t i j k = Some (Z.to_nat ((i * d1 + j) * d2 + k)).
Proof.
  intros Hs Hi Hj Hk. unfold Xt.offset. rewrite Hs.
  replace (0 <=? i) with true by (symmetry; apply Z.leb_le; lia).
  replace (i <? d0) with true by (symmetry; apply Z.ltb_lt; lia).
  replace (0 <=? j) with true by (symmetry; apply Z.leb_le; lia).
  replace (j <? d1) with true by (symmetry; apply Z.ltb_lt; lia).
  replace (0 <=? k) with true by (symmetry; apply Z.leb_le; lia).
  replace (k <? d2) with true by (symmetry; apply Z.ltb_lt; lia).
  reflexivity.
Qed.

(** Within the size of its axis an index passes the check of [at] as it
    is. *)
Lemma axis_index_in_range (size : nat) (i : Z) :
  0 <= i < size -> Xt.axis_index size i = Some i.
Proof.
  intros Hi. unfold Xt.axis_index.
  destruct (Z.eqb_spec size 1) as [Hone|_]; [f_equal; lia|].
  replace (0 <=? i) with true by (symmetry; apply Z.leb_le; lia).
  replace (i <? size) with true by (symmetry; apply Z.ltb_lt; lia).
  reflexivity.
Qed.

Lemma at_offset_in_shape (t : Xt.tensor3) (d0 d1 d2 : nat) (i j k : Z) :
  Xt.shape t = (d0, d1, d2) ->
  0 <= i < d0 -> 0 <= j < d1 -> 0 <= k < d2 ->
  Xt.at_offset t i j k = Some (Z.to_nat ((i * d1 + j) * d2 + k)).
Proof.
  intros Hs Hi Hj Hk. unfold Xt.at_offset. rewrite Hs.
  now rewrite !axis_index_in_range by assumption.
Qed.

Lemma Xt_at_put_in_shape (t : Xt.tensor3) (d0 d1 d2 : nat) (i j k : Z)
    (v : float) :
  Xt.shape t = (d0, d1, d2) ->
  0 <= i < d0 -> 0 <= j < d1 -> 0 <= k < d2 ->
  Xt.at_put t i j k v =
  Some {| Xt.shape := Xt.shape t;
          Xt.data := <[Z.to_nat ((i * d1 + j) * d2 + k) := v]> (Xt.data t) |}.
Proof.
  intros Hs Hi Hj Hk. unfold Xt.at_put.
  now rewrite (at_offset_in_shape t d0 d1 d2 i j k Hs Hi Hj Hk).
Qed.

(** Row-major offsets stay below the number of cells, and the radial
    index is recovered from them by [mod]. *)
Lemma ring_of_bound (h : SurrogateHeatDriver) (i j k : Z) :
  in_grid h i j k -> 0 <= ring_of h i j k < total_rings h.
Proof.
  unfold in_grid, ring_of, total_rings. intros (Hi & Hj & Hk).
  rewrite !Nat2Z.inj_mul.
  assert (H1 : 0 <= i * n_axial_ h + j <= n_pins_ h * n_axial_ h - 1) by nia.
  assert (H2 : (i * n_axial_ h + j) * n_rings h
               <= (n_pins_ h * n_axial_ h - 1) * n_rings h)
    by (apply Z.mul_le_mono_nonneg_r; lia).
  nia.
Qed.

Lemma ring_of_mod (h : SurrogateHeatDriver) (i j k : Z) :
  0 <= k < n_rings h -> ring_of h i j k mod n_rings h = k.
Proof.
  intros Hk. unfold ring_of.
  rewrite (Z.add_comm _ k). rewrite Z_mod_plus_full. apply Z.mod_small. lia.
Qed.

Lemma ring_of_div (h : SurrogateHeatDriver) (i j k : Z) :
  0 <= j < n_axial_ h -> 0 <= k < n_rings h ->
  (ring_of h i j k / n_rings h) mod n_axial_ h = j.
Proof.
  intros Hj Hk. unfold ring_of.
  rewrite (Z.add_comm _ k), Z_div_plus_full by lia.
  rewrite (Z.div_small k) by lia. rewrite Z.add_0_l.
  rewrite (Z.add_comm _ j), Z_mod_plus_full. apply Z.mod_small. lia.
Qed.

(** Invariant of the three loops of [update_heat_source] after [n] rings:
    the counter is [n], the field keeps its shape, reads of the forward
    table are unchanged, the first [n] slots hold their final value and
    the others are still zero. *)
Definition source_inv (h : SurrogateHeatDriver) (Q : list float)
    (r2c : gmap Z (list Z)) (n : Z) (s : SourceLoop) : Prop :=
  sl_ring_index s = n /\
  Xt.shape (sl_source s) = (n_pins_ h, n_axial_ h, n_rings h) /\
  length (Xt.data (sl_source s)) = total_rings h /\
  (forall r, Table.get (sl_r2c s) r = Table.get r2c r) /\
  (forall o : nat, (o < total_rings h)%nat ->
     Xt.data (sl_source s) !! o =
     Some (if Z.of_nat o <? n then ring_heat_source h Q r2c o else 0%float)).

Lemma heat_source_body_inv (h : SurrogateHeatDriver) (Q : list float)
    (r2c : gmap Z (list Z)) (i j k : Z) (s : SourceLoop) :
  rings_fit_int h ->
  in_grid h i j k ->
  source_inv h Q r2c (ring_of h i j k) s ->
  exists s', heat_source_body h Q i j k s = Some s' /\
             source_inv h Q r2c (ring_of h i j k + 1) s'.
Proof.
  intros Hfit Hin (Hidx & Hshape & Hlen & Hget & Hdata).
  pose proof (ring_of_bound h i j k Hin) as Hb.
  destruct Hin as (Hi & Hj & Hk).
  assert (Hnext : int_add (sl_ring_index s) 1 = ring_of h i j k + 1).
  { rewrite Hidx. apply int_add_small. unfold rings_fit_int in Hfit. lia. }
  unfold heat_source_body.
  destruct (k <? n_fuel_rings_ h) eqn:Hfuel.
  - rewrite (Xt_at_put_in_shape _ _ _ _ _ _ _ _ Hshape Hi Hj Hk).
    eexists. split; [reflexivity|].
    unfold source_inv; simpl.
    split; [exact Hnext|]. split; [exact Hshape|].
    split; [now rewrite length_insert|].
    split; [intros r; now rewrite Table.get_touch|].
    intros o Ho. fold (ring_of h i j k).
    destruct (decide (o = Z.to_nat (ring_of h i j k))) as [->|Hne].
    + rewrite list_lookup_insert_eq by lia.
      rewrite Z2Nat.id by lia.
      replace (ring_of h i j k <? ring_of h i j k + 1) with true
        by (symmetry; apply Z.ltb_lt; lia).
      unfold ring_heat_source. rewrite ring_of_mod by lia. rewrite Hfuel.
      rewrite Hidx, Hget. unfold fmean, fsum.
      now rewrite sum_heat_fsum, length_map.
    + rewrite list_lookup_insert_ne by lia.
      rewrite Hdata by exact Ho.
      replace (Z.of_nat o <? ring_of h i j k + 1)
        with (Z.of_nat o <? ring_of h i j k); [done|].
      destruct (Z.ltb_spec o (ring_of h i j k));
        symmetry; [apply Z.ltb_lt | apply Z.ltb_ge]; lia.
  - eexists. split; [reflexivity|].
    unfold source_inv; simpl.
    split; [exact Hnext|]. split; [exact Hshape|].
    split; [exact Hlen|]. split; [exact Hget|].
    intros o Ho. rewrite Hdata by exact Ho.
    destruct (decide (Z.of_nat o = ring_of h i j k)) as [Heq|Hne].
    + rewrite Heq.
      replace (ring_of h i j k <? ring_of h i j k) with false
        by (symmetry; apply Z.ltb_ge; lia).
      replace (ring_of h i j k <? ring_of h i j k + 1) with true
        by (symmetry; apply Z.ltb_lt; lia).
      unfold ring_heat_source. rewrite ring_of_mod by lia.
      now rewrite Hfuel.
    + replace (Z.of_nat o <? ring_of h i j k + 1)
        with (Z.of_nat o <? ring_of h i j k); [done|].
      destruct (Z.ltb_spec o (ring_of h i j k));
        symmetry; [apply Z.ltb_lt | apply Z.ltb_ge]; lia.
Qed.

Lemma lookup_map_const {A B : Type} (l : list A) (b : B) (o : nat) :
  (o < length l)%nat -> map (fun _ => b) l !! o = Some b.
Proof.
  revert o. induction l as [|a l IH]; intros o Ho; simpl in *; [lia|].
  destruct o as [|o]; [reflexivity|]. apply IH. lia.
Qed.

Lemma ring_heat_source_ext (h : SurrogateHeatDriver) (Q : list float)
    (m1 m2 : gmap Z (list Z)) (r : Z) :
  (forall r', Table.get m1 r' = Table.get m2 r') ->
  ring_heat_source h Q m1 r = ring_heat_source h Q m2 r.
Proof. intros Hm. unfold ring_heat_source. now rewrite Hm. Qed.

Lemma heat_source_loops_inv (h : SurrogateHeatDriver) (Q : list float)
    (r2c : gmap Z (list Z)) (src : Xt.tensor3) :
  rings_fit_int h ->
  Xt.shape src = (n_pins_ h, n_axial_ h, n_rings h) ->
  length (Xt.data src) = total_rings h ->
  exists s',
    heat_source_loops h Q
      {| sl_ring_index := 0; sl_r2c := r2c;
         sl_source := Xt.fill 0%float src |} = Some s' /\
    source_inv h Q r2c (total_rings h) s'.
Proof.
  intros Hfit Hshape Hlen. unfold heat_source_loops, total_rings.
  rewrite !Nat2Z.inj_mul.
  apply (try_for_int3_ind (source_inv h Q r2c)); try lia.
  - unfold source_inv; simpl.
    split; [reflexivity|]. split; [exact Hshape|].
    split; [now rewrite length_map|]. split; [reflexivity|].
    intros o Ho.
    replace (Z.of_nat o <? 0) with false by (symmetry; apply Z.ltb_ge; lia).
    apply lookup_map_const. lia.
  - intros i j k t Hi Hj Hk Ht.
    apply (heat_source_body_inv h Q r2c i j k t Hfit); [|exact Ht].
    unfold in_grid. lia.
Qed.

(** [update_heat_source] returns; it changes the heat-source field and
    (by creating empty entries) the forward table, and nothing else.  The
    new field has the old shape and holds, in every slot, the value
    prescribed for its ring. *)
Lemma update_heat_source_spec (d : OpenmcHeatDriver) :
  let h := heat_driver_ d in
  let Q := transport_heat_source (transport_ (openmc_driver_ d)) (power_ d) in
  source_shaped h -> Xt.well_shaped (source_ h) -> rings_fit_int h ->
  exists (src : Xt.tensor3) (r2c : gmap Z (list Z)),
    update_heat_source d =
      Some {| power_ := power_ d;
              max_timesteps_ := max_timesteps_ d;
              max_picard_iter_ := max_picard_iter_ d;
              openmc_driver_ := openmc_driver_ d;
              heat_driver_ := with_source h src;
              cell_inst_to_ring_ := cell_inst_to_ring_ d;
              ring_to_cell_inst_ := r2c;
              trace_ := trace_ d |} /\
    Xt.shape src = (n_pins_ h, n_axial_ h, n_rings h) /\
    length (Xt.data src) = total_rings h /\
    (forall r, Table.get r2c r = Table.get (ring_to_cell_inst_ d) r) /\
    (forall o : nat, (o < total_rings h)%nat ->
       Xt.data src !! o =
       Some (ring_heat_source h Q (ring_to_cell_inst_ d) o)).
Proof.
  intros h Q Hshape Hwf Hfit.
  assert (Hlen : length (Xt.data (source_ h)) = total_rings h).
  { unfold Xt.well_shaped in Hwf. unfold source_shaped in Hshape.
    rewrite Hshape in Hwf. exact Hwf. }
  destruct (heat_source_loops_inv h Q (ring_to_cell_inst_ d) (source_ h)
              Hfit Hshape Hlen) as (s' & Hrun & Hinv).
  destruct Hinv as (_ & Hs & Hl & Hget & Hdata).
  exists (sl_source s'), (sl_r2c s').
  unfold update_heat_source. fold h. fold Q. rewrite Hrun.
  split; [reflexivity|]. split; [exact Hs|]. split; [exact Hl|].
  split; [exact Hget|].
  intros o Ho. rewrite Hdata by exact Ho.
  replace (Z.of_nat o <? total_rings h) with true
    by (symmetry; apply Z.ltb_lt; lia).
  reflexivity.
Qed.

(** C1.  After [update_heat_source], for every pin [i], axial layer [j]
    and radial ring [k] of the grid: the heat-source slot [(i, j, k)] is
    exactly [0] when the ring is a cladding ring ([k >= n_fuel_rings]),
    and is the arithmetic mean of the reported heat generation [Q(idx)]
    over the entries [idx] of [ring_to_cell_inst_[ring]] when it is a fuel
    ring ([k < n_fuel_rings]); [ring] is the flattened index of
    [(i, j, k)].  The function returns whenever the field has the shape
    of the grid and the ring counter stays an [int]. *)
Theorem update_heat_source_slots (d : OpenmcHeatDriver) :
  let h := heat_driver_ d in
  let Q := transport_heat_source (transport_ (openmc_driver_ d)) (power_ d) in
  source_shaped h -> Xt.well_shaped (source_ h) -> rings_fit_int h ->
  exists d', update_heat_source d = Some d' /\
    forall i j k, in_grid h i j k ->
      (n_fuel_rings_ h <= k ->
         Xt.at_ (source_ (heat_driver_ d')) i j k = Some 0%float) /\
      (k < n_fuel_rings_ h ->
         Xt.at_ (source_ (heat_driver_ d')) i j k =
         Some (fmean (map (Xt.get Q)
                 (Table.get (ring_to_cell_inst_ d) (ring_of h i j k))))).
Proof.
  intros h Q Hshape Hwf Hfit.
  destruct (update_heat_source_spec d Hshape Hwf Hfit)
    as (src & r2c & Hrun & Hs & Hl & Hget & Hdata).
  fold h in Hrun, Hs, Hl, Hdata. fold Q in Hdata.
  eexists. split; [exact Hrun|]. simpl.
  intros i j k Hin.
  pose proof (ring_of_bound h i j k Hin) as Hb.
  assert (Hat : Xt.at_ src i j k =
                Some (ring_heat_source h Q (ring_to_cell_inst_ d)
                        (ring_of h i j k))).
  { destruct Hin as (Hi & Hj & Hk). unfold Xt.at_.
    rewrite (offset_in_shape src _ _ _ i j k Hs Hi Hj Hk).
    change ((i * n_axial_ h + j) * n_rings h + k) with (ring_of h i j k).
    rewrite Hdata by lia.
    now rewrite Z2Nat.id by lia. }
  rewrite Hat. unfold ring_heat_source.
  rewrite ring_of_mod by (destruct Hin as (_ & _ & Hk); exact Hk).
  split; intros Hk.
  - replace (k <? n_fuel_rings_ h) with false
      by (symmetry; apply Z.ltb_ge; lia).
    reflexivity.
  - replace (k <? n_fuel_rings_ h) with true
      by (symmetry; apply Z.ltb_lt; lia).
    reflexivity.
Qed.

(** C10.  [update_heat_source] is idempotent on the heat-source field:
    run twice in succession, with the transport results, the tables and
    the grid as the first run left them, the second run returns and
    leaves the field exactly as the first run did. *)
Theorem update_heat_source_idempotent (d : OpenmcHeatDriver) :
  let h := heat_driver_ d in
  source_shaped h -> Xt.well_shaped (source_ h) -> rings_fit_int h ->
  exists d1 d2,
    update_heat_source d = Some d1 /\
    update_heat_source d1 = Some d2 /\
    source_ (heat_driver_ d2) = source_ (heat_driver_ d1).
Proof.
  intros h Hshape Hwf Hfit.
  destruct (update_heat_source_spec d Hshape Hwf Hfit)
    as (src1 & m1 & Hrun1 & Hs1 & Hl1 & Hget1 & Hdata1).
  fold h in Hrun1, Hs1, Hl1, Hdata1.
  set (d1 := {| power_ := power_ d;
                max_timesteps_ := max_timesteps_ d;
                max_picard_iter_ := max_picard_iter_ d;
                openmc_driver_ := openmc_driver_ d;
                heat_driver_ := with_source h src1;
                cell_inst_to_ring_ := cell_inst_to_ring_ d;
                ring_to_cell_inst_ := m1;
                trace_ := trace_ d |}) in *.
  assert (Hshape' : source_shaped (heat_driver_ d1)) by exact Hs1.
  assert (Hwf' : Xt.well_shaped (source_ (heat_driver_ d1))).
  { unfold Xt.well_shaped. simpl. rewrite Hs1. exact Hl1. }
  assert (Hfit' : rings_fit_int (heat_driver_ d1)) by exact Hfit.
  destruct (update_heat_source_spec d1 Hshape' Hwf' Hfit')
    as (src2 & m2 & Hrun2 & Hs2 & Hl2 & Hget2 & Hdata2).
  exists d1. eexists. split; [exact Hrun1|]. split; [exact Hrun2|].
  simpl in *.
  destruct src1 as [sh1 dt1], src2 as [sh2 dt2]. simpl in *.
  f_equal; [exact (eq_trans Hs2 (eq_sym Hs1))|].
  apply list_eq. intros o.
  destruct (decide (o < total_rings h)%nat) as [Ho|Ho].
  - rewrite Hdata1 by exact Ho.
    change (total_rings (with_source h {| Xt.shape := sh1; Xt.data := dt1 |}))
      with (total_rings h) in Hdata2.
    rewrite Hdata2 by exact Ho. f_equal.
    exact (ring_heat_source_ext h _ m1 (ring_to_cell_inst_ d) o Hget1).
  - change (total_rings (with_source h {| Xt.shape := sh1; Xt.data := dt1 |}))
      with (total_rings h) in Hl2.
    rewrite !lookup_ge_None_2 by lia. reflexivity.
Qed.

(** ** Temperature projection *)

(** [r_outer^2 - r_inner^2] of band [i] of a radial grid. *)
Definition band_weight (grid : list float) (i : Z) : float :=
  (Xt.get grid (i + 1) * Xt.get grid (i + 1)
   - Xt.get grid i * Xt.get grid i)%float.

(** The specified weight of the ring with flattened index [r]: the radial
    sub-index is [r mod n_rings] (the remainder of the [int] division, as
    [%] computes it); it selects a band of the fuel grid when it is below
    [n_fuel_rings], and band [(r mod n_rings) - n_fuel_rings] of the
    cladding grid otherwise. *)
Definition ring_weight (h : SurrogateHeatDriver) (r : Z) : float :=
  let i := Z.rem r (n_rings h) in
  if i <? n_fuel_rings_ h then band_weight (r_grid_fuel_ h) i
  else band_weight (r_grid_clad_ h) (i - n_fuel_rings_ h).

(** [Sum(w_r * t_r) / Sum(w_r)] over a list of rings. *)
Definition weighted_average (h : SurrogateHeatDriver)
    (temperature : list float) (rings : list Z) : float :=
  (fsum (map (fun r => ring_weight h r * Xt.get temperature r) rings)
   / fsum (map (ring_weight h) rings))%float.

(** The [set_temperature] calls the specification prescribes: one per cell
    instance, in the order of [cells_]. *)
Definition projected_temperatures (h : SurrogateHeatDriver)
    (c2r : gmap Z (list Z)) (cells : list CellInstance)
    : list (CellInstance * float) :=
  imap (fun i c =>
          (c, weighted_average h (Xt.flatten (temperature_ h))
                (Table.get c2r (Z.of_nat i)))) cells.

(** On ring indices that are not negative, the remainder is the
    mathematical [mod]. *)
Lemma ring_index_rem_mod (h : SurrogateHeatDriver) (r : Z) :
  0 <= r -> Z.rem r (n_rings h) = r mod n_rings h.
Proof.
  intros Hr. destruct (decide (n_rings h = 0%nat)) as [Hz|Hz].
  - rewrite Hz. simpl. now rewrite Z.rem_0_r_ext, Z.mod_0_r.
  - apply Z.rem_mod_nonneg; lia.
Qed.

(** IEEE multiplication is commutative. *)
Lemma fmul_comm (x y : float) : (x * y = y * x)%float.
Proof.
  apply Prim2SF_inj. rewrite !FloatAxioms.mul_spec. unfold SF64mul, SFmul.
  destruct (Prim2SF x) as [sx|sx| |sx mx ex],
           (Prim2SF y) as [sy|sy| |sy my ey];
    try reflexivity; rewrite (xorb_comm sx sy); try reflexivity.
  now rewrite (Pos.mul_comm mx my), (Z.add_comm ex ey).
Qed.

Lemma ring_volume_fold (h : SurrogateHeatDriver) (temperature : list float)
    (rings : list Z) (a v : float) :
  fold_left (ring_volume_body h temperature) rings (a, v) =
  (fold_left (fun acc x => (acc + x)%float)
     (map (fun r => ring_weight h r * Xt.get temperature r)%float rings) a,
   fold_left (fun acc x => (acc + x)%float)
     (map (ring_weight h) rings) v).
Proof.
  revert a v. induction rings as [|r rings IH]; intros a v; [reflexivity|].
  simpl. rewrite <- IH. f_equal.
  unfold ring_volume_body, ring_weight, band_weight.
  destruct (Z.rem r (n_rings h) <? n_fuel_rings_ h);
    now rewrite (fmul_comm (Xt.get temperature r)).
Qed.

(** Invariant of the loop of [update_temperature] after [n] cell
    instances: the transport driver is as at entry but for the first [n]
    prescribed [set_temperature] calls, and reads of the reverse table are
    unchanged. *)
Definition temperature_inv (d : OpenmcHeatDriver) (n : Z) (s : TempLoop)
    : Prop :=
  let od := openmc_driver_ d in
  cells_ (tl_openmc s) = cells_ od /\
  openmc_active_ (tl_openmc s) = openmc_active_ od /\
  located_ (tl_openmc s) = located_ od /\
  (forall k, Table.get (tl_c2r s) k = Table.get (cell_inst_to_ring_ d) k) /\
  temperature_calls_ (tl_openmc s) =
    temperature_calls_ od ++
    take (Z.to_nat n)
      (projected_temperatures (heat_driver_ d) (cell_inst_to_ring_ d)
         (cells_ od)).

Lemma temperature_body_inv (d : OpenmcHeatDriver) (i : Z) (s : TempLoop) :
  0 <= i < length (cells_ (openmc_driver_ d)) ->
  temperature_inv d i s ->
  temperature_inv d (i + 1)
    (temperature_body (heat_driver_ d)
       (Xt.flatten (temperature_ (heat_driver_ d))) i s).
Proof.
  intros Hi (Hcells & Hact & Hloc & Hget & Hcalls).
  destruct (lookup_lt_is_Some_2 (cells_ (openmc_driver_ d)) (Z.to_nat i))
    as [c Hc]; [lia|].
  unfold temperature_body. rewrite Hcells, Hc.
  rewrite Hget, (surjective_pairing (fold_left _ _ _)).
  rewrite ring_volume_fold. simpl.
  unfold temperature_inv; simpl.
  split; [exact Hcells|]. split; [exact Hact|]. split; [exact Hloc|].
  split; [intros k; now rewrite Table.get_touch|].
  rewrite Hcalls, <- app_assoc. f_equal.
  replace (Z.to_nat (i + 1)) with (Datatypes.S (Z.to_nat i)) by lia.
  erewrite take_S_r; [reflexivity|].
  unfold projected_temperatures. rewrite list_lookup_imap, Hc. simpl.
  now rewrite Z2Nat.id by lia.
Qed.

(** [update_temperature] changes the transport driver by the prescribed
    [set_temperature] calls and (by creating empty entries) the reverse
    table, and nothing else. *)
Lemma update_temperature_spec (d : OpenmcHeatDriver) :
  let d' := update_temperature d in
  temperature_inv d (length (cells_ (openmc_driver_ d)))
    {| tl_c2r := cell_inst_to_ring_ d'; tl_openmc := openmc_driver_ d' |} /\
  power_ d' = power_ d /\
  max_timesteps_ d' = max_timesteps_ d /\
  max_picard_iter_ d' = max_picard_iter_ d /\
  heat_driver_ d' = heat_driver_ d /\
  ring_to_cell_inst_ d' = ring_to_cell_inst_ d /\
  trace_ d' = trace_ d.
Proof.
  simpl. split; [|repeat split; reflexivity].
  match goal with
  | |- temperature_inv _ _ ?s =>
      replace s with
        (for_int (length (cells_ (openmc_driver_ d)))
           (temperature_body (heat_driver_ d)
              (Xt.flatten (temperature_ (heat_driver_ d))))
           {| tl_c2r := cell_inst_to_ring_ d;
              tl_openmc := openmc_driver_ d |})
  end.
  2:{ unfold update_temperature; simpl.
      now destruct (for_int _ _ _). }
  apply (for_int_ind (temperature_inv d)); [lia| |].
  - unfold temperature_inv; simpl. repeat split; try reflexivity.
    now rewrite app_nil_r.
  - intros i t Hi Ht. now apply temperature_body_inv.
Qed.

(** The [set_temperature] calls of one run of [update_temperature]. *)
Lemma update_temperature_calls (d : OpenmcHeatDriver) :
  temperature_calls_ (openmc_driver_ (update_temperature d)) =
  temperature_calls_ (openmc_driver_ d) ++
  projected_temperatures (heat_driver_ d) (cell_inst_to_ring_ d)
    (cells_ (openmc_driver_ d)).
Proof.
  destruct (update_temperature_spec d) as ((_ & _ & _ & _ & Hcalls) & _).
  cbn [tl_openmc] in Hcalls. rewrite Hcalls. f_equal.
  apply take_ge. unfold projected_temperatures. rewrite length_imap. lia.
Qed.

Lemma update_temperature_call (d : OpenmcHeatDriver) (i : nat)
    (c : CellInstance) :
  cells_ (openmc_driver_ d) !! i = Some c ->
  temperature_calls_ (openmc_driver_ (update_temperature d))
    !! (length (temperature_calls_ (openmc_driver_ d)) + i)%nat =
  Some (c, weighted_average (heat_driver_ d)
             (Xt.flatten (temperature_ (heat_driver_ d)))
             (Table.get (cell_inst_to_ring_ d) i)).
Proof.
  intros Hc. rewrite update_temperature_calls.
  rewrite lookup_app_r by lia.
  replace (length _ + i - length _)%nat with i by lia.
  unfold projected_temperatures. now rewrite list_lookup_imap, Hc.
Qed.

Lemma map_fst_imap {A B : Type} (g : nat -> A -> B) (l : list A) :
  map fst (imap (fun i c => (c, g i c)) l) = l.
Proof.
  revert g. induction l as [|x l IH]; intros g; simpl; [reflexivity|].
  f_equal. exact (IH (fun i => g (S i))).
Qed.

Lemma projected_temperatures_ext (h : SurrogateHeatDriver)
    (m1 m2 : gmap Z (list Z)) (cells : list CellInstance) :
  (forall k, Table.get m1 k = Table.get m2 k) ->
  projected_temperatures h m1 cells = projected_temperatures h m2 cells.
Proof.
  intros Hm. unfold projected_temperatures. apply imap_ext.
  intros i c _. now rewrite Hm.
Qed.

(** The [set_temperature] calls [calls], made in order on the transport
    solver in state [t]. *)
Definition set_temperatures (calls : list (CellInstance * float))
    (t : TransportState) : TransportState :=
  fold_left (fun t call => transport_set_temperature call.1 call.2 t) calls t.

Lemma set_temperatures_snoc (calls : list (CellInstance * float))
    (c : CellInstance) (v : float) (t : TransportState) :
  set_temperatures (calls ++ [(c, v)]) t =
  transport_set_temperature c v (set_temperatures calls t).
Proof. unfold set_temperatures. now rewrite fold_left_app. Qed.

(** The calls reach the transport solver: its state after the loop is its
    state at entry with the prescribed calls made on it. *)
Lemma update_temperature_transport (d : OpenmcHeatDriver) :
  transport_ (openmc_driver_ (update_temperature d)) =
  set_temperatures
    (projected_temperatures (heat_driver_ d) (cell_inst_to_ring_ d)
       (cells_ (openmc_driver_ d)))
    (transport_ (openmc_driver_ d)).
Proof.
  set (calls := projected_temperatures (heat_driver_ d)
                  (cell_inst_to_ring_ d) (cells_ (openmc_driver_ d))).
  assert (Hloop :
    let s := for_int (length (cells_ (openmc_driver_ d)))
               (temperature_body (heat_driver_ d)
                  (Xt.flatten (temperature_ (heat_driver_ d))))
               {| tl_c2r := cell_inst_to_ring_ d;
                  tl_openmc := openmc_driver_ d |} in
    temperature_inv d (length (cells_ (openmc_driver_ d))) s /\
    transport_ (tl_openmc s) =
      set_temperatures
        (take (Z.to_nat (length (cells_ (openmc_driver_ d)))) calls)
        (transport_ (openmc_driver_ d))).
  { apply (for_int_ind
             (fun n s =>
                temperature_inv d n s /\
                transport_ (tl_openmc s) =
                  set_temperatures (take (Z.to_nat n) calls)
                    (transport_ (openmc_driver_ d)))); [lia| |].
    - split; [|reflexivity].
      unfold temperature_inv; simpl. repeat split; try reflexivity.
      now rewrite app_nil_r.
    - intros i s Hi (Hinv & Htr).
      split; [now apply temperature_body_inv|].
      destruct Hinv as (Hcells & _ & _ & Hget & _).
      destruct (lookup_lt_is_Some_2 (cells_ (openmc_driver_ d)) (Z.to_nat i))
        as [c Hc]; [lia|].
      unfold temperature_body. rewrite Hcells, Hc.
      rewrite Hget, (surjective_pairing (fold_left _ _ _)).
      rewrite ring_volume_fold. cbn [fst snd tl_openmc set_temperature transport_].
      replace (Z.to_nat (i + 1)) with (Datatypes.S (Z.to_nat i)) by lia.
      erewrite take_S_r.
      2:{ unfold calls, projected_temperatures.
          rewrite list_lookup_imap, Hc. simpl.
          now rewrite Z2Nat.id by lia. }
      rewrite set_temperatures_snoc, <- Htr. reflexivity. }
  destruct Hloop as (_ & Htr). cbn zeta in Htr.
  rewrite take_ge in Htr
    by (unfold calls, projected_temperatures; rewrite length_imap; lia).
  exact Htr.
Qed.

(** C2.  For every cell instance [i] whose mapped ring list
    [cell_inst_to_ring_[i]] has positive total weight, [update_temperature]
    sets the temperature of that cell instance to exactly
    [Sum(w_e * t_e) / Sum(w_e)], the sums running over the entries [e] of
    the list: a ring that is entered [n] times, once for each azimuthal
    sample located in the cell instance, counts [n] times.  [t_e] is the
    flattened temperature at [e] and [w_e] the weight [ring_weight] of the
    radial band of [e].  The call is the [i]-th [set_temperature] call of the
    run, it is on [cells_[i]], and the calls of the run are what the run
    does to the transport solver. *)
Theorem update_temperature_weighted_average (d : OpenmcHeatDriver)
    (i : nat) (c : CellInstance) :
  let h := heat_driver_ d in
  let t := Xt.flatten (temperature_ h) in
  let rings := Table.get (cell_inst_to_ring_ d) i in
  let d' := update_temperature d in
  cells_ (openmc_driver_ d) !! i = Some c ->
  (0 <? fsum (map (ring_weight h) rings))%float = true ->
  exists calls : list (CellInstance * float),
    calls !! i =
      Some (c, (fsum (map (fun r => ring_weight h r * Xt.get t r) rings)
                / fsum (map (ring_weight h) rings))%float) /\
    map fst calls = cells_ (openmc_driver_ d) /\
    temperature_calls_ (openmc_driver_ d') =
      temperature_calls_ (openmc_driver_ d) ++ calls /\
    transport_ (openmc_driver_ d') =
      set_temperatures calls (transport_ (openmc_driver_ d)).
Proof.
  intros h t rings d' Hc _.
  exists (projected_temperatures h (cell_inst_to_ring_ d)
            (cells_ (openmc_driver_ d))).
  split; [|split; [|split]].
  - unfold projected_temperatures. now rewrite list_lookup_imap, Hc.
  - apply map_fst_imap.
  - apply update_temperature_calls.
  - apply update_temperature_transport.
Qed.

(** C9.  The final division of [update_temperature] is not guarded: for
    a cell instance [i] whose mapped rings have zero total weight the
    divisor is zero, and the value computed and passed to
    [set_temperature] is not finite (a NaN or an infinity). *)
Theorem update_temperature_zero_weight (d : OpenmcHeatDriver)
    (i : nat) (c : CellInstance) :
  let h := heat_driver_ d in
  let t := Xt.flatten (temperature_ h) in
  let rings := Table.get (cell_inst_to_ring_ d) i in
  cells_ (openmc_driver_ d) !! i = Some c ->
  PrimFloat.is_zero (fsum (map (ring_weight h) rings)) = true ->
  exists v : float,
    temperature_calls_ (openmc_driver_ (update_temperature d))
      !! (length (temperature_calls_ (openmc_driver_ d)) + i)%nat =
    Some (c, v) /\
    v = (fsum (map (fun r => ring_weight h r * Xt.get t r) rings)
         / fsum (map (ring_weight h) rings))%float /\
    PrimFloat.is_finite v = false.
Proof.
  intros h t rings Hc Hzero. eexists. split.
  - exact (update_temperature_call d i c Hc).
  - split; [reflexivity|]. now apply div_by_zero_not_finite.
Qed.

(** ** The coupling controller *)

(** The events of one Picard iteration whose transport solve has
    iteration index [i]. *)
Definition picard_events (openmc_active heat_active : bool) (i : Z)
    : list Event :=
  (if openmc_active then [EvInitStep; EvSolveStep i; EvFinalizeStep]
   else []) ++
  [EvBarrier; EvUpdateHeatSource] ++
  (if heat_active then [EvHeatSolve] else []) ++
  [EvBarrier; EvUpdateTemperature].

(** The events [d'] has recorded since [d]. *)
Definition new_events (d d' : OpenmcHeatDriver) : list Event :=
  drop (length (trace_ d)) (trace_ d').

Definition is_transport_solve (e : Event) : bool :=
  match e with EvSolveStep _ => true | _ => false end.

Definition is_heat_solve (e : Event) : bool :=
  match e with EvHeatSolve => true | _ => false end.

Definition count_events (p : Event -> bool) (l : list Event) : nat :=
  length (List.filter p l).

(** The iteration indices of [solve_step] stay [int]s. *)
Definition indices_fit_int (d : OpenmcHeatDriver) : Prop :=
  max_timesteps_ d * max_timesteps_ d + max_picard_iter_ d <= int_max.

(** Without any bound on the ring counter, [update_heat_source] still
    returns when the field has the shape of the grid, and keeps that
    shape. *)
Lemma heat_source_body_shape (h : SurrogateHeatDriver) (Q : list float)
    (i j k : Z) (s : SourceLoop) :
  in_grid h i j k ->
  Xt.shape (sl_source s) = (n_pins_ h, n_axial_ h, n_rings h) ->
  exists s', heat_source_body h Q i j k s = Some s' /\
             Xt.shape (sl_source s') = (n_pins_ h, n_axial_ h, n_rings h).
Proof.
  intros (Hi & Hj & Hk) Hshape. unfold heat_source_body.
  destruct (k <? n_fuel_rings_ h).
  - rewrite (Xt_at_put_in_shape _ _ _ _ _ _ _ _ Hshape Hi Hj Hk).
    eexists. split; [reflexivity | exact Hshape].
  - eexists. split; [reflexivity | exact Hshape].
Qed.

Lemma update_heat_source_returns (d : OpenmcHeatDriver) :
  let h := heat_driver_ d in
  source_shaped h ->
  exists (src : Xt.tensor3) (r2c : gmap Z (list Z)),
    update_heat_source d =
      Some {| power_ := power_ d;
              max_timesteps_ := max_timesteps_ d;
              max_picard_iter_ := max_picard_iter_ d;
              openmc_driver_ := openmc_driver_ d;
              heat_driver_ := with_source h src;
              cell_inst_to_ring_ := cell_inst_to_ring_ d;
              ring_to_cell_inst_ := r2c;
              trace_ := trace_ d |} /\
    Xt.shape src = (n_pins_ h, n_axial_ h, n_rings h).
Proof.
  intros h Hshape. unfold update_heat_source. fold h.
  set (Q := transport_heat_source _ _).
  destruct (try_for_int3_ind
              (fun _ s => Xt.shape (sl_source s)
                          = (n_pins_ h, n_axial_ h, n_rings h))
              (n_pins_ h) (n_axial_ h) (n_rings h)
              (heat_source_body h Q)
              {| sl_ring_index := 0;
                 sl_r2c := ring_to_cell_inst_ d;
                 sl_source := Xt.fill 0%float (source_ h) |})
    as (s' & Hrun & Hs'); try lia.
  - exact Hshape.
  - intros i j k t Hi Hj Hk Ht.
    apply heat_source_body_shape; [|exact Ht]. unfold in_grid. lia.
  - change (heat_source_loops h Q
              {| sl_ring_index := 0;
                 sl_r2c := ring_to_cell_inst_ d;
                 sl_source := Xt.fill 0%float (source_ h) |} = Some s')
      in Hrun.
    rewrite Hrun.
    exists (sl_source s'), (sl_r2c s'). split; [reflexivity | exact Hs'].
Qed.

(** [steps d d' evs]: going from [d] to [d'] records the events [evs]
    and keeps what the controller never changes: the loop bounds, which
    solver is active, and that the heat-source field has the shape of the
    grid. *)
Definition steps (d d' : OpenmcHeatDriver) (evs : list Event) : Prop :=
  max_timesteps_ d' = max_timesteps_ d /\
  max_picard_iter_ d' = max_picard_iter_ d /\
  openmc_active_ (openmc_driver_ d') = openmc_active_ (openmc_driver_ d) /\
  heat_active_ (heat_driver_ d') = heat_active_ (heat_driver_ d) /\
  (source_shaped (heat_driver_ d) -> source_shaped (heat_driver_ d')) /\
  trace_ d' = trace_ d ++ evs.

Lemma steps_refl (d : OpenmcHeatDriver) : steps d d [].
Proof. unfold steps. rewrite app_nil_r. repeat split; done. Qed.

Lemma steps_trans (d1 d2 d3 : OpenmcHeatDriver) (e1 e2 : list Event) :
  steps d1 d2 e1 -> steps d2 d3 e2 -> steps d1 d3 (e1 ++ e2).
Proof.
  intros (Ha & Hb & Hc & Hd & He & Hf) (Ha' & Hb' & Hc' & Hd' & He' & Hf').
  unfold steps. rewrite Ha', Hb', Hc', Hd', Hf', Hf, app_assoc.
  repeat split; auto.
Qed.

Lemma steps_log (e : Event) (d : OpenmcHeatDriver) : steps d (log e d) [e].
Proof. unfold steps; simpl. repeat split; done. Qed.

Lemma steps_on_transport f (d : OpenmcHeatDriver) :
  steps d (on_transport f d) [].
Proof. unfold steps; simpl. rewrite app_nil_r. repeat split; done. Qed.

Lemma steps_transport_solve (i : Z) (d : OpenmcHeatDriver) :
  steps d
    (openmc_finalize_step (openmc_solve_step i (openmc_init_step d)))
    [EvInitStep; EvSolveStep i; EvFinalizeStep].
Proof.
  unfold steps; simpl. rewrite <- !app_assoc. repeat split; done.
Qed.

Lemma steps_heat_solve (d : OpenmcHeatDriver) :
  steps d (heat_solve_step d) [EvHeatSolve].
Proof. unfold steps; simpl. repeat split; done. Qed.

Lemma steps_update_temperature (d : OpenmcHeatDriver) :
  steps d (update_temperature d) [].
Proof.
  destruct (update_temperature_spec d)
    as ((_ & Hact & _) & _ & Hmt & Hmp & Hh & _ & Htr).
  cbn [tl_openmc] in Hact.
  unfold steps. rewrite Hmt, Hmp, Hact, Hh, Htr, app_nil_r.
  repeat split; done.
Qed.

Lemma steps_update_heat_source (d : OpenmcHeatDriver) :
  source_shaped (heat_driver_ d) ->
  exists d', update_heat_source d = Some d' /\ steps d d' [].
Proof.
  intros Hshape.
  destruct (update_heat_source_returns d Hshape)
    as (src & r2c & Hrun & Hsrc).
  eexists. split; [exact Hrun|].
  unfold steps; simpl. rewrite app_nil_r. repeat split; done.
Qed.

Lemma picard_body_spec (d : OpenmcHeatDriver) (i_timestep i_picard : Z) :
  source_shaped (heat_driver_ d) ->
  exists d',
    picard_body i_timestep i_picard d = Some d' /\
    steps d d'
      (picard_events (openmc_active_ (openmc_driver_ d))
         (heat_active_ (heat_driver_ d))
         (int_add (int_mul i_timestep (max_timesteps_ d)) i_picard)).
Proof.
  intros Hshape. unfold picard_body, picard_events.
  set (i := int_add _ i_picard).
  set (ev1 := if openmc_active_ (openmc_driver_ d) then _ else []).
  set (d1 := if openmc_active_ (openmc_driver_ d) then _ else d).
  assert (H1 : steps d d1 ev1).
  { subst d1 ev1. destruct (openmc_active_ (openmc_driver_ d)).
    - apply steps_transport_solve.
    - apply steps_refl. }
  clearbody d1 ev1.
  set (d2 := log EvUpdateHeatSource (barrier d1)).
  assert (H2 : steps d d2 (ev1 ++ [EvBarrier] ++ [EvUpdateHeatSource])).
  { eapply steps_trans; [exact H1|].
    eapply steps_trans; apply steps_log. }
  clearbody d2.
  destruct (steps_update_heat_source d2) as (d3 & Hrun & H3).
  { destruct H2 as (_ & _ & _ & _ & Hs & _). auto. }
  rewrite Hrun. eexists. split; [reflexivity|].
  assert (Hah : heat_active_ (heat_driver_ d3) = heat_active_ (heat_driver_ d)).
  { destruct H2 as (_ & _ & _ & Hd & _), H3 as (_ & _ & _ & Hd' & _).
    congruence. }
  rewrite Hah.
  replace (ev1 ++ [EvBarrier; EvUpdateHeatSource] ++
           (if heat_active_ (heat_driver_ d) then [EvHeatSolve] else []) ++
           [EvBarrier; EvUpdateTemperature])
    with (((ev1 ++ [EvBarrier] ++ [EvUpdateHeatSource]) ++ []) ++
          (if heat_active_ (heat_driver_ d) then [EvHeatSolve] else []) ++
          ([EvBarrier] ++ [EvUpdateTemperature]) ++ [])
    by (rewrite !app_nil_r, <- !app_assoc; reflexivity).
  eapply steps_trans; [eapply steps_trans; [exact H2 | exact H3]|].
  eapply steps_trans;
    [|eapply steps_trans;
      [eapply steps_trans; apply steps_log
      |apply steps_update_temperature]].
  destruct (heat_active_ (heat_driver_ d)).
  - apply steps_heat_solve.
  - apply steps_refl.
Qed.

Lemma steps_shaped (d d' : OpenmcHeatDriver) (evs : list Event) :
  steps d d' evs -> source_shaped (heat_driver_ d) ->
  source_shaped (heat_driver_ d').
Proof. intros (_ & _ & _ & _ & Hs & _). exact Hs. Qed.

(** The Picard loop of time step [i_timestep]. *)
Lemma picard_loop_spec (d : OpenmcHeatDriver) (i_timestep : Z)
    (idx : Z -> Z) :
  source_shaped (heat_driver_ d) ->
  (forall i_picard, 0 <= i_picard < max_picard_iter_ d ->
     int_add (int_mul i_timestep (max_timesteps_ d)) i_picard
     = idx i_picard) ->
  exists d',
    try_for_int (max_picard_iter_ d) (picard_body i_timestep) d = Some d' /\
    steps d d'
      (seqZ 0 (max_picard_iter_ d) ≫= fun i_picard =>
         picard_events (openmc_active_ (openmc_driver_ d))
           (heat_active_ (heat_driver_ d)) (idx i_picard)).
Proof.
  intros Hshape Hidx.
  destruct (Z.le_gt_cases 0 (max_picard_iter_ d)) as [Hn|Hn].
  2:{ rewrite try_for_int_nonpos, seqZ_nil by lia.
      exists d. split; [reflexivity | apply steps_refl]. }
  apply (try_for_int_ind
           (fun n t =>
              steps d t
                (seqZ 0 n ≫= fun i_picard =>
                   picard_events (openmc_active_ (openmc_driver_ d))
                     (heat_active_ (heat_driver_ d)) (idx i_picard))));
    [exact Hn | apply steps_refl |].
  intros i t Hi Ht.
  destruct (picard_body_spec t i_timestep i) as (t' & Hrun & Hstep).
  { exact (steps_shaped d t _ Ht Hshape). }
  exists t'. split; [exact Hrun|].
  rewrite seqZ_snoc, bind_app, bind_singleton by lia.
  eapply steps_trans; [exact Ht|].
  destruct Ht as (Hmt & _ & Hao & Hah & _).
  rewrite Hmt, Hao, Hah, Hidx in Hstep by lia. exact Hstep.
Qed.

(** The events of [solve_step]: one block per Picard iteration, time
    step by time step.  [idx] gives the iteration index handed to the
    transport solver. *)
Lemma solve_step_spec (d : OpenmcHeatDriver) (idx : Z -> Z -> Z) :
  source_shaped (heat_driver_ d) ->
  (forall i_timestep i_picard,
     0 <= i_timestep < max_timesteps_ d ->
     0 <= i_picard < max_picard_iter_ d ->
     int_add (int_mul i_timestep (max_timesteps_ d)) i_picard
     = idx i_timestep i_picard) ->
  exists d',
    solve_step d = Some d' /\
    steps d d'
      (seqZ 0 (max_timesteps_ d) ≫= fun i_timestep =>
       seqZ 0 (max_picard_iter_ d) ≫= fun i_picard =>
         picard_events (openmc_active_ (openmc_driver_ d))
           (heat_active_ (heat_driver_ d)) (idx i_timestep i_picard)).
Proof.
  intros Hshape Hidx. unfold solve_step.
  destruct (Z.le_gt_cases 0 (max_timesteps_ d)) as [Hn|Hn].
  2:{ rewrite (try_for_int_nonpos (max_timesteps_ d)) by lia.
      rewrite (seqZ_nil 0 (max_timesteps_ d)) by lia.
      exists d. split; [reflexivity | apply steps_refl]. }
  apply (try_for_int_ind
           (fun n t =>
              steps d t
                (seqZ 0 n ≫= fun i_timestep =>
                 seqZ 0 (max_picard_iter_ d) ≫= fun i_picard =>
                   picard_events (openmc_active_ (openmc_driver_ d))
                     (heat_active_ (heat_driver_ d))
                     (idx i_timestep i_picard))));
    [exact Hn | apply steps_refl |].
  intros i t Hi Ht.
  pose proof Ht as (Hmt & Hmp & Hao & Hah & _).
  destruct (picard_loop_spec t i (idx i)) as (t' & Hrun & Hstep).
  { exact (steps_shaped d t _ Ht Hshape). }
  { intros ip Hip. rewrite Hmt. rewrite Hmp in Hip. apply Hidx; lia. }
  rewrite Hmp in Hrun. exists t'. split; [exact Hrun|].
  rewrite seqZ_snoc, bind_app, bind_singleton by lia.
  eapply steps_trans; [exact Ht|].
  rewrite Hmp, Hao, Hah in Hstep. exact Hstep.
Qed.

Lemma steps_new_events (d d' : OpenmcHeatDriver) (evs : list Event) :
  steps d d' evs -> new_events d d' = evs.
Proof.
  intros (_ & _ & _ & _ & _ & Htr). unfold new_events.
  now rewrite Htr, drop_app_length.
Qed.

(** *** The states of the two solvers *)

Definition with_temperature (h : SurrogateHeatDriver) (t : Xt.tensor3)
    : SurrogateHeatDriver :=
  {| n_pins_ := n_pins_ h;
     n_axial_ := n_axial_ h;
     n_fuel_rings_ := n_fuel_rings_ h;
     n_clad_rings_ := n_clad_rings_ h;
     r_grid_fuel_ := r_grid_fuel_ h;
     r_grid_clad_ := r_grid_clad_ h;
     z_ := z_ h;
     pin_centers_ := pin_centers_ h;
     source_ := source_ h;
     temperature_ := t;
     heat_active_ := heat_active_ h |}.

(** The heat-source field that the projection prescribes: the shape is
    kept, and the slot of every ring holds [ring_heat_source]. *)
Definition projected_source (h : SurrogateHeatDriver) (Q : list float)
    (r2c : gmap Z (list Z)) : Xt.tensor3 :=
  {| Xt.shape := Xt.shape (source_ h);
     Xt.data :=
       map (fun o : nat => ring_heat_source h Q r2c o)
         (seq 0 (total_rings h)) |}.

(** The state of the transport solver and the heat-conduction driver. *)
Definition coupled_state (d : OpenmcHeatDriver)
    : TransportState * SurrogateHeatDriver :=
  (transport_ (openmc_driver_ d), heat_driver_ d).

(** One inner iteration as the specification describes it, on the states
    of the two solvers.  An active transport solver is solved ([init_step],
    [solve_step] with the iteration index [i], [finalize_step]); the heat
    source is projected from what the transport solver then reports; an
    active heat-conduction solver is solved on the projected source; the
    temperature it leaves is projected into the transport solver, one
    [set_temperature] call per cell instance.  The tables, the cell
    instances and the power are those of the driver [d]. *)
Definition coupled_iteration (d : OpenmcHeatDriver) (i : Z)
    (s : TransportState * SurrogateHeatDriver)
    : TransportState * SurrogateHeatDriver :=
  let '(t, h) := s in
  let t :=
    if openmc_active_ (openmc_driver_ d)
    then transport_finalize_step
           (transport_solve_step i (transport_init_step t))
    else t in
  let Q := transport_heat_source t (power_ d) in
  let h := with_source h (projected_source h Q (ring_to_cell_inst_ d)) in
  let h := if heat_active_ h then with_temperature h (heat_solve h) else h in
  let t :=
    set_temperatures
      (projected_temperatures h (cell_inst_to_ring_ d)
         (cells_ (openmc_driver_ d))) t in
  (t, h).

(** [d] is a state that [solve_step] reaches from [d0]: the parameters,
    the cell instances and what the tables read are those of [d0], and the
    heat-source field is well formed. *)
Definition coupled_with (d0 d : OpenmcHeatDriver) : Prop :=
  power_ d = power_ d0 /\
  max_timesteps_ d = max_timesteps_ d0 /\
  max_picard_iter_ d = max_picard_iter_ d0 /\
  cells_ (openmc_driver_ d) = cells_ (openmc_driver_ d0) /\
  openmc_active_ (openmc_driver_ d) = openmc_active_ (openmc_driver_ d0) /\
  (forall k, Table.get (cell_inst_to_ring_ d) k
             = Table.get (cell_inst_to_ring_ d0) k) /\
  (forall r, Table.get (ring_to_cell_inst_ d) r
             = Table.get (ring_to_cell_inst_ d0) r) /\
  source_shaped (heat_driver_ d) /\
  Xt.well_shaped (source_ (heat_driver_ d)) /\
  rings_fit_int (heat_driver_ d).

Lemma coupled_with_refl (d : OpenmcHeatDriver) :
  source_shaped (heat_driver_ d) ->
  Xt.well_shaped (source_ (heat_driver_ d)) ->
  rings_fit_int (heat_driver_ d) ->
  coupled_with d d.
Proof. intros Hs Hw Hf. unfold coupled_with. repeat split; assumption. Qed.

(** The field that [update_heat_source] leaves is the prescribed one. *)
Lemma update_heat_source_projected (d : OpenmcHeatDriver) :
  let h := heat_driver_ d in
  let Q := transport_heat_source (transport_ (openmc_driver_ d)) (power_ d) in
  source_shaped h -> Xt.well_shaped (source_ h) -> rings_fit_int h ->
  exists r2c : gmap Z (list Z),
    update_heat_source d =
      Some {| power_ := power_ d;
              max_timesteps_ := max_timesteps_ d;
              max_picard_iter_ := max_picard_iter_ d;
              openmc_driver_ := openmc_driver_ d;
              heat_driver_ :=
                with_source h (projected_source h Q (ring_to_cell_inst_ d));
              cell_inst_to_ring_ := cell_inst_to_ring_ d;
              ring_to_cell_inst_ := r2c;
              trace_ := trace_ d |} /\
    (forall r, Table.get r2c r = Table.get (ring_to_cell_inst_ d) r).
Proof.
  intros h Q Hshape Hwf Hfit.
  destruct (update_heat_source_spec d Hshape Hwf Hfit)
    as (src & r2c & Hrun & Hs & Hl & Hget & Hdata).
  fold h in Hrun, Hs, Hl, Hdata. fold Q in Hdata.
  exists r2c. split; [|exact Hget].
  rewrite Hrun.
  replace src with (projected_source h Q (ring_to_cell_inst_ d));
    [reflexivity|].
  destruct src as [sh dt]. unfold projected_source. simpl in *.
  f_equal; [now rewrite Hs, Hshape|].
  apply list_eq. intros o.
  destruct (decide (o < total_rings h)%nat) as [Ho|Ho].
  - rewrite Hdata by exact Ho.
    rewrite list_lookup_fmap, lookup_seq_lt by exact Ho. reflexivity.
  - rewrite (lookup_ge_None_2 dt) by lia.
    apply lookup_ge_None_2. rewrite length_map, length_seq. lia.
Qed.

(** One run of the body of the Picard loop, on the states of the two
    solvers. *)
Lemma picard_body_coupled (d0 d : OpenmcHeatDriver) (i_timestep i_picard : Z) :
  coupled_with d0 d ->
  exists d',
    picard_body i_timestep i_picard d = Some d' /\
    coupled_with d0 d' /\
    coupled_state d' =
      coupled_iteration d0
        (int_add (int_mul i_timestep (max_timesteps_ d0)) i_picard)
        (coupled_state d).
Proof.
  intros (Hpw & Hmt & Hmp & Hcells & Hact & Hc2r & Hr2c & Hshape & Hwf & Hfit).
  unfold picard_body.
  set (i := int_add (int_mul i_timestep (max_timesteps_ d0)) i_picard).
  set (t1 := if openmc_active_ (openmc_driver_ d0)
             then transport_finalize_step
                    (transport_solve_step i
                       (transport_init_step (transport_ (openmc_driver_ d))))
             else transport_ (openmc_driver_ d)).
  match goal with
  | |- context [update_heat_source ?x] => set (d2 := x)
  end.
  assert (H2 : power_ d2 = power_ d /\
               max_timesteps_ d2 = max_timesteps_ d /\
               max_picard_iter_ d2 = max_picard_iter_ d /\
               cells_ (openmc_driver_ d2) = cells_ (openmc_driver_ d) /\
               openmc_active_ (openmc_driver_ d2)
                 = openmc_active_ (openmc_driver_ d) /\
               transport_ (openmc_driver_ d2) = t1 /\
               heat_driver_ d2 = heat_driver_ d /\
               cell_inst_to_ring_ d2 = cell_inst_to_ring_ d /\
               ring_to_cell_inst_ d2 = ring_to_cell_inst_ d).
  { subst d2 t1 i. rewrite <- Hact, <- Hmt.
    destruct (openmc_active_ (openmc_driver_ d)) eqn:Ha; simpl;
      rewrite ?Ha; repeat split; reflexivity. }
  clearbody d2.
  destruct H2 as (Hpw2 & Hmt2 & Hmp2 & Hcells2 & Hact2 & Ht2 & Hh2 & Hc2 & Hr2).
  destruct (update_heat_source_projected d2) as (r2c & Hrun & Hget);
    try (rewrite Hh2; assumption).
  rewrite Hrun. eexists. split; [reflexivity|].
  set (Q := transport_heat_source _ _) in *.
  set (h3 := with_source (heat_driver_ d2) _).
  match goal with
  | |- context [update_temperature ?x] => set (d5 := x)
  end.
  set (h4 := if heat_active_ h3 then with_temperature h3 (heat_solve h3)
             else h3).
  assert (H5 : power_ d5 = power_ d /\
               max_timesteps_ d5 = max_timesteps_ d /\
               max_picard_iter_ d5 = max_picard_iter_ d /\
               openmc_driver_ d5 = openmc_driver_ d2 /\
               heat_driver_ d5 = h4 /\
               cell_inst_to_ring_ d5 = cell_inst_to_ring_ d /\
               ring_to_cell_inst_ d5 = r2c).
  { subst d5 h4. cbn [heat_driver_ heat_active_ with_source].
    fold h3.
    destruct (heat_active_ h3) eqn:Hah; simpl;
      repeat split; assumption || reflexivity. }
  clearbody d5.
  destruct H5 as (Hpw5 & Hmt5 & Hmp5 & Hod5 & Hh5 & Hc5 & Hr5).
  destruct (update_temperature_spec d5)
    as ((Hcells' & Hact' & _ & Hget' & _) & Hpw' & Hmt' & Hmp' & Hh' & Hr' & _).
  cbn [tl_openmc tl_c2r] in Hcells', Hact', Hget'.
  assert (Hgrid : source_shaped h4 /\ Xt.well_shaped (source_ h4) /\
                  rings_fit_int h4).
  { assert (H3 : source_shaped h3 /\ Xt.well_shaped (source_ h3) /\
                 rings_fit_int h3).
    { subst h3. rewrite Hh2.
      unfold source_shaped, Xt.well_shaped, rings_fit_int, projected_source
        in *.
      cbn. rewrite Hshape. repeat split; try assumption.
      rewrite length_map, length_seq. reflexivity. }
    subst h4. destruct (heat_active_ h3); exact H3. }
  split.
  - unfold coupled_with.
    rewrite Hpw', Hmt', Hmp', Hcells', Hact', Hh', Hr', Hpw5, Hmt5, Hmp5,
      Hod5, Hh5, Hr5, Hcells2, Hact2.
    destruct Hgrid as (Hg1 & Hg2 & Hg3).
    repeat split; try assumption.
    + intros k. now rewrite Hget', Hc5.
    + intros r. now rewrite Hget, Hr2.
  - assert (Hh3 : h3 = with_source (heat_driver_ d)
                         (projected_source (heat_driver_ d)
                            (transport_heat_source t1 (power_ d0))
                            (ring_to_cell_inst_ d0))).
    { subst h3 Q. rewrite Hh2, Ht2, Hpw2, Hpw, Hr2. f_equal.
      unfold projected_source. f_equal. apply map_ext. intros o.
      apply ring_heat_source_ext. exact Hr2c. }
    unfold coupled_state, coupled_iteration. fold t1.
    rewrite <- Hh3. fold h4.
    rewrite update_temperature_transport, Hh', Hh5, Hod5, Ht2, Hc5,
      Hcells2, Hcells.
    now rewrite (projected_temperatures_ext h4 _ _ _ Hc2r).
Qed.

(** The Picard loop of time step [i_timestep], on the states of the two
    solvers. *)
Lemma picard_loop_coupled (d0 d : OpenmcHeatDriver) (i_timestep : Z)
    (idx : Z -> Z) :
  coupled_with d0 d ->
  (forall i_picard, 0 <= i_picard < max_picard_iter_ d0 ->
     int_add (int_mul i_timestep (max_timesteps_ d0)) i_picard
     = idx i_picard) ->
  exists d',
    try_for_int (max_picard_iter_ d0) (picard_body i_timestep) d = Some d' /\
    coupled_with d0 d' /\
    coupled_state d' =
      fold_left (fun s i => coupled_iteration d0 i s)
        (seqZ 0 (max_picard_iter_ d0) ≫= fun i_picard => [idx i_picard])
        (coupled_state d).
Proof.
  intros Hd Hidx.
  destruct (Z.le_gt_cases 0 (max_picard_iter_ d0)) as [Hn|Hn].
  2:{ rewrite try_for_int_nonpos, seqZ_nil by lia.
      exists d. split; [reflexivity|]. split; [exact Hd | reflexivity]. }
  apply (try_for_int_ind
           (fun n t =>
              coupled_with d0 t /\
              coupled_state t =
                fold_left (fun s i => coupled_iteration d0 i s)
                  (seqZ 0 n ≫= fun i_picard => [idx i_picard])
                  (coupled_state d)));
    [exact Hn | split; [exact Hd | reflexivity] |].
  intros i t Hi (Ht & Hstate).
  destruct (picard_body_coupled d0 t i_timestep i Ht)
    as (t' & Hrun & Ht' & Hstate').
  exists t'. split; [exact Hrun|]. split; [exact Ht'|].
  rewrite seqZ_snoc, bind_app, bind_singleton, fold_left_app by lia.
  rewrite <- Hstate, <- Hidx by lia. exact Hstate'.
Qed.

(** [solve_step] on the states of the two solvers: the iterations of the
    specification, composed in the order of the loops.  [idx] gives the
    iteration index of each. *)
Lemma solve_step_coupled (d : OpenmcHeatDriver) (idx : Z -> Z -> Z) :
  source_shaped (heat_driver_ d) ->
  Xt.well_shaped (source_ (heat_driver_ d)) ->
  rings_fit_int (heat_driver_ d) ->
  (forall i_timestep i_picard,
     0 <= i_timestep < max_timesteps_ d ->
     0 <= i_picard < max_picard_iter_ d ->
     int_add (int_mul i_timestep (max_timesteps_ d)) i_picard
     = idx i_timestep i_picard) ->
  exists d',
    solve_step d = Some d' /\
    coupled_state d' =
      fold_left (fun s i => coupled_iteration d i s)
        (seqZ 0 (max_timesteps_ d) ≫= fun i_timestep =>
         seqZ 0 (max_picard_iter_ d) ≫= fun i_picard =>
           [idx i_timestep i_picard])
        (coupled_state d).
Proof.
  intros Hshape Hwf Hfit Hidx. unfold solve_step.
  destruct (Z.le_gt_cases 0 (max_timesteps_ d)) as [Hn|Hn].
  2:{ rewrite (try_for_int_nonpos (max_timesteps_ d)) by lia.
      rewrite (seqZ_nil 0 (max_timesteps_ d)) by lia.
      exists d. split; reflexivity. }
  destruct (try_for_int_ind
              (fun n t =>
                 coupled_with d t /\
                 coupled_state t =
                   fold_left (fun s i => coupled_iteration d i s)
                     (seqZ 0 n ≫= fun i_timestep =>
                      seqZ 0 (max_picard_iter_ d) ≫= fun i_picard =>
                        [idx i_timestep i_picard])
                     (coupled_state d))
              (max_timesteps_ d)
              (fun i_timestep =>
                 try_for_int (max_picard_iter_ d) (picard_body i_timestep))
              d Hn)
    as (d' & Hrun & _ & Hstate).
  - split; [now apply coupled_with_refl | reflexivity].
  - intros i t Hi (Ht & Hstate).
    destruct (picard_loop_coupled d t i (idx i) Ht)
      as (t' & Hrun & Ht' & Hstate').
    { intros ip Hip. apply Hidx; lia. }
    exists t'. split; [exact Hrun|]. split; [exact Ht'|].
    rewrite seqZ_snoc, bind_app, bind_singleton, fold_left_app by lia.
    rewrite <- Hstate. exact Hstate'.
  - exists d'. split; [exact Hrun | exact Hstate].
Qed.
(** C7.  With [max_timesteps = 2], [max_picard_iter = 3] and both
    solvers active, [solve_step] returns having performed exactly 6
    transport solves, each as [init_step], [solve_step], [finalize_step],
    and exactly 6 heat-conduction solves; every inner iteration runs, in
    this order, the transport solve, a barrier, the heat-source
    projection, the heat-conduction solve, a barrier and the temperature
    projection, so a barrier precedes and follows each heat-conduction
    solve.  The six iterations are what [solve_step] does to the two
    solvers: their states at the return are their states at the call taken
    through the six iterations, each projection reading what the solve
    before it has left. *)
Theorem solve_step_two_by_three (d : OpenmcHeatDriver) :
  max_timesteps_ d = 2 ->
  max_picard_iter_ d = 3 ->
  openmc_active_ (openmc_driver_ d) = true ->
  heat_active_ (heat_driver_ d) = true ->
  source_shaped (heat_driver_ d) ->
  Xt.well_shaped (source_ (heat_driver_ d)) ->
  rings_fit_int (heat_driver_ d) ->
  exists d',
    solve_step d = Some d' /\
    new_events d d' =
      concat
        (map (fun i =>
                [EvInitStep; EvSolveStep i; EvFinalizeStep; EvBarrier;
                 EvUpdateHeatSource; EvHeatSolve; EvBarrier;
                 EvUpdateTemperature])
           [0; 1; 2; 2; 3; 4]) /\
    count_events is_transport_solve (new_events d d') = 6%nat /\
    count_events is_heat_solve (new_events d d') = 6%nat /\
    coupled_state d' =
      fold_left (fun s i => coupled_iteration d i s) [0; 1; 2; 2; 3; 4]
        (coupled_state d).
Proof.
  intros Hmt Hmp Hao Hah Hshape Hwf Hfit.
  destruct (solve_step_spec d
              (fun it ip => int_add (int_mul it (max_timesteps_ d)) ip)
              Hshape) as (d' & Hrun & Hsteps); [reflexivity|].
  destruct (solve_step_coupled d
              (fun it ip => int_add (int_mul it (max_timesteps_ d)) ip)
              Hshape Hwf Hfit) as (d'' & Hrun' & Hstate); [reflexivity|].
  assert (d'' = d') as -> by congruence.
  exists d'. split; [exact Hrun|].
  rewrite (steps_new_events d d' _ Hsteps), Hstate, Hmt, Hmp, Hao, Hah.
  repeat split; reflexivity.
Qed.

(** C8.  In every inner iteration of [solve_step], with outer index
    [i_timestep] and inner index [i_picard], an active transport solver has
    its advance step invoked with the iteration index
    [i_timestep * max_timesteps + i_picard]: the coefficient is
    [max_timesteps], not [max_picard_iter].  The invocation reaches the
    solver: its state at the return is its state at the call taken through
    the iterations with these indices, in the order of the loops.  (The
    indices are [int]s: the statement assumes that they stay within the
    range of [int].) *)
Theorem solve_step_iteration_index (d : OpenmcHeatDriver) :
  openmc_active_ (openmc_driver_ d) = true ->
  source_shaped (heat_driver_ d) ->
  Xt.well_shaped (source_ (heat_driver_ d)) ->
  rings_fit_int (heat_driver_ d) ->
  indices_fit_int d ->
  exists d',
    solve_step d = Some d' /\
    new_events d d' =
      (seqZ 0 (max_timesteps_ d) ≫= fun i_timestep =>
       seqZ 0 (max_picard_iter_ d) ≫= fun i_picard =>
         picard_events true (heat_active_ (heat_driver_ d))
           (i_timestep * max_timesteps_ d + i_picard)) /\
    coupled_state d' =
      fold_left (fun s i => coupled_iteration d i s)
        (seqZ 0 (max_timesteps_ d) ≫= fun i_timestep =>
         seqZ 0 (max_picard_iter_ d) ≫= fun i_picard =>
           [i_timestep * max_timesteps_ d + i_picard])
        (coupled_state d).
Proof.
  intros Hao Hshape Hwf Hfit Hidx.
  assert (Hi : forall it ip,
            0 <= it < max_timesteps_ d -> 0 <= ip < max_picard_iter_ d ->
            int_add (int_mul it (max_timesteps_ d)) ip
            = it * max_timesteps_ d + ip).
  { intros it ip Hit Hip. unfold indices_fit_int, int_max in Hidx.
    assert (0 <= it * max_timesteps_ d <= max_timesteps_ d * max_timesteps_ d)
      by nia.
    rewrite int_mul_small by (unfold int_max; lia).
    apply int_add_small. unfold int_max. lia. }
  destruct (solve_step_spec d
              (fun it ip => it * max_timesteps_ d + ip) Hshape Hi)
    as (d' & Hrun & Hsteps).
  destruct (solve_step_coupled d
              (fun it ip => it * max_timesteps_ d + ip) Hshape Hwf Hfit Hi)
    as (d'' & Hrun' & Hstate).
  assert (d'' = d') as -> by congruence.
  exists d'. split; [exact Hrun|].
  rewrite (steps_new_events d d' _ Hsteps), Hao.
  split; [reflexivity | exact Hstate].
Qed.

(** ** The geometry mapping builder *)

(** Mid-height of axial layer [j] and mid-radius of radial ring [k], as
    [init_mappings] computes them. *)
Definition layer_zavg (h : SurrogateHeatDriver) (j : Z) : float :=
  (0.5 * (Xt.get (z_ h) j + Xt.get (z_ h) (j + 1)))%float.

Definition ring_ravg (h : SurrogateHeatDriver) (k : Z) : float :=
  if k <? n_fuel_rings_ h
  then (0.5 * (Xt.get (r_grid_fuel_ h) k
               + Xt.get (r_grid_fuel_ h) (k + 1)))%float
  else (0.5 * (Xt.get (r_grid_clad_ h) (k - n_fuel_rings_ h)
               + Xt.get (r_grid_clad_ h) (k - n_fuel_rings_ h + 1)))%float.

(** The specified sample angle, [2*pi*m/4 + 0.01]. *)
Definition sample_theta (m : Z) : float :=
  (2 * PI * double_of_int m / 4 + 0.01)%float.

(** The specified sample point for layer [j], ring [k], azimuthal sample
    [m]: [(ravg*cos(theta), ravg*sin(theta), zavg)].  No pin index and no
    pin centre occurs in it. *)
Definition sample_point (h : SurrogateHeatDriver) (j k m : Z) : Position :=
  {| pos_x := (ring_ravg h k * libm_cos (sample_theta m))%float;
     pos_y := (ring_ravg h k * libm_sin (sample_theta m))%float;
     pos_z := layer_zavg h j |}.

(** The same grid with some other pin centres. *)
Definition with_pin_centers (h : SurrogateHeatDriver)
    (centers : list (float * float)) : SurrogateHeatDriver :=
  {| n_pins_ := n_pins_ h;
     n_axial_ := n_axial_ h;
     n_fuel_rings_ := n_fuel_rings_ h;
     n_clad_rings_ := n_clad_rings_ h;
     r_grid_fuel_ := r_grid_fuel_ h;
     r_grid_clad_ := r_grid_clad_ h;
     z_ := z_ h;
     pin_centers_ := centers;
     source_ := source_ h;
     temperature_ := temperature_ h;
     heat_active_ := heat_active_ h |}.

Definition move_pins (d : OpenmcHeatDriver) (centers : list (float * float))
    : OpenmcHeatDriver :=
  {| power_ := power_ d;
     max_timesteps_ := max_timesteps_ d;
     max_picard_iter_ := max_picard_iter_ d;
     openmc_driver_ := openmc_driver_ d;
     heat_driver_ := with_pin_centers (heat_driver_ d) centers;
     cell_inst_to_ring_ := cell_inst_to_ring_ d;
     ring_to_cell_inst_ := ring_to_cell_inst_ d;
     trace_ := trace_ d |}.

(** The part of [azimuthal_body] that follows the computation of the
    sample point [r]. *)
Definition register_sample (r : Position) (s : MapLoop) : MapLoop :=
  let c := locate r in
  let '(cells, tracked) :=
    match ml_tracked s !! c with
    | None =>
        let cells := ml_cells s ++ [c] in
        (cells,
         <[c := int_of_size (Z.of_nat (length cells) - 1)]> (ml_tracked s))
    | Some _ => (ml_cells s, ml_tracked s)
    end in
  let array_index := default 0 (tracked !! c) in
  {| ml_cells := cells;
     ml_located := ml_located s ++ [r];
     ml_tracked := tracked;
     ml_ring_index := ml_ring_index s;
     ml_c2r := Table.push_back (ml_c2r s) array_index (ml_ring_index s);
     ml_r2c := Table.push_back (ml_r2c s) (ml_ring_index s) array_index |}.

(** On the four samples, the angle of the source,
    [2.0*m*PI/n_azimuthal + 0.01], is the specified [2*pi*m/4 + 0.01]. *)
Lemma sample_theta_code (m : Z) :
  0 <= m < n_azimuthal ->
  (2.0 * double_of_int m * PI / double_of_int n_azimuthal + 0.01)%float
  = sample_theta m.
Proof.
  unfold n_azimuthal. intros Hm.
  assert (Hcases : m = 0 \/ m = 1 \/ m = 2 \/ m = 3) by lia.
  destruct Hcases as [-> | [-> | [-> | ->]]]; vm_compute; reflexivity.
Qed.

Lemma azimuthal_body_point (h : SurrogateHeatDriver) (j k m : Z)
    (s : MapLoop) :
  0 <= m < n_azimuthal ->
  azimuthal_body (layer_zavg h j) (ring_ravg h k) m s =
  register_sample (sample_point h j k m) s.
Proof.
  intros Hm. unfold azimuthal_body, sample_point.
  now rewrite (sample_theta_code m Hm).
Qed.

Lemma ring_body_unfold (h : SurrogateHeatDriver) (j k : Z) (s : MapLoop) :
  ring_body h (layer_zavg h j) k s =
  let t := for_int n_azimuthal
             (azimuthal_body (layer_zavg h j) (ring_ravg h k)) s in
  {| ml_cells := ml_cells t;
     ml_located := ml_located t;
     ml_tracked := ml_tracked t;
     ml_ring_index := int_add (ml_ring_index t) 1;
     ml_c2r := ml_c2r t;
     ml_r2c := ml_r2c t |}.
Proof.
  unfold ring_body, ring_ravg.
  destruct (k <? n_fuel_rings_ h); reflexivity.
Qed.

Lemma for_int_preserves {S : Type} (P : S -> Prop) (n : Z)
    (body : Z -> S -> S) (s : S) :
  (forall i t, P t -> P (body i t)) -> P s -> P (for_int n body s).
Proof.
  intros Hbody. unfold for_int. generalize (seqZ 0 n) as l.
  intros l. revert s. induction l as [|x l IH]; intros s Hs; simpl; auto.
Qed.

(** A loop whose body appends [f i] to a log appends them all, in
    order. *)
Lemma for_int_log {S A : Type} (proj : S -> list A) (n : Z)
    (body : Z -> S -> S) (f : Z -> list A) (s : S) :
  0 <= n ->
  (forall i t, 0 <= i < n -> proj (body i t) = proj t ++ f i) ->
  proj (for_int n body s) = proj s ++ (seqZ 0 n ≫= f).
Proof.
  intros Hn Hbody.
  apply (for_int_ind (fun i t => proj t = proj s ++ (seqZ 0 i ≫= f)));
    [exact Hn | now rewrite app_nil_r |].
  intros i t Hi Ht.
  rewrite Hbody, Ht, seqZ_snoc, bind_app, bind_singleton, app_assoc by lia.
  reflexivity.
Qed.

(** *** The points handed to the point location *)

Lemma ring_body_located (h : SurrogateHeatDriver) (j k : Z) (s : MapLoop) :
  ml_located (ring_body h (layer_zavg h j) k s) =
  ml_located s ++ (seqZ 0 n_azimuthal ≫= fun m => [sample_point h j k m]).
Proof.
  rewrite ring_body_unfold. cbn [ml_located].
  apply (for_int_log ml_located); [unfold n_azimuthal; lia|].
  intros m t Hm. rewrite azimuthal_body_point by exact Hm.
  unfold register_sample.
  destruct (ml_tracked t !! locate _); reflexivity.
Qed.

Lemma mapping_loops_located (h : SurrogateHeatDriver) (s : MapLoop) :
  ml_located (mapping_loops h s) =
  ml_located s ++
  (seqZ 0 (length (pin_centers_ h)) ≫= fun i =>
   seqZ 0 (n_axial_ h) ≫= fun j =>
   seqZ 0 (n_rings h) ≫= fun k =>
   seqZ 0 n_azimuthal ≫= fun m => [sample_point h j k m]).
Proof.
  unfold mapping_loops.
  apply (for_int_log ml_located); [lia|]. intros i t Hi.
  apply (for_int_log ml_located); [lia|]. intros j u Hj.
  apply (for_int_log ml_located); [lia|]. intros k v Hk.
  apply ring_body_located.
Qed.

Lemma mapping_loops_pin_centers (h : SurrogateHeatDriver)
    (centers : list (float * float)) (s : MapLoop) :
  length centers = length (pin_centers_ h) ->
  mapping_loops (with_pin_centers h centers) s = mapping_loops h s.
Proof.
  intros Hlen. unfold mapping_loops. simpl. rewrite Hlen. reflexivity.
Qed.

(** C3.  The sample point that [init_mappings] queries for pin [i],
    axial layer [j], radial ring [k] and azimuthal sample [m] is exactly
    [(ravg*cos(theta), ravg*sin(theta), zavg)] with
    [theta = 2*pi*m/4 + 0.01]: the points queried, in order, are the
    [sample_point h j k m], in which neither [i] nor a pin centre occurs, so
    every pin queries the same points; and two runs that differ only in the
    coordinates of the pin centres (their count being the same) query the
    same points and build identical tables. *)
Theorem init_mappings_pin_independent (d : OpenmcHeatDriver)
    (centers : list (float * float)) :
  let h := heat_driver_ d in
  let d1 := init_mappings d in
  let d2 := init_mappings (move_pins d centers) in
  length centers = length (pin_centers_ h) ->
  located_ (openmc_driver_ d1) =
    located_ (openmc_driver_ d) ++
    (seqZ 0 (length (pin_centers_ h)) ≫= fun i =>
     seqZ 0 (n_axial_ h) ≫= fun j =>
     seqZ 0 (n_rings h) ≫= fun k =>
     seqZ 0 n_azimuthal ≫= fun m => [sample_point h j k m]) /\
  located_ (openmc_driver_ d2) = located_ (openmc_driver_ d1) /\
  cells_ (openmc_driver_ d2) = cells_ (openmc_driver_ d1) /\
  cell_inst_to_ring_ d2 = cell_inst_to_ring_ d1 /\
  ring_to_cell_inst_ d2 = ring_to_cell_inst_ d1.
Proof.
  intros h d1 d2 Hlen. split.
  - unfold d1, init_mappings. cbn [openmc_driver_ located_].
    now rewrite mapping_loops_located.
  - unfold d2, d1, init_mappings, move_pins.
    cbn [openmc_driver_ located_ cells_ cell_inst_to_ring_
         ring_to_cell_inst_ heat_driver_].
    fold h. rewrite (mapping_loops_pin_centers h centers _ Hlen).
    repeat split; reflexivity.
Qed.

(** *** Forward and reverse tables agree *)

Definition tables_consistent (c2r r2c : gmap Z (list Z)) : Prop :=
  forall r c, r ∈ Table.get c2r c <-> c ∈ Table.get r2c r.

Lemma push_pair_consistent (c2r r2c : gmap Z (list Z)) (a r : Z) :
  tables_consistent c2r r2c ->
  tables_consistent (Table.push_back c2r a r) (Table.push_back r2c r a).
Proof.
  intros Hc r' c'. rewrite !Table.get_push_back.
  specialize (Hc r' c').
  destruct (decide (a = c')) as [->|Ha], (decide (r = r')) as [->|Hr];
    rewrite ?elem_of_app, ?list_elem_of_singleton; intuition congruence.
Qed.

Lemma azimuthal_body_consistent (zavg ravg : float) (m : Z) (s : MapLoop) :
  tables_consistent (ml_c2r s) (ml_r2c s) ->
  tables_consistent (ml_c2r (azimuthal_body zavg ravg m s))
    (ml_r2c (azimuthal_body zavg ravg m s)).
Proof.
  intros Hc. unfold azimuthal_body.
  destruct (ml_tracked s !! locate _); simpl;
    now apply push_pair_consistent.
Qed.

Lemma ring_body_consistent (h : SurrogateHeatDriver) (zavg : float) (k : Z)
    (s : MapLoop) :
  tables_consistent (ml_c2r s) (ml_r2c s) ->
  tables_consistent (ml_c2r (ring_body h zavg k s))
    (ml_r2c (ring_body h zavg k s)).
Proof.
  intros Hc. unfold ring_body. cbn [ml_c2r ml_r2c].
  apply (for_int_preserves
           (fun t => tables_consistent (ml_c2r t) (ml_r2c t)));
    [|exact Hc].
  intros m t. apply azimuthal_body_consistent.
Qed.

Lemma mapping_loops_consistent (h : SurrogateHeatDriver) (s : MapLoop) :
  tables_consistent (ml_c2r s) (ml_r2c s) ->
  tables_consistent (ml_c2r (mapping_loops h s))
    (ml_r2c (mapping_loops h s)).
Proof.
  intros Hc. unfold mapping_loops.
  apply (for_int_preserves
           (fun t => tables_consistent (ml_c2r t) (ml_r2c t)));
    [|exact Hc].
  intros i t Ht.
  apply (for_int_preserves
           (fun t => tables_consistent (ml_c2r t) (ml_r2c t)));
    [|exact Ht].
  intros j u Hu.
  apply (for_int_preserves
           (fun t => tables_consistent (ml_c2r t) (ml_r2c t)));
    [|exact Hu].
  intros k v. apply ring_body_consistent.
Qed.

(** C5.  After [init_mappings] (run by the constructor, on empty
    tables), for every ring index [r] and every cell-instance index [c]:
    [r] is a member of the reverse mapping [cell_inst_to_ring_[c]] if and
    only if [c] is a member of the forward mapping
    [ring_to_cell_inst_[r]]. *)
Theorem init_mappings_consistent (power : float)
    (max_timesteps max_picard_iter : Z) (od : OpenmcDriver)
    (hd : SurrogateHeatDriver) (r c : Z) :
  let d :=
    init_mappings (fresh_driver power max_timesteps max_picard_iter od hd) in
  r ∈ Table.get (cell_inst_to_ring_ d) c <->
  c ∈ Table.get (ring_to_cell_inst_ d) r.
Proof.
  intros d. unfold d, init_mappings.
  cbn [cell_inst_to_ring_ ring_to_cell_inst_].
  apply mapping_loops_consistent. simpl.
  intros r' c'. rewrite !Table.get_empty. split; intros Hin; inversion Hin.
Qed.

(** *** What the forward table holds *)

(** Axial layer and radial position of the ring with flattened index
    [r]. *)
Definition ring_layer (h : SurrogateHeatDriver) (r : Z) : Z :=
  (r / n_rings h) mod n_axial_ h.

Definition ring_radial (h : SurrogateHeatDriver) (r : Z) : Z :=
  r mod n_rings h.

(** The number of rings [init_mappings] walks through: it takes the
    number of pins from the pin centres. *)
Definition mapped_rings (h : SurrogateHeatDriver) : Z :=
  length (pin_centers_ h) * n_axial_ h * n_rings h.

(** The ring counter and the cell-instance indices of [init_mappings]
    stay [int]s: every sample may register a new cell instance. *)
Definition mapping_fits_int (od : OpenmcDriver) (h : SurrogateHeatDriver)
    : Prop :=
  length (cells_ od) + n_azimuthal * mapped_rings h <= int_max.

(** Entry [a] of a forward mapping is right for sample [m] of ring [r]:
    it is the index, registered during this build, of the cell instance
    located at the sample point. *)
Definition entry_ok (h : SurrogateHeatDriver) (len0 : nat)
    (cells : list CellInstance) (r m a : Z) : Prop :=
  len0 <= a /\
  cells !! Z.to_nat a =
    Some (locate (sample_point h (ring_layer h r) (ring_radial h r) m)).

(** The forward mapping [l] of ring [r] lists its first [n] samples. *)
Definition ring_ok (h : SurrogateHeatDriver) (len0 : nat)
    (cells : list CellInstance) (r n : Z) (l : list Z) : Prop :=
  Forall2 (entry_ok h len0 cells r) (seqZ 0 n) l.

(** Invariant of [init_mappings] when [n] rings are complete and [m]
    samples of ring [n] are done; [len0] cell instances were registered
    before the build. *)
Record map_inv (h : SurrogateHeatDriver) (len0 : nat) (n m : Z)
    (s : MapLoop) : Prop := {
  inv_index : ml_ring_index s = n;
  inv_tracked : forall c a,
    ml_tracked s !! c = Some a ->
    len0 <= a /\ ml_cells s !! Z.to_nat a = Some c;
  inv_length :
    len0 <= length (ml_cells s) <= len0 + n_azimuthal * n + m;
  inv_done : forall r,
    0 <= r < n -> ring_ok h len0 (ml_cells s) r n_azimuthal
                    (Table.get (ml_r2c s) r);
  inv_current :
    ring_ok h len0 (ml_cells s) n m (Table.get (ml_r2c s) n);
  inv_rest : forall r, r < 0 \/ n < r -> Table.get (ml_r2c s) r = [];
  inv_cover : forall a,
    len0 <= a < length (ml_cells s) ->
    exists r, 0 <= r <= n /\ a ∈ Table.get (ml_r2c s) r
}.

Lemma ring_ok_grow (h : SurrogateHeatDriver) (len0 : nat)
    (cells : list CellInstance) (c : CellInstance) (r n : Z) (l : list Z) :
  ring_ok h len0 cells r n l -> ring_ok h len0 (cells ++ [c]) r n l.
Proof.
  unfold ring_ok. intros Hl. eapply Forall2_impl; [exact Hl|].
  intros m a (Hle & Hcell).
  split; [exact Hle|]. now apply lookup_app_l_Some.
Qed.

Lemma ring_ok_snoc (h : SurrogateHeatDriver) (len0 : nat)
    (cells : list CellInstance) (r m a : Z) (l : list Z) :
  0 <= m ->
  ring_ok h len0 cells r m l ->
  entry_ok h len0 cells r m a ->
  ring_ok h len0 cells r (m + 1) (l ++ [a]).
Proof.
  intros Hm Hl Ha. unfold ring_ok. rewrite seqZ_snoc by exact Hm.
  apply Forall2_app; [exact Hl|]. now constructor.
Qed.

Lemma ring_ok_length (h : SurrogateHeatDriver) (len0 : nat)
    (cells : list CellInstance) (r n : Z) (l : list Z) :
  ring_ok h len0 cells r n l -> length l = Z.to_nat n.
Proof.
  intros Hl. apply Forall2_length in Hl.
  rewrite <- Hl, length_seqZ. reflexivity.
Qed.

Lemma ring_ok_entry (h : SurrogateHeatDriver) (len0 : nat)
    (cells : list CellInstance) (r n : Z) (l : list Z) (m : nat) (a : Z) :
  ring_ok h len0 cells r n l -> l !! m = Some a ->
  entry_ok h len0 cells r m a.
Proof.
  intros Hl Ha.
  destruct (Forall2_lookup_r _ _ _ _ _ Hl Ha) as (x & Hx & Hok).
  apply lookup_seqZ in Hx as [-> _].
  now rewrite Z.add_0_l in Hok.
Qed.

(** One sample keeps the invariant. *)
Lemma register_sample_inv (h : SurrogateHeatDriver) (len0 : nat)
    (n m : Z) (s : MapLoop) :
  0 <= n -> 0 <= m ->
  len0 + n_azimuthal * n + m < int_max ->
  map_inv h len0 n m s ->
  map_inv h len0 n (m + 1)
    (register_sample
       (sample_point h (ring_layer h n) (ring_radial h n) m) s).
Proof.
  intros Hn Hm Hfit [Hidx Htr Hlen Hdone Hcur Hrest Hcov].
  unfold register_sample.
  set (c := locate _) in *.
  destruct (ml_tracked s !! c) as [a0|] eqn:Hc.
  - (* the cell instance is already tracked *)
    cbn [fst snd]. rewrite Hc. cbn [default from_option id].
    destruct (Htr c a0 Hc) as (Ha0 & Hcell).
    constructor; cbn [ml_ring_index ml_tracked ml_cells ml_r2c].
    + exact Hidx.
    + exact Htr.
    + lia.
    + intros r Hr. rewrite Table.get_push_back, Hidx.
      destruct (decide (n = r)); [lia | now apply Hdone].
    + rewrite Table.get_push_back, Hidx.
      destruct (decide (n = n)); [|done].
      apply ring_ok_snoc; [exact Hm | exact Hcur |].
      split; [exact Ha0 | exact Hcell].
    + intros r Hr. rewrite Table.get_push_back, Hidx.
      destruct (decide (n = r)); [lia | now apply Hrest].
    + intros a Ha. destruct (Hcov a Ha) as (r & Hr & Hin).
      exists r. split; [exact Hr|].
      rewrite Table.get_push_back, Hidx.
      destruct (decide (n = r)); [subst r; apply elem_of_app; now left
                                 | exact Hin].
  - (* a new cell instance is registered *)
    cbn [fst snd]. rewrite lookup_insert_eq. cbn [default from_option id].
    rewrite length_app. cbn [length].
    assert (Hnew : int_of_size
                     (Z.of_nat (length (ml_cells s) + 1) - 1)
                   = length (ml_cells s)).
    { unfold int_of_size. rewrite wrap32_small; unfold int_max in *; lia. }
    rewrite Hnew.
    assert (Hlast : (ml_cells s ++ [c]) !! Z.to_nat (length (ml_cells s))
                    = Some c).
    { rewrite Nat2Z.id. apply list_lookup_middle. reflexivity. }
    constructor; cbn [ml_ring_index ml_tracked ml_cells ml_r2c].
    + exact Hidx.
    + intros c' a'. rewrite lookup_insert.
      destruct (decide (c = c')) as [<-|Hne].
      * intros [= <-]. split; [lia | exact Hlast].
      * intros Hc'. destruct (Htr c' a' Hc') as (Hle & Hcell).
        split; [exact Hle | now apply lookup_app_l_Some].
    + rewrite length_app. cbn [length]. lia.
    + intros r Hr. rewrite Table.get_push_back, Hidx.
      destruct (decide (n = r)); [lia|].
      apply ring_ok_grow. now apply Hdone.
    + rewrite Table.get_push_back, Hidx.
      destruct (decide (n = n)); [|done].
      apply ring_ok_snoc; [exact Hm | now apply ring_ok_grow |].
      split; [lia | exact Hlast].
    + intros r Hr. rewrite Table.get_push_back, Hidx.
      destruct (decide (n = r)); [lia | now apply Hrest].
    + intros a. rewrite length_app. cbn [length]. intros Ha.
      destruct (decide (a = length (ml_cells s))) as [->|Hne].
      * exists n. split; [lia|].
        rewrite Table.get_push_back, Hidx.
        destruct (decide (n = n)); [|done].
        apply elem_of_app. right. now apply list_elem_of_singleton.
      * destruct (Hcov a) as (r & Hr & Hin); [lia|].
        exists r. split; [exact Hr|].
        rewrite Table.get_push_back, Hidx.
        destruct (decide (n = r)); [subst r; apply elem_of_app; now left
                                   | exact Hin].
Qed.

Lemma flat_index_bound (ni nj nk i j k : Z) :
  0 <= i < ni -> 0 <= j < nj -> 0 <= k < nk ->
  0 <= (i * nj + j) * nk + k < ni * nj * nk.
Proof.
  intros Hi Hj Hk.
  assert (H1 : 0 <= i * nj + j <= ni * nj - 1) by nia.
  assert (H2 : (i * nj + j) * nk <= (ni * nj - 1) * nk)
    by (apply Z.mul_le_mono_nonneg_r; lia).
  nia.
Qed.

(** One ring keeps the invariant. *)
Lemma ring_body_inv (h : SurrogateHeatDriver) (len0 : nat) (i j k : Z)
    (s : MapLoop) :
  0 <= i -> 0 <= j < n_axial_ h -> 0 <= k < n_rings h ->
  len0 + n_azimuthal * (ring_of h i j k + 1) <= int_max ->
  map_inv h len0 (ring_of h i j k) 0 s ->
  map_inv h len0 (ring_of h i j k + 1) 0
    (ring_body h (layer_zavg h j) k s).
Proof.
  intros Hi Hj Hk Hfit Hs.
  assert (Hn : 0 <= ring_of h i j k) by (unfold ring_of; nia).
  rewrite ring_body_unfold.
  set (t := for_int n_azimuthal _ s).
  assert (Ht : map_inv h len0 (ring_of h i j k) n_azimuthal t).
  { subst t.
    apply (for_int_ind (map_inv h len0 (ring_of h i j k)));
      [unfold n_azimuthal; lia | exact Hs |].
    intros m u Hm Hu. rewrite azimuthal_body_point by exact Hm.
    replace (sample_point h j k m)
      with (sample_point h (ring_layer h (ring_of h i j k))
              (ring_radial h (ring_of h i j k)) m)
      by (unfold ring_layer, ring_radial;
          now rewrite (ring_of_div h i j k Hj Hk), (ring_of_mod h i j k Hk)).
    apply register_sample_inv; [exact Hn | lia | | exact Hu].
    unfold n_azimuthal in *. lia. }
  clearbody t. destruct Ht as [Hidx Htr Hlen Hdone Hcur Hrest Hcov].
  cbv zeta.
  constructor; cbn [ml_ring_index ml_tracked ml_cells ml_r2c].
  - rewrite Hidx. apply int_add_small.
    unfold n_azimuthal, int_max in *. lia.
  - exact Htr.
  - unfold n_azimuthal in *. lia.
  - intros r Hr. destruct (decide (r = ring_of h i j k)) as [->|Hne];
      [exact Hcur | apply Hdone; lia].
  - rewrite Hrest by lia. constructor.
  - intros r Hr. apply Hrest. lia.
  - intros a Ha. destruct (Hcov a Ha) as (r & Hr & Hin).
    exists r. split; [lia | exact Hin].
Qed.

Lemma mapping_loops_inv (h : SurrogateHeatDriver) (len0 : nat)
    (s : MapLoop) :
  len0 + n_azimuthal * mapped_rings h <= int_max ->
  map_inv h len0 0 0 s ->
  map_inv h len0 (mapped_rings h) 0 (mapping_loops h s).
Proof.
  intros Hfit Hs. unfold mapping_loops, mapped_rings.
  apply (for_int3_ind (fun n t => map_inv h len0 n 0 t)); try lia.
  - exact Hs.
  - intros i j k t Hi Hj Hk Ht.
    pose proof (flat_index_bound _ _ _ i j k Hi Hj Hk) as Hb.
    apply (ring_body_inv h len0 i j k t); try lia; [|exact Ht].
    unfold ring_of, mapped_rings, n_azimuthal in *. lia.
Qed.

Lemma init_mappings_inv (power : float) (max_timesteps max_picard_iter : Z)
    (od : OpenmcDriver) (hd : SurrogateHeatDriver) :
  let d :=
    init_mappings (fresh_driver power max_timesteps max_picard_iter od hd) in
  mapping_fits_int od hd ->
  exists s : MapLoop,
    ml_cells s = cells_ (openmc_driver_ d) /\
    ml_r2c s = ring_to_cell_inst_ d /\
    map_inv hd (length (cells_ od)) (mapped_rings hd) 0 s.
Proof.
  intros d Hfit. eexists. split; [|split]; [| |apply mapping_loops_inv].
  - reflexivity.
  - reflexivity.
  - exact Hfit.
  - constructor; simpl.
    + reflexivity.
    + intros c a Hc. now rewrite lookup_empty in Hc.
    + unfold n_azimuthal. lia.
    + intros r Hr. lia.
    + rewrite Table.get_empty. constructor.
    + intros r _. apply Table.get_empty.
    + intros a Ha. lia.
Qed.

(** C4 (as the code has it).  After [init_mappings] (run by the
    constructor, on empty tables), the forward mapping of every ring has
    exactly 4 entries, one per azimuthal sample and in sample order: entry
    [m] is the index in [cells_] of the cell instance located at sample
    point [m] of the ring.  An index occurs once for every sample that hits
    its cell instance. *)
Theorem init_mappings_forward_entries (power : float)
    (max_timesteps max_picard_iter : Z) (od : OpenmcDriver)
    (hd : SurrogateHeatDriver) (i j k : Z) :
  let d :=
    init_mappings (fresh_driver power max_timesteps max_picard_iter od hd) in
  let l := Table.get (ring_to_cell_inst_ d) (ring_of hd i j k) in
  mapping_fits_int od hd ->
  0 <= i < length (pin_centers_ hd) ->
  0 <= j < n_axial_ hd ->
  0 <= k < n_rings hd ->
  length l = 4%nat /\
  forall (m : nat) (a : Z),
    l !! m = Some a ->
    cells_ (openmc_driver_ d) !! Z.to_nat a =
    Some (locate (sample_point hd j k m)).
Proof.
  intros d l Hfit Hi Hj Hk.
  destruct (init_mappings_inv power max_timesteps max_picard_iter od hd Hfit)
    as (s & Hcells & Hr2c & Hinv).
  fold d in Hcells, Hr2c.
  pose proof (flat_index_bound _ _ _ i j k Hi Hj Hk) as Hb.
  assert (Hok : ring_ok hd (length (cells_ od)) (ml_cells s)
                  (ring_of hd i j k) n_azimuthal l).
  { subst l. rewrite <- Hr2c. apply (inv_done _ _ _ _ _ Hinv).
    unfold ring_of, mapped_rings. lia. }
  split.
  - now rewrite (ring_ok_length _ _ _ _ _ _ Hok).
  - intros m a Ha.
    destruct (ring_ok_entry _ _ _ _ _ _ m a Hok Ha) as (_ & Hcell).
    unfold ring_layer, ring_radial in Hcell.
    rewrite (ring_of_div hd i j k Hj Hk), (ring_of_mod hd i j k Hk) in Hcell.
    now rewrite <- Hcells.
Qed.

(** C6.  After [init_mappings] (run by the constructor, on empty
    tables), every ring index in [[0, n_pins * n_axial * n_rings)] has a
    non-empty forward mapping, and the forward mappings jointly cover
    exactly the cell instances registered during the build: an index is that
    of a cell instance appended to [cells_] by the build if and only if it
    occurs in the forward mapping of some ring.  ([n_pins] is the number of
    pin centres, from which [init_mappings] takes it.) *)
Theorem init_mappings_coverage (power : float)
    (max_timesteps max_picard_iter : Z) (od : OpenmcDriver)
    (hd : SurrogateHeatDriver) :
  let d :=
    init_mappings (fresh_driver power max_timesteps max_picard_iter od hd) in
  mapping_fits_int od hd ->
  (forall r, 0 <= r < length (pin_centers_ hd) * n_axial_ hd * n_rings hd ->
     exists l, ring_to_cell_inst_ d !! r = Some l /\ l <> []) /\
  (forall a : Z,
     length (cells_ od) <= a < length (cells_ (openmc_driver_ d)) <->
     exists r,
       0 <= r < length (pin_centers_ hd) * n_axial_ hd * n_rings hd /\
       a ∈ Table.get (ring_to_cell_inst_ d) r).
Proof.
  intros d Hfit.
  destruct (init_mappings_inv power max_timesteps max_picard_iter od hd Hfit)
    as (s & Hcells & Hr2c & Hinv).
  fold d in Hcells, Hr2c. rewrite <- Hcells, <- Hr2c.
  fold (mapped_rings hd).
  split.
  - intros r Hr.
    pose proof (ring_ok_length _ _ _ _ _ _ (inv_done _ _ _ _ _ Hinv r Hr))
      as Hlen.
    unfold Table.get in Hlen.
    destruct (ml_r2c s !! r) as [l|]; [|discriminate].
    exists l. split; [reflexivity|]. intros ->. discriminate.
  - intros a. split.
    + intros Ha.
      destruct (inv_cover _ _ _ _ _ Hinv a Ha) as (r & Hr & Hin).
      exists r. split; [|exact Hin].
      destruct (decide (r = mapped_rings hd)) as [->|Hne]; [|lia].
      pose proof (ring_ok_length _ _ _ _ _ _ (inv_current _ _ _ _ _ Hinv))
        as Hlen.
      destruct (Table.get (ml_r2c s) (mapped_rings hd)); [|discriminate].
      inversion Hin.
    + intros (r & Hr & Hin).
      apply list_elem_of_lookup in Hin as (m & Hm).
      destruct (ring_ok_entry _ _ _ _ _ _ m a
                  (inv_done _ _ _ _ _ Hinv r Hr) Hm) as (Hle & Hcell).
      apply lookup_lt_Some in Hcell. lia.
Qed.

(** ** More on the heat-source projection *)

(** The index check of [at] lets [i] pass on an axis of [size] elements:
    the index is below the size, or the size is 1. *)
Definition axis_accepts (size : nat) (i : Z) : Prop :=
  size = 1%nat \/ 0 <= i < size.

(** The index check of [t.at(i, j, k)] passes. *)
Definition at_accepts (t : Xt.tensor3) (i j k : Z) : Prop :=
  axis_accepts (Xt.shape t).1.1 i /\ axis_accepts (Xt.shape t).1.2 j /\
  axis_accepts (Xt.shape t).2 k.

Lemma axis_index_is_Some (size : nat) (i : Z) :
  is_Some (Xt.axis_index size i) <-> axis_accepts size i.
Proof.
  unfold Xt.axis_index, axis_accepts.
  destruct (Z.eqb_spec size 1) as [Hone|Hone].
  - split; [intros _; left; lia | eauto].
  - destruct (0 <=? i) eqn:E1, (i <? size) eqn:E2; simpl;
      rewrite ?Z.leb_le, ?Z.ltb_lt, ?Z.leb_gt, ?Z.ltb_ge in *;
      split; intros Hx;
      first [ right; lia
            | eexists; reflexivity
            | destruct Hx as [? Hx]; discriminate Hx
            | exfalso; destruct Hx; lia ].
Qed.

Lemma at_offset_is_Some (t : Xt.tensor3) (i j k : Z) :
  is_Some (Xt.at_offset t i j k) <-> at_accepts t i j k.
Proof.
  unfold Xt.at_offset, at_accepts.
  destruct (Xt.shape t) as [[d0 d1] d2]. simpl.
  rewrite <- !axis_index_is_Some.
  destruct (Xt.axis_index d0 i), (Xt.axis_index d1 j),
    (Xt.axis_index d2 k); split; intros Hx;
    try (repeat split; eexists; reflexivity); exfalso;
    try (destruct Hx as [x Hx]; discriminate Hx);
    destruct Hx as (Ha & Hb & Hc);
    first [ destruct Ha as [x Ha]; discriminate Ha
          | destruct Hb as [x Hb]; discriminate Hb
          | destruct Hc as [x Hc]; discriminate Hc ].
Qed.

Lemma at_offset_same_shape (t t' : Xt.tensor3) (i j k : Z) :
  Xt.shape t = Xt.shape t' -> Xt.at_offset t i j k = Xt.at_offset t' i j k.
Proof. intros Hs. unfold Xt.at_offset. now rewrite Hs. Qed.

Lemma try_each_inv {S A : Type} (P : S -> Prop)
    (body : A -> S -> option S) (l : list A) (s s' : S) :
  (forall x t t', P t -> body x t = Some t' -> P t') ->
  P s -> try_each body l s = Some s' -> P s'.
Proof.
  intros Hbody. revert s. induction l as [|x l IH]; intros s Hs; simpl.
  - intros [= <-]. exact Hs.
  - destruct (body x s) as [t|] eqn:Hx; [|discriminate].
    apply IH. exact (Hbody x s t Hs Hx).
Qed.

Lemma try_for_int_inv {S : Type} (P : S -> Prop) (n : Z)
    (body : Z -> S -> option S) (s s' : S) :
  (forall i t t', P t -> body i t = Some t' -> P t') ->
  P s -> try_for_int n body s = Some s' -> P s'.
Proof. intros Hbody. apply try_each_inv. exact Hbody. Qed.

(** A loop throws when some iteration throws in every state that the loop
    can be in. *)
Lemma try_for_int_throws {S : Type} (P : S -> Prop) (n i0 : Z)
    (body : Z -> S -> option S) (s : S) :
  0 <= i0 < n ->
  (forall i t t', P t -> body i t = Some t' -> P t') ->
  (forall t, P t -> body i0 t = None) ->
  P s -> try_for_int n body s = None.
Proof.
  intros Hi0 Hbody Hthrow Hs. unfold try_for_int.
  replace n with (i0 + (n - i0)) by lia.
  rewrite seqZ_app, (seqZ_cons (0 + i0)) by lia.
  rewrite try_each_app.
  destruct (try_each body (seqZ 0 i0) s) as [t|] eqn:Ht; [|reflexivity].
  simpl. rewrite Hthrow; [reflexivity|].
  exact (try_each_inv P body _ s t Hbody Hs Ht).
Qed.

Lemma heat_source_body_keeps_shape (h : SurrogateHeatDriver) (Q : list float)
    (sh : nat * nat * nat) (i j k : Z) (t t' : SourceLoop) :
  Xt.shape (sl_source t) = sh ->
  heat_source_body h Q i j k t = Some t' ->
  Xt.shape (sl_source t') = sh.
Proof.
  intros Hs. unfold heat_source_body, Xt.at_put.
  destruct (k <? n_fuel_rings_ h).
  - destruct (Xt.at_offset (sl_source t) i j k); [|discriminate].
    intros [= <-]. exact Hs.
  - intros [= <-]. exact Hs.
Qed.

(** The loops throw when the index check of [at] fails for some fuel ring
    of the grid. *)
Lemma heat_source_loops_throw (h : SurrogateHeatDriver) (Q : list float)
    (s : SourceLoop) (i j k : Z) :
  in_grid h i j k -> k < n_fuel_rings_ h ->
  Xt.at_offset (sl_source s) i j k = None ->
  heat_source_loops h Q s = None.
Proof.
  intros (Hi & Hj & Hk) Hfuel Ho.
  set (P := fun t : SourceLoop =>
              Xt.shape (sl_source t) = Xt.shape (sl_source s)).
  assert (Hkeep : forall i j k t t',
            P t -> heat_source_body h Q i j k t = Some t' -> P t').
  { intros i' j' k' t t'. apply heat_source_body_keeps_shape. }
  unfold heat_source_loops.
  apply (try_for_int_throws P _ i); [lia | | | reflexivity].
  - intros i' t t' Ht. apply try_for_int_inv; [|exact Ht].
    intros j' u u' Hu. apply try_for_int_inv; [|exact Hu].
    intros k' v v'. apply Hkeep.
  - intros t Ht.
    apply (try_for_int_throws P _ j); [lia | | | exact Ht].
    + intros j' u u' Hu. apply try_for_int_inv; [|exact Hu].
      intros k' v v'. apply Hkeep.
    + intros u Hu.
      apply (try_for_int_throws P _ k); [lia | | | exact Hu].
      * intros k' v v'. apply Hkeep.
      * intros v Hv. unfold heat_source_body, Xt.at_put.
        replace (k <? n_fuel_rings_ h) with true
          by (symmetry; apply Z.ltb_lt; lia).
        now rewrite (at_offset_same_shape _ (sl_source s) i j k Hv), Ho.
Qed.

Lemma update_heat_source_throws (d : OpenmcHeatDriver) (i j k : Z) :
  let h := heat_driver_ d in
  in_grid h i j k -> k < n_fuel_rings_ h ->
  ~ at_accepts (source_ h) i j k ->
  update_heat_source d = None.
Proof.
  intros h Hin Hfuel Hout. unfold update_heat_source. fold h.
  rewrite (heat_source_loops_throw h _ _ i j k Hin Hfuel); [reflexivity|].
  cbn [sl_source].
  rewrite (at_offset_same_shape _ (source_ h) i j k) by reflexivity.
  destruct (Xt.at_offset (source_ h) i j k) as [o|] eqn:Ho; [|reflexivity].
  exfalso. apply Hout. apply at_offset_is_Some. eauto.
Qed.

(** When [update_heat_source] returns. *)
Lemma update_heat_source_returns_when (d : OpenmcHeatDriver) :
  let h := heat_driver_ d in
  is_Some (update_heat_source d) <->
  (forall i j k, in_grid h i j k -> k < n_fuel_rings_ h ->
     at_accepts (source_ h) i j k).
Proof.
  intros h. split.
  - intros Hsome i j k Hin Hfuel.
    apply at_offset_is_Some.
    destruct (Xt.at_offset (source_ h) i j k) as [o|] eqn:Ho; [eauto|].
    exfalso.
    rewrite (update_heat_source_throws d i j k Hin Hfuel) in Hsome.
    + destruct Hsome as [x Hx]. discriminate.
    + intros Hshape. apply at_offset_is_Some in Hshape.
      destruct Hshape as [x Hx]. unfold h in Ho. congruence.
  - intros Hin. unfold update_heat_source. fold h.
    set (Q := transport_heat_source _ _).
    set (s0 := {| sl_ring_index := 0; sl_r2c := ring_to_cell_inst_ d;
                  sl_source := Xt.fill 0%float (source_ h) |}).
    set (P := fun t : SourceLoop =>
                Xt.shape (sl_source t) = Xt.shape (source_ h)).
    destruct (try_for_int3_ind (fun _ t => P t)
                (n_pins_ h) (n_axial_ h) (n_rings h)
                (heat_source_body h Q) s0) as (s' & Hrun & _); try lia.
    + reflexivity.
    + intros i j k t Hi Hj Hk Ht.
      assert (Hbody : is_Some (heat_source_body h Q i j k t)).
      { unfold heat_source_body, Xt.at_put.
        destruct (k <? n_fuel_rings_ h) eqn:Hfuel; [|eauto].
        rewrite (at_offset_same_shape _ (source_ h) i j k Ht).
        destruct (proj2 (at_offset_is_Some (source_ h) i j k)) as [o ->];
          [|eauto].
        apply Hin; [unfold in_grid; lia | now apply Z.ltb_lt]. }
      destruct Hbody as [t' Ht']. exists t'. split; [exact Ht'|].
      exact (heat_source_body_keeps_shape h Q _ i j k t t' Ht Ht').
    + change (heat_source_loops h Q s0 = Some s') in Hrun.
      rewrite Hrun. eauto.
Qed.

(** X1.  [update_heat_source] returns if and only if the index check of
    the write [at(i, j, k)] passes for every fuel ring [(i, j, k)] of the
    grid: on each axis of the heat-source field the index is below the size
    of the axis, or the axis has size 1.  Otherwise [at] throws, and so does
    [update_heat_source].  Cladding rings are never written and need no
    slot. *)
Theorem update_heat_source_returns_iff (d : OpenmcHeatDriver) :
  let h := heat_driver_ d in
  is_Some (update_heat_source d) <->
  (forall i j k, in_grid h i j k -> k < n_fuel_rings_ h ->
     at_accepts (source_ h) i j k).
Proof. apply update_heat_source_returns_when. Qed.

(** Whether [update_heat_source] throws depends on the heat-conduction
    driver only, not on the transport solver or the tables. *)
Lemma update_heat_source_throws_alike (d1 d2 : OpenmcHeatDriver) :
  heat_driver_ d1 = heat_driver_ d2 ->
  update_heat_source d1 = None -> update_heat_source d2 = None.
Proof.
  intros Hh Hnone.
  destruct (update_heat_source d2) as [d'|] eqn:Hrun; [|reflexivity].
  exfalso.
  assert (Hsome : is_Some (update_heat_source d1)).
  { apply update_heat_source_returns_when. rewrite Hh.
    apply update_heat_source_returns_when. rewrite Hrun. eauto. }
  rewrite Hnone in Hsome. destruct Hsome as [x Hx]. discriminate Hx.
Qed.

(** X2.  A fuel ring whose forward mapping is empty (its key is missing
    from [ring_to_cell_inst_], or holds an empty vector) gets the heat source
    [0.0 / 0], a NaN: the mean is not guarded against an empty mapping. *)
Theorem update_heat_source_unmapped_ring (d : OpenmcHeatDriver) (i j k : Z) :
  let h := heat_driver_ d in
  source_shaped h -> Xt.well_shaped (source_ h) -> rings_fit_int h ->
  in_grid h i j k -> k < n_fuel_rings_ h ->
  Table.get (ring_to_cell_inst_ d) (ring_of h i j k) = [] ->
  exists d', update_heat_source d = Some d' /\
    Xt.at_ (source_ (heat_driver_ d')) i j k = Some nan.
Proof.
  intros h Hshape Hwf Hfit Hin Hfuel Hempty.
  destruct (update_heat_source_spec d Hshape Hwf Hfit)
    as (src & r2c & Hrun & Hs & Hl & Hget & Hdata).
  fold h in Hrun, Hs, Hl, Hdata.
  eexists. split; [exact Hrun|]. simpl.
  pose proof (ring_of_bound h i j k Hin) as Hb.
  destruct Hin as (Hi & Hj & Hk). unfold Xt.at_.
  rewrite (offset_in_shape src _ _ _ i j k Hs Hi Hj Hk).
  change ((i * n_axial_ h + j) * n_rings h + k) with (ring_of h i j k).
  rewrite Hdata by lia. rewrite Z2Nat.id by lia.
  unfold ring_heat_source. rewrite ring_of_mod by exact Hk.
  replace (k <? n_fuel_rings_ h) with true by (symmetry; apply Z.ltb_lt; lia).
  rewrite Hempty. reflexivity.
Qed.

(** The flattened index [r] is that of a fuel ring of the grid. *)
Definition is_fuel_ring (h : SurrogateHeatDriver) (n r : Z) : bool :=
  (0 <=? r) && (r <? n) && (r mod n_rings h <? n_fuel_rings_ h).

Lemma is_fuel_ring_step (h : SurrogateHeatDriver) (n r : Z) :
  0 <= n ->
  is_fuel_ring h (n + 1) r =
  if decide (r = n) then n mod n_rings h <? n_fuel_rings_ h
  else is_fuel_ring h n r.
Proof.
  intros Hn. unfold is_fuel_ring. destruct (decide (r = n)) as [->|Hne].
  - replace (0 <=? n) with true by (symmetry; apply Z.leb_le; lia).
    replace (n <? n + 1) with true by (symmetry; apply Z.ltb_lt; lia).
    reflexivity.
  - replace (r <? n + 1) with (r <? n); [reflexivity|].
    destruct (Z.ltb_spec r n); symmetry;
      [apply Z.ltb_lt | apply Z.ltb_ge]; lia.
Qed.

(** Invariant of the loops of [update_heat_source] on the forward table:
    after [n] rings, the fuel rings among them have a key, every other key is
    as it was. *)
Definition table_inv (h : SurrogateHeatDriver) (r2c : gmap Z (list Z))
    (n : Z) (s : SourceLoop) : Prop :=
  sl_ring_index s = n /\
  Xt.shape (sl_source s) = (n_pins_ h, n_axial_ h, n_rings h) /\
  (forall r, sl_r2c s !! r =
             if is_fuel_ring h n r then Some (Table.get r2c r)
             else r2c !! r).

Lemma heat_source_body_table (h : SurrogateHeatDriver) (Q : list float)
    (r2c : gmap Z (list Z)) (i j k : Z) (s : SourceLoop) :
  rings_fit_int h ->
  in_grid h i j k ->
  table_inv h r2c (ring_of h i j k) s ->
  exists s', heat_source_body h Q i j k s = Some s' /\
             table_inv h r2c (ring_of h i j k + 1) s'.
Proof.
  intros Hfit Hin (Hidx & Hshape & Htab).
  pose proof (ring_of_bound h i j k Hin) as Hb.
  destruct Hin as (Hi & Hj & Hk).
  assert (Hnext : int_add (sl_ring_index s) 1 = ring_of h i j k + 1).
  { rewrite Hidx. apply int_add_small. unfold rings_fit_int in Hfit. lia. }
  assert (Hhere : sl_r2c s !! ring_of h i j k = r2c !! ring_of h i j k).
  { rewrite Htab. unfold is_fuel_ring.
    replace (ring_of h i j k <? ring_of h i j k) with false
      by (symmetry; apply Z.ltb_ge; lia).
    now rewrite andb_false_r. }
  unfold heat_source_body.
  destruct (k <? n_fuel_rings_ h) eqn:Hfuel.
  - rewrite (Xt_at_put_in_shape _ _ _ _ _ _ _ _ Hshape Hi Hj Hk).
    eexists. split; [reflexivity|].
    unfold table_inv; simpl.
    split; [exact Hnext|]. split; [exact Hshape|].
    intros r. rewrite is_fuel_ring_step by lia.
    unfold Table.touch. rewrite lookup_insert, Hidx.
    destruct (decide (ring_of h i j k = r)) as [<-|Hne].
    + rewrite decide_True by reflexivity.
      rewrite ring_of_mod by lia. rewrite Hfuel.
      unfold Table.get. now rewrite Hhere.
    + rewrite decide_False by congruence. apply Htab.
  - eexists. split; [reflexivity|].
    unfold table_inv; simpl.
    split; [exact Hnext|]. split; [exact Hshape|].
    intros r. rewrite is_fuel_ring_step by lia.
    destruct (decide (r = ring_of h i j k)) as [->|Hne].
    + rewrite ring_of_mod by lia. rewrite Hfuel. exact Hhere.
    + apply Htab.
Qed.

(** [update_heat_source] on the forward table: the fuel rings of the grid
    get a key, every other key is as it was; nothing but the field and the
    table changes. *)
Lemma update_heat_source_effect (d : OpenmcHeatDriver) :
  let h := heat_driver_ d in
  source_shaped h -> rings_fit_int h ->
  exists (src : Xt.tensor3) (r2c : gmap Z (list Z)),
    update_heat_source d =
      Some {| power_ := power_ d;
              max_timesteps_ := max_timesteps_ d;
              max_picard_iter_ := max_picard_iter_ d;
              openmc_driver_ := openmc_driver_ d;
              heat_driver_ := with_source h src;
              cell_inst_to_ring_ := cell_inst_to_ring_ d;
              ring_to_cell_inst_ := r2c;
              trace_ := trace_ d |} /\
    Xt.shape src = (n_pins_ h, n_axial_ h, n_rings h) /\
    forall r,
      r2c !! r =
      if is_fuel_ring h (total_rings h) r
      then Some (Table.get (ring_to_cell_inst_ d) r)
      else ring_to_cell_inst_ d !! r.
Proof.
  intros h Hshape Hfit. unfold update_heat_source. fold h.
  set (Q := transport_heat_source _ _).
  destruct (try_for_int3_ind (table_inv h (ring_to_cell_inst_ d))
              (n_pins_ h) (n_axial_ h) (n_rings h)
              (heat_source_body h Q)
              {| sl_ring_index := 0;
                 sl_r2c := ring_to_cell_inst_ d;
                 sl_source := Xt.fill 0%float (source_ h) |})
    as (s' & Hrun & Hinv); try lia.
  - unfold table_inv; simpl. split; [reflexivity|]. split; [exact Hshape|].
    intros r. unfold is_fuel_ring.
    destruct (0 <=? r) eqn:E1, (r <? 0) eqn:E2; simpl; try reflexivity.
    apply Z.leb_le in E1. apply Z.ltb_lt in E2. lia.
  - intros i j k t Hi Hj Hk Ht.
    apply (heat_source_body_table h Q _ i j k t Hfit); [|exact Ht].
    unfold in_grid. lia.
  - change (heat_source_loops h Q
              {| sl_ring_index := 0;
                 sl_r2c := ring_to_cell_inst_ d;
                 sl_source := Xt.fill 0%float (source_ h) |} = Some s')
      in Hrun.
    rewrite Hrun. exists (sl_source s'), (sl_r2c s').
    split; [reflexivity|].
    destruct Hinv as (_ & Hs & Htab). split; [exact Hs|].
    intros r. rewrite Htab.
    unfold total_rings. now rewrite !Nat2Z.inj_mul.
Qed.

(** X3.  [update_heat_source] reads the forward table with [operator[]],
    which writes: it creates an empty entry for every fuel ring of the grid
    that has no key.  It changes no existing entry, and creates no key for a
    cladding ring or for an index outside the grid. *)
Theorem update_heat_source_table (d : OpenmcHeatDriver) :
  let h := heat_driver_ d in
  source_shaped h -> rings_fit_int h ->
  exists d', update_heat_source d = Some d' /\
    forall r,
      ring_to_cell_inst_ d' !! r =
      if is_fuel_ring h (total_rings h) r
      then Some (Table.get (ring_to_cell_inst_ d) r)
      else ring_to_cell_inst_ d !! r.
Proof.
  intros h Hshape Hfit.
  destruct (update_heat_source_effect d Hshape Hfit)
    as (src & r2c & Hrun & _ & Htab).
  eexists. split; [exact Hrun | exact Htab].
Qed.

(** ** More on the temperature projection *)

(** X4.  A cell instance with no ring mapped to it (its key is missing
    from [cell_inst_to_ring_], or holds an empty vector) has its temperature
    set to [0.0 / 0.0], a NaN. *)
Theorem update_temperature_unmapped_cell (d : OpenmcHeatDriver) (i : nat)
    (c : CellInstance) :
  cells_ (openmc_driver_ d) !! i = Some c ->
  Table.get (cell_inst_to_ring_ d) i = [] ->
  temperature_calls_ (openmc_driver_ (update_temperature d))
    !! (length (temperature_calls_ (openmc_driver_ d)) + i)%nat =
  Some (c, nan).
Proof.
  intros Hc Hempty. rewrite (update_temperature_call d i c Hc).
  unfold weighted_average. rewrite Hempty. reflexivity.
Qed.

(** X5.  [update_temperature] calls [set_temperature] exactly once per
    registered cell instance, on the cell instances in the order of [cells_],
    and leaves [cells_] as it is; run again with the temperature field
    unchanged, it sets the same temperatures again. *)
Theorem update_temperature_repeatable (d : OpenmcHeatDriver) :
  let d1 := update_temperature d in
  let d2 := update_temperature d1 in
  exists new : list (CellInstance * float),
    map fst new = cells_ (openmc_driver_ d) /\
    temperature_calls_ (openmc_driver_ d1) =
      temperature_calls_ (openmc_driver_ d) ++ new /\
    temperature_calls_ (openmc_driver_ d2) =
      temperature_calls_ (openmc_driver_ d1) ++ new /\
    cells_ (openmc_driver_ d2) = cells_ (openmc_driver_ d).
Proof.
  intros d1 d2.
  destruct (update_temperature_spec d)
    as ((Hcells & _ & _ & Hget & _) & _ & _ & _ & Hh & _).
  destruct (update_temperature_spec d1)
    as ((Hcells' & _) & _).
  fold d1 in Hcells, Hget, Hh. fold d2 in Hcells'.
  cbn [tl_openmc tl_c2r] in Hcells, Hget, Hcells'.
  exists (projected_temperatures (heat_driver_ d) (cell_inst_to_ring_ d)
            (cells_ (openmc_driver_ d))).
  split; [apply map_fst_imap|].
  split; [apply update_temperature_calls|].
  split; [|congruence].
  unfold d2. rewrite update_temperature_calls. fold d1.
  rewrite Hh, Hcells. f_equal.
  now apply projected_temperatures_ext.
Qed.

(** Invariant of the loop of [update_temperature] on the reverse table:
    after [n] cell instances, their indices have a key, every other key is
    as it was. *)
Definition reverse_inv (d : OpenmcHeatDriver) (n : Z) (s : TempLoop) : Prop :=
  cells_ (tl_openmc s) = cells_ (openmc_driver_ d) /\
  (forall k, tl_c2r s !! k =
             if (0 <=? k) && (k <? n)
             then Some (Table.get (cell_inst_to_ring_ d) k)
             else cell_inst_to_ring_ d !! k).

Lemma temperature_body_reverse (d : OpenmcHeatDriver) (i : Z) (s : TempLoop) :
  0 <= i < length (cells_ (openmc_driver_ d)) ->
  reverse_inv d i s ->
  reverse_inv d (i + 1)
    (temperature_body (heat_driver_ d)
       (Xt.flatten (temperature_ (heat_driver_ d))) i s).
Proof.
  intros Hi (Hcells & Htab).
  destruct (lookup_lt_is_Some_2 (cells_ (openmc_driver_ d)) (Z.to_nat i))
    as [c Hc]; [lia|].
  assert (Hhere : tl_c2r s !! i = cell_inst_to_ring_ d !! i).
  { rewrite Htab.
    replace (i <? i) with false by (symmetry; apply Z.ltb_ge; lia).
    now rewrite andb_false_r. }
  unfold temperature_body. rewrite Hcells, Hc.
  rewrite (surjective_pairing (fold_left _ _ _)).
  unfold reverse_inv; simpl. split; [exact Hcells|].
  intros k. unfold Table.touch. rewrite lookup_insert.
  destruct (decide (i = k)) as [<-|Hne].
  - replace (0 <=? i) with true by (symmetry; apply Z.leb_le; lia).
    replace (i <? i + 1) with true by (symmetry; apply Z.ltb_lt; lia).
    simpl. unfold Table.get. now rewrite Hhere.
  - rewrite Htab.
    replace (k <? i + 1) with (k <? i); [reflexivity|].
    destruct (Z.ltb_spec k i); symmetry;
      [apply Z.ltb_lt | apply Z.ltb_ge]; lia.
Qed.

Lemma update_temperature_reverse (d : OpenmcHeatDriver) (k : Z) :
  cell_inst_to_ring_ (update_temperature d) !! k =
  if (0 <=? k) && (k <? length (cells_ (openmc_driver_ d)))
  then Some (Table.get (cell_inst_to_ring_ d) k)
  else cell_inst_to_ring_ d !! k.
Proof.
  unfold update_temperature. cbn [cell_inst_to_ring_].
  revert k.
  apply (for_int_ind (reverse_inv d)); [lia | |].
  - unfold reverse_inv; simpl. split; [reflexivity|]. intros k.
    destruct (0 <=? k) eqn:E1, (k <? 0) eqn:E2; simpl; try reflexivity.
    apply Z.leb_le in E1. apply Z.ltb_lt in E2. lia.
  - intros i t Hi Ht. now apply temperature_body_reverse.
Qed.

(** X6.  [update_temperature] reads the reverse table with [operator[]],
    which writes: it creates an empty entry for every cell-instance index
    that has no key.  It changes no existing entry and creates no other
    key. *)
Theorem update_temperature_table (d : OpenmcHeatDriver) (k : Z) :
  cell_inst_to_ring_ (update_temperature d) !! k =
  if (0 <=? k) && (k <? length (cells_ (openmc_driver_ d)))
  then Some (Table.get (cell_inst_to_ring_ d) k)
  else cell_inst_to_ring_ d !! k.
Proof. apply update_temperature_reverse. Qed.

(** ** More on the coupling controller *)

Definition is_barrier (e : Event) : bool :=
  match e with EvBarrier => true | _ => false end.

(** The iteration indices handed to the transport solver, in order. *)
Definition solve_indices (l : list Event) : list Z :=
  l ≫= fun e => match e with EvSolveStep i => [i] | _ => [] end.

(** X7.  With no time step or no Picard iteration to run
    ([max_timesteps <= 0] or [max_picard_iter <= 0]) [solve_step] returns at
    once: no solver is called, no barrier is reached and nothing changes. *)
Theorem solve_step_no_iteration (d : OpenmcHeatDriver) :
  max_timesteps_ d <= 0 \/ max_picard_iter_ d <= 0 ->
  solve_step d = Some d.
Proof.
  intros Hzero. unfold solve_step.
  destruct (Z.le_gt_cases (max_timesteps_ d) 0) as [Hmt|Hmt].
  - now apply try_for_int_nonpos.
  - destruct Hzero as [Hz|Hmp]; [lia|].
    destruct (try_for_int_ind (fun _ t => t = d) (max_timesteps_ d)
                (fun i_timestep =>
                   try_for_int (max_picard_iter_ d) (picard_body i_timestep))
                d) as (d' & Hrun & ->); [lia | reflexivity | | exact Hrun].
    intros i t _ ->. exists d. split; [|reflexivity].
    now apply try_for_int_nonpos.
Qed.

Lemma count_events_bind {A : Type} (p : Event -> bool)
    (f : A -> list Event) (l : list A) (c : nat) :
  (forall x, count_events p (f x) = c) ->
  count_events p (l ≫= f) = (length l * c)%nat.
Proof.
  intros Hf. unfold count_events in *.
  induction l as [|x l IH]; [reflexivity|].
  rewrite bind_cons, List.filter_app, length_app, Hf, IH. reflexivity.
Qed.

(** X8.  [solve_step] reaches exactly two barriers per Picard iteration,
    [2 * max_timesteps * max_picard_iter] in all, whether or not the
    transport solver or the heat solver is active on this process; an active
    solver is run once per iteration and an inactive one never. *)
Theorem solve_step_counts (d : OpenmcHeatDriver) :
  let n := (Z.to_nat (max_timesteps_ d) * Z.to_nat (max_picard_iter_ d))%nat in
  source_shaped (heat_driver_ d) ->
  exists d',
    solve_step d = Some d' /\
    count_events is_barrier (new_events d d') = (2 * n)%nat /\
    count_events is_transport_solve (new_events d d') =
      (if openmc_active_ (openmc_driver_ d) then n else 0%nat) /\
    count_events is_heat_solve (new_events d d') =
      (if heat_active_ (heat_driver_ d) then n else 0%nat).
Proof.
  intros n Hshape.
  destruct (solve_step_spec d
              (fun it ip => int_add (int_mul it (max_timesteps_ d)) ip)
              Hshape) as (d' & Hrun & Hsteps); [reflexivity|].
  exists d'. split; [exact Hrun|].
  rewrite (steps_new_events d d' _ Hsteps).
  assert (Hcount : forall p c,
            (forall i, count_events p
                         (picard_events (openmc_active_ (openmc_driver_ d))
                            (heat_active_ (heat_driver_ d)) i) = c) ->
            count_events p
              (seqZ 0 (max_timesteps_ d) ≫= fun i_timestep =>
               seqZ 0 (max_picard_iter_ d) ≫= fun i_picard =>
                 picard_events (openmc_active_ (openmc_driver_ d))
                   (heat_active_ (heat_driver_ d))
                   (int_add (int_mul i_timestep (max_timesteps_ d)) i_picard))
            = (n * c)%nat).
  { intros p c Hc.
    rewrite (count_events_bind p _ _ (Z.to_nat (max_picard_iter_ d) * c)).
    - rewrite length_seqZ. unfold n. lia.
    - intros it. rewrite (count_events_bind p _ _ c).
      + now rewrite length_seqZ.
      + intros ip. apply Hc. }
  split; [|split].
  - rewrite (Hcount is_barrier 2%nat); [lia|].
    intros i. now destruct (openmc_active_ _), (heat_active_ _).
  - destruct (openmc_active_ (openmc_driver_ d)).
    + rewrite (Hcount is_transport_solve 1%nat); [lia|].
      intros i. now destruct (heat_active_ _).
    + rewrite (Hcount is_transport_solve 0%nat); [lia|].
      intros i. now destruct (heat_active_ _).
  - destruct (heat_active_ (heat_driver_ d)).
    + rewrite (Hcount is_heat_solve 1%nat); [lia|].
      intros i. now destruct (openmc_active_ _).
    + rewrite (Hcount is_heat_solve 0%nat); [lia|].
      intros i. now destruct (openmc_active_ _).
Qed.

Lemma solve_indices_app (l1 l2 : list Event) :
  solve_indices (l1 ++ l2) = solve_indices l1 ++ solve_indices l2.
Proof. unfold solve_indices. apply bind_app. Qed.

Lemma solve_indices_bind {A : Type} (f : A -> list Event) (l : list A) :
  solve_indices (l ≫= f) = l ≫= fun x => solve_indices (f x).
Proof.
  induction l as [|x l IH]; [reflexivity|].
  now rewrite !bind_cons, solve_indices_app, IH.
Qed.

Lemma solve_indices_picard (heat_active : bool) (i : Z) :
  solve_indices (picard_events true heat_active i) = [i].
Proof. now destruct heat_active. Qed.

(** X9.  The iteration indices that [solve_step] hands to an active
    transport solver, [i_timestep * max_timesteps + i_picard], are pairwise
    distinct exactly when there is at most one time step or
    [max_picard_iter <= max_timesteps]; with two or more time steps and more
    Picard iterations than time steps, two iterations get the same index. *)
Theorem solve_step_indices_distinct (d : OpenmcHeatDriver) :
  openmc_active_ (openmc_driver_ d) = true ->
  source_shaped (heat_driver_ d) ->
  indices_fit_int d ->
  exists d',
    solve_step d = Some d' /\
    (NoDup (solve_indices (new_events d d')) <->
     max_timesteps_ d <= 1 \/ max_picard_iter_ d <= max_timesteps_ d).
Proof.
  intros Hao Hshape Hfit.
  destruct (solve_step_spec d
              (fun it ip => it * max_timesteps_ d + ip) Hshape)
    as (d' & Hrun & Hsteps).
  { intros it ip Hit Hip. unfold indices_fit_int, int_max in Hfit.
    assert (0 <= it * max_timesteps_ d <= max_timesteps_ d * max_timesteps_ d)
      by nia.
    rewrite int_mul_small by (unfold int_max; lia).
    apply int_add_small. unfold int_max. lia. }
  exists d'. split; [exact Hrun|].
  rewrite (steps_new_events d d' _ Hsteps), Hao.
  set (mt := max_timesteps_ d). set (mp := max_picard_iter_ d).
  assert (Hidx : solve_indices
                   (seqZ 0 mt ≫= fun it => seqZ 0 mp ≫= fun ip =>
                      picard_events true (heat_active_ (heat_driver_ d))
                        (it * mt + ip))
                 = seqZ 0 mt ≫= fun it => seqZ 0 mp ≫= fun ip =>
                     [it * mt + ip]).
  { rewrite solve_indices_bind. apply Forall_bind_ext, Forall_forall.
    intros it _. rewrite solve_indices_bind.
    apply Forall_bind_ext, Forall_forall.
    intros ip _. apply solve_indices_picard. }
  rewrite Hidx. clear Hidx. split.
  - intros Hnd.
    destruct (Z.le_gt_cases mt 1) as [H1|H1]; [now left|].
    destruct (Z.le_gt_cases mp mt) as [H2|H2]; [now right|].
    exfalso.
    rewrite (seqZ_cons 0 mt), (seqZ_cons (Z.succ 0)) in Hnd by lia.
    rewrite !bind_cons in Hnd.
    apply NoDup_app in Hnd as (_ & Hdisj & _).
    apply (Hdisj mt).
    + apply list_elem_of_bind. exists mt. split.
      * replace (0 * mt + mt) with mt by lia. apply list_elem_of_singleton.
        reflexivity.
      * apply elem_of_seqZ. lia.
    + apply elem_of_app. left.
      apply list_elem_of_bind. exists 0. split.
      * replace (Z.succ 0 * mt + 0) with mt by lia.
        apply list_elem_of_singleton. reflexivity.
      * apply elem_of_seqZ. lia.
  - intros Hcase. apply NoDup_bind; [| |apply NoDup_seqZ].
    + intros it1 it2 y Hit1 Hit2 Hy1 Hy2.
      apply elem_of_seqZ in Hit1, Hit2.
      apply list_elem_of_bind in Hy1 as (ip1 & Hy1 & Hip1).
      apply list_elem_of_bind in Hy2 as (ip2 & Hy2 & Hip2).
      apply list_elem_of_singleton in Hy1, Hy2.
      apply elem_of_seqZ in Hip1, Hip2.
      destruct Hcase as [Hone|Hle]; [lia|]. nia.
    + intros it _. apply NoDup_bind; [| |apply NoDup_seqZ].
      * intros ip1 ip2 y _ _ Hy1 Hy2.
        apply list_elem_of_singleton in Hy1, Hy2. lia.
      * intros ip _. apply NoDup_singleton.
Qed.

Lemma try_for_int_first {S : Type} (n : Z) (body : Z -> S -> option S)
    (s : S) :
  0 < n -> body 0 s = None -> try_for_int n body s = None.
Proof.
  intros Hn Hb. unfold try_for_int. rewrite seqZ_cons by lia.
  simpl. now rewrite Hb.
Qed.

(** X10.  [solve_step] does not catch what [update_heat_source] throws:
    when there is an iteration to run and [update_heat_source] throws on the
    heat-source field as it is at the call, the first Picard iteration
    throws and so does [solve_step].  The transport solve that precedes the
    projection does not change that: the index check of [at(i, j, k)] reads
    the shape of the field and the grid only. *)
Theorem solve_step_throws (d : OpenmcHeatDriver) :
  0 < max_timesteps_ d -> 0 < max_picard_iter_ d ->
  update_heat_source d = None ->
  solve_step d = None.
Proof.
  intros Hmt Hmp Hthrow. unfold solve_step.
  apply try_for_int_first; [exact Hmt|].
  apply try_for_int_first; [exact Hmp|].
  unfold picard_body.
  match goal with
  | |- match update_heat_source ?x with _ => _ end = None =>
      rewrite (update_heat_source_throws_alike d x)
  end; try reflexivity; try exact Hthrow.
  destruct (openmc_active_ (openmc_driver_ d)); reflexivity.
Qed.

(** ** More on the geometry mapping builder *)

Lemma azimuthal_body_appends (zavg ravg : float) (m : Z) (s : MapLoop) :
  ml_cells s `prefix_of` ml_cells (azimuthal_body zavg ravg m s) /\
  (length (ml_cells (azimuthal_body zavg ravg m s))
   <= S (length (ml_cells s)))%nat.
Proof.
  unfold azimuthal_body.
  destruct (ml_tracked s !! locate _); cbn [ml_cells].
  - split; [reflexivity | lia].
  - split; [apply prefix_app_r; reflexivity|].
    rewrite length_app. simpl. lia.
Qed.

Lemma ring_body_appends (h : SurrogateHeatDriver) (zavg : float) (k : Z)
    (s : MapLoop) :
  ml_cells s `prefix_of` ml_cells (ring_body h zavg k s) /\
  length (ml_cells (ring_body h zavg k s))
  <= length (ml_cells s) + n_azimuthal.
Proof.
  unfold ring_body. cbn [ml_cells].
  match goal with
  | |- context [for_int n_azimuthal ?body s] =>
      pose proof (for_int_ind
                    (fun m t => ml_cells s `prefix_of` ml_cells t /\
                                length (ml_cells t) <= length (ml_cells s) + m)
                    n_azimuthal body s) as Hloop
  end.
  apply Hloop; [unfold n_azimuthal; lia | split; [reflexivity | lia] |].
  intros m t Hm (Hpre & Hlen).
  match goal with
  | |- context [azimuthal_body ?z ?r m t] =>
      destruct (azimuthal_body_appends z r m t) as (Hpre' & Hlen')
  end.
  split; [etransitivity; eassumption | lia].
Qed.

(** X11.  [init_mappings] only appends to the registry of cell instances:
    the registry it finds is a prefix of the registry it leaves, and it adds
    at most one cell instance per sample, 4 per ring. *)
Theorem init_mappings_appends (d : OpenmcHeatDriver) :
  let cells := cells_ (openmc_driver_ d) in
  let cells' := cells_ (openmc_driver_ (init_mappings d)) in
  cells `prefix_of` cells' /\
  length cells' <= length cells + n_azimuthal * mapped_rings (heat_driver_ d).
Proof.
  intros cells cells'. unfold cells', init_mappings.
  cbn [openmc_driver_ cells_]. unfold mapping_loops, mapped_rings.
  set (s0 := {| ml_cells := cells_ (openmc_driver_ d) |}).
  apply (for_int3_ind
           (fun n t => cells `prefix_of` ml_cells t /\
                       length (ml_cells t)
                       <= length cells + n_azimuthal * n)); try lia.
  - split; [reflexivity | unfold cells, n_azimuthal; simpl; lia].
  - intros i j k t Hi Hj Hk (Hpre & Hlen).
    match goal with
    | |- context [ring_body ?h ?z k t] =>
        destruct (ring_body_appends h z k t) as (Hpre' & Hlen')
    end.
    split; [etransitivity; eassumption|].
    unfold n_azimuthal in *. lia.
Qed.

(** X12.  On an empty grid (no pin, no axial layer or no ring)
    [init_mappings] changes nothing: no point is located, no cell instance is
    registered and both tables stay as they are. *)
Theorem init_mappings_empty_grid (d : OpenmcHeatDriver) :
  mapped_rings (heat_driver_ d) = 0 ->
  init_mappings d = d.
Proof.
  intros Hzero. unfold init_mappings.
  set (s0 := {| ml_cells := cells_ (openmc_driver_ d) |}).
  assert (Hloops : mapping_loops (heat_driver_ d) s0 = s0).
  { unfold mapping_loops, mapped_rings in *.
    refine (for_int3_ind
              (fun n t =>
                 n = length (pin_centers_ (heat_driver_ d))
                     * n_axial_ (heat_driver_ d) * n_rings (heat_driver_ d) ->
                 t = s0)
              (length (pin_centers_ (heat_driver_ d)))
              (n_axial_ (heat_driver_ d)) (n_rings (heat_driver_ d))
              _ s0 _ _ _ _ _ eq_refl); try lia;
      try (intros _; reflexivity). }
  rewrite Hloops. subst s0. destruct d as [? ? ? [? ? ? ? ?] ? ? ? ?].
  reflexivity.
Qed.

(** Every cell instance registered by the build is tracked under its
    index. *)
Definition track_complete (len0 : nat) (s : MapLoop) : Prop :=
  forall (a : nat) (c : CellInstance),
    (len0 <= a)%nat -> ml_cells s !! a = Some c ->
    ml_tracked s !! c = Some (Z.of_nat a).

Lemma register_sample_complete (h : SurrogateHeatDriver) (len0 : nat)
    (n m : Z) (p : Position) (s : MapLoop) :
  0 <= n -> 0 <= m ->
  len0 + n_azimuthal * n + m < int_max ->
  map_inv h len0 n m s ->
  track_complete len0 s ->
  track_complete len0 (register_sample p s).
Proof.
  intros Hn Hm Hfit Hinv Hcomp. unfold register_sample.
  destruct (ml_tracked s !! locate p) as [a0|] eqn:Hc; cbn [fst snd].
  - exact Hcomp.
  - pose proof (inv_length _ _ _ _ _ Hinv) as Hlen.
    intros a c. cbn [ml_cells ml_tracked]. intros Ha Hcell.
    rewrite length_app. cbn [length].
    replace (int_of_size (Z.of_nat (length (ml_cells s) + 1) - 1))
      with (Z.of_nat (length (ml_cells s)))
      by (unfold int_of_size; rewrite wrap32_small;
          unfold int_max in *; lia).
    destruct (decide (a < length (ml_cells s))%nat) as [Hlt|Hge].
    + rewrite lookup_app_l in Hcell by exact Hlt.
      pose proof (Hcomp a c Ha Hcell) as Htr.
      rewrite lookup_insert_ne; [exact Htr|].
      intros <-. congruence.
    + rewrite lookup_app_r in Hcell by lia.
      destruct (a - length (ml_cells s))%nat as [|x] eqn:Hx;
        [|destruct x; discriminate].
      injection Hcell as <-.
      replace a with (length (ml_cells s)) by lia.
      apply lookup_insert_eq.
Qed.

Lemma ring_body_complete (h : SurrogateHeatDriver) (len0 : nat) (i j k : Z)
    (s : MapLoop) :
  0 <= i -> 0 <= j < n_axial_ h -> 0 <= k < n_rings h ->
  len0 + n_azimuthal * (ring_of h i j k + 1) <= int_max ->
  map_inv h len0 (ring_of h i j k) 0 s ->
  track_complete len0 s ->
  track_complete len0 (ring_body h (layer_zavg h j) k s).
Proof.
  intros Hi Hj Hk Hfit Hs Hcomp.
  assert (Hn : 0 <= ring_of h i j k) by (unfold ring_of; nia).
  rewrite ring_body_unfold.
  set (t := for_int n_azimuthal _ s).
  assert (Ht : map_inv h len0 (ring_of h i j k) n_azimuthal t /\
               track_complete len0 t).
  { subst t.
    apply (for_int_ind
             (fun m u => map_inv h len0 (ring_of h i j k) m u /\
                         track_complete len0 u));
      [unfold n_azimuthal; lia | split; assumption |].
    intros m u Hm (Hu & Hcu). rewrite azimuthal_body_point by exact Hm.
    split.
    - replace (sample_point h j k m)
        with (sample_point h (ring_layer h (ring_of h i j k))
                (ring_radial h (ring_of h i j k)) m)
        by (unfold ring_layer, ring_radial;
            now rewrite (ring_of_div h i j k Hj Hk), (ring_of_mod h i j k Hk)).
      apply register_sample_inv; [exact Hn | lia | | exact Hu].
      unfold n_azimuthal in *. lia.
    - apply (register_sample_complete h len0 (ring_of h i j k) m);
        [exact Hn | lia | | exact Hu | exact Hcu].
      unfold n_azimuthal in *. lia. }
  destruct Ht as (_ & Hct). exact Hct.
Qed.

(** The state in which the constructor enters the loops of
    [init_mappings]. *)
Definition fresh_loop (od : OpenmcDriver) : MapLoop :=
  {| ml_cells := cells_ od;
     ml_located := located_ od;
     ml_tracked := ∅;
     ml_ring_index := 0;
     ml_c2r := ∅;
     ml_r2c := ∅ |}.

Lemma fresh_loop_inv (od : OpenmcDriver) (hd : SurrogateHeatDriver) :
  map_inv hd (length (cells_ od)) 0 0 (fresh_loop od).
Proof.
  constructor; simpl.
  - reflexivity.
  - intros c a Hc. now rewrite lookup_empty in Hc.
  - unfold n_azimuthal. lia.
  - intros r Hr. lia.
  - rewrite Table.get_empty. constructor.
  - intros r _. apply Table.get_empty.
  - intros a Ha. lia.
Qed.

(** What the loops of [init_mappings] establish, on the constructor's
    state. *)
Lemma fresh_loops_inv (od : OpenmcDriver) (hd : SurrogateHeatDriver) :
  mapping_fits_int od hd ->
  map_inv hd (length (cells_ od)) (mapped_rings hd) 0
    (mapping_loops hd (fresh_loop od)) /\
  track_complete (length (cells_ od)) (mapping_loops hd (fresh_loop od)).
Proof.
  intros Hfit. unfold mapping_loops, mapped_rings.
  apply (for_int3_ind
           (fun n t => map_inv hd (length (cells_ od)) n 0 t /\
                       track_complete (length (cells_ od)) t)); try lia.
  - split; [apply fresh_loop_inv|].
    intros a c Ha Hcell. apply lookup_lt_Some in Hcell.
    simpl in Hcell. lia.
  - intros i j k t Hi Hj Hk (Ht & Hct).
    pose proof (flat_index_bound _ _ _ i j k Hi Hj Hk) as Hb.
    assert (Hfit' : length (cells_ od)
                    + n_azimuthal * (ring_of hd i j k + 1) <= int_max).
    { unfold mapping_fits_int, ring_of, mapped_rings, n_azimuthal in *. lia. }
    split.
    + apply (ring_body_inv hd _ i j k t); try lia; assumption.
    + apply (ring_body_complete hd _ i j k t); try lia; assumption.
Qed.

(** X13.  Called by the constructor, on empty tables, [init_mappings]
    registers no cell instance twice: the cell instances it appends to
    [cells_] are pairwise distinct. *)
Theorem init_mappings_registers_once (power : float)
    (max_timesteps max_picard_iter : Z) (od : OpenmcDriver)
    (hd : SurrogateHeatDriver) :
  let d :=
    init_mappings (fresh_driver power max_timesteps max_picard_iter od hd) in
  mapping_fits_int od hd ->
  NoDup (drop (length (cells_ od)) (cells_ (openmc_driver_ d))).
Proof.
  intros d Hfit.
  destruct (fresh_loops_inv od hd Hfit) as (_ & Hcomp).
  change (cells_ (openmc_driver_ d))
    with (ml_cells (mapping_loops hd (fresh_loop od))).
  apply NoDup_alt. intros a b c Ha Hb.
  rewrite lookup_drop in Ha, Hb.
  pose proof (Hcomp (length (cells_ od) + a)%nat c ltac:(lia) Ha) as Ha'.
  pose proof (Hcomp (length (cells_ od) + b)%nat c ltac:(lia) Hb) as Hb'.
  rewrite Ha' in Hb'. injection Hb' as Heq. lia.
Qed.

(** X14.  After [init_mappings], called by the constructor on empty
    tables, two entries of the forward table, of any two rings and samples,
    are the same index if and only if the two sample points are located in
    the same cell instance. *)
Theorem init_mappings_same_cell (power : float)
    (max_timesteps max_picard_iter : Z) (od : OpenmcDriver)
    (hd : SurrogateHeatDriver) (i1 j1 k1 i2 j2 k2 : Z) (m1 m2 : nat)
    (a1 a2 : Z) :
  let d :=
    init_mappings (fresh_driver power max_timesteps max_picard_iter od hd) in
  mapping_fits_int od hd ->
  0 <= i1 < length (pin_centers_ hd) -> 0 <= j1 < n_axial_ hd ->
  0 <= k1 < n_rings hd ->
  0 <= i2 < length (pin_centers_ hd) -> 0 <= j2 < n_axial_ hd ->
  0 <= k2 < n_rings hd ->
  Table.get (ring_to_cell_inst_ d) (ring_of hd i1 j1 k1) !! m1 = Some a1 ->
  Table.get (ring_to_cell_inst_ d) (ring_of hd i2 j2 k2) !! m2 = Some a2 ->
  (a1 = a2 <->
   locate (sample_point hd j1 k1 m1) = locate (sample_point hd j2 k2 m2)).
Proof.
  intros d Hfit Hi1 Hj1 Hk1 Hi2 Hj2 Hk2 Ha1 Ha2.
  destruct (fresh_loops_inv od hd Hfit) as (Hinv & Hcomp).
  change (ring_to_cell_inst_ d)
    with (ml_r2c (mapping_loops hd (fresh_loop od))) in Ha1, Ha2.
  pose proof (flat_index_bound _ _ _ i1 j1 k1 Hi1 Hj1 Hk1) as Hb1.
  pose proof (flat_index_bound _ _ _ i2 j2 k2 Hi2 Hj2 Hk2) as Hb2.
  destruct (ring_ok_entry _ _ _ _ _ _ m1 a1
              (inv_done _ _ _ _ _ Hinv (ring_of hd i1 j1 k1) Hb1) Ha1)
    as (Hle1 & Hc1).
  destruct (ring_ok_entry _ _ _ _ _ _ m2 a2
              (inv_done _ _ _ _ _ Hinv (ring_of hd i2 j2 k2) Hb2) Ha2)
    as (Hle2 & Hc2).
  unfold ring_layer, ring_radial in Hc1, Hc2.
  rewrite (ring_of_div hd i1 j1 k1 Hj1 Hk1), (ring_of_mod hd i1 j1 k1 Hk1)
    in Hc1.
  rewrite (ring_of_div hd i2 j2 k2 Hj2 Hk2), (ring_of_mod hd i2 j2 k2 Hk2)
    in Hc2.
  split.
  - intros <-. congruence.
  - intros Heq. rewrite Heq in Hc1.
    pose proof (Hcomp (Z.to_nat a1) _ ltac:(lia) Hc1) as Ht1.
    pose proof (Hcomp (Z.to_nat a2) _ ltac:(lia) Hc2) as Ht2.
    rewrite Ht1 in Ht2. injection Ht2 as Heq'. lia.
Qed.

(** Only rings of the grid have entries in the forward table. *)
Lemma forward_entries_in_grid (h : SurrogateHeatDriver) (len0 : nat)
    (s : MapLoop) (r : Z) :
  map_inv h len0 (mapped_rings h) 0 s ->
  Table.get (ml_r2c s) r <> [] -> 0 <= r < mapped_rings h.
Proof.
  intros Hinv Hne.
  destruct (decide (r < 0 \/ mapped_rings h < r)) as [Hout|Hin].
  - now rewrite (inv_rest _ _ _ _ _ Hinv r Hout) in Hne.
  - destruct (decide (r = mapped_rings h)) as [->|Hneq]; [|lia].
    pose proof (ring_ok_length _ _ _ _ _ _ (inv_current _ _ _ _ _ Hinv))
      as Hlen.
    destruct (Table.get (ml_r2c s) (mapped_rings h)); [done | discriminate].
Qed.

(** The cell instances registered by the loops are those located at the
    sample points. *)
Lemma fresh_loops_registered (od : OpenmcDriver) (hd : SurrogateHeatDriver)
    (c : CellInstance) :
  mapping_fits_int od hd ->
  c ∈ drop (length (cells_ od)) (ml_cells (mapping_loops hd (fresh_loop od)))
  <->
  exists i j k m,
    0 <= i < length (pin_centers_ hd) /\ 0 <= j < n_axial_ hd /\
    0 <= k < n_rings hd /\ 0 <= m < n_azimuthal /\
    c = locate (sample_point hd j k m).
Proof.
  intros Hfit.
  destruct (fresh_loops_inv od hd Hfit) as (Hinv & _).
  set (s := mapping_loops hd (fresh_loop od)) in *.
  split.
  - intros Hc. apply list_elem_of_lookup in Hc as (x & Hx).
    rewrite lookup_drop in Hx.
    pose proof (lookup_lt_Some _ _ _ Hx) as Hlt.
    destruct (inv_cover _ _ _ _ _ Hinv (length (cells_ od) + x)%nat)
      as (r & _ & Hin); [lia|].
    assert (Hr : 0 <= r < mapped_rings hd).
    { apply (forward_entries_in_grid hd _ s r Hinv).
      intros Hnil. rewrite Hnil in Hin. inversion Hin. }
    apply list_elem_of_lookup in Hin as (m & Hm).
    pose proof (inv_done _ _ _ _ _ Hinv r Hr) as Hok.
    destruct (ring_ok_entry _ _ _ _ _ _ m _ Hok Hm) as (_ & Hcell).
    rewrite Nat2Z.id, Hx in Hcell. injection Hcell as ->.
    apply lookup_lt_Some in Hm.
    rewrite (ring_ok_length _ _ _ _ _ _ Hok) in Hm.
    unfold mapped_rings in Hr.
    assert (Hpos : 0 < length (pin_centers_ hd) /\ 0 < n_axial_ hd /\
                   0 < n_rings hd) by nia.
    exists 0, (ring_layer hd r), (ring_radial hd r), (Z.of_nat m).
    unfold ring_layer, ring_radial.
    repeat split; try lia; try (apply Z.mod_pos_bound; lia).
  - intros (i & j & k & m & Hi & Hj & Hk & Hm & ->).
    pose proof (flat_index_bound _ _ _ i j k Hi Hj Hk) as Hb.
    pose proof (inv_done _ _ _ _ _ Hinv (ring_of hd i j k) Hb) as Hok.
    destruct (Forall2_lookup_l _ _ _ (Z.to_nat m) m Hok) as (a & Ha & Hent).
    { apply lookup_seqZ. lia. }
    destruct Hent as (Hle & Hcell).
    unfold ring_layer, ring_radial in Hcell.
    rewrite (ring_of_div hd i j k Hj Hk), (ring_of_mod hd i j k Hk) in Hcell.
    apply list_elem_of_lookup.
    exists (Z.to_nat a - length (cells_ od))%nat.
    rewrite lookup_drop.
    replace (length (cells_ od) + (Z.to_nat a - length (cells_ od)))%nat
      with (Z.to_nat a) by lia.
    exact Hcell.
Qed.


(** X15.  Called by the constructor, on empty tables, [init_mappings]
    registers exactly the cell instances located at the sample points of the
    rings of the grid (none when there is no pin). *)
Theorem init_mappings_registered_cells (power : float)
    (max_timesteps max_picard_iter : Z) (od : OpenmcDriver)
    (hd : SurrogateHeatDriver) (c : CellInstance) :
  let d :=
    init_mappings (fresh_driver power max_timesteps max_picard_iter od hd) in
  mapping_fits_int od hd ->
  c ∈ drop (length (cells_ od)) (cells_ (openmc_driver_ d)) <->
  exists i j k m,
    0 <= i < length (pin_centers_ hd) /\ 0 <= j < n_axial_ hd /\
    0 <= k < n_rings hd /\ 0 <= m < n_azimuthal /\
    c = locate (sample_point hd j k m).
Proof. intros d. apply fresh_loops_registered. Qed.

(** No key of the table holds an empty vector. *)
Definition no_empty (m : gmap Z (list Z)) : Prop :=
  forall k l, m !! k = Some l -> l <> [].

Lemma push_back_no_empty (m : gmap Z (list Z)) (k v : Z) :
  no_empty m -> no_empty (Table.push_back m k v).
Proof.
  intros Hm k' l. unfold Table.push_back. rewrite lookup_insert.
  destruct (decide (k = k')).
  - intros [= <-]. now destruct (Table.get m k).
  - apply Hm.
Qed.

Lemma get_no_empty (m : gmap Z (list Z)) (k : Z) :
  no_empty m -> (is_Some (m !! k) <-> Table.get m k <> []).
Proof.
  intros Hm. unfold Table.get. split.
  - intros [l Hl]. rewrite Hl. simpl. exact (Hm k l Hl).
  - destruct (m !! k); [eauto | done].
Qed.

Lemma mapping_loops_no_empty (h : SurrogateHeatDriver) (s : MapLoop) :
  no_empty (ml_c2r s) /\ no_empty (ml_r2c s) ->
  no_empty (ml_c2r (mapping_loops h s)) /\
  no_empty (ml_r2c (mapping_loops h s)).
Proof.
  set (P := fun t : MapLoop => no_empty (ml_c2r t) /\ no_empty (ml_r2c t)).
  intros Hs. unfold mapping_loops.
  apply (for_int_preserves P); [|exact Hs]. intros i t Ht.
  apply (for_int_preserves P); [|exact Ht]. intros j u Hu.
  apply (for_int_preserves P); [|exact Hu]. intros k v Hv.
  unfold ring_body, P. cbn [ml_c2r ml_r2c].
  apply (for_int_preserves P); [|exact Hv]. intros m w (Hw1 & Hw2).
  unfold azimuthal_body, P.
  destruct (ml_tracked w !! locate _); cbn [ml_c2r ml_r2c];
    split; now apply push_back_no_empty.
Qed.

(** The keys and entries of the two tables after the loops. *)
Lemma fresh_loops_keys (od : OpenmcDriver) (hd : SurrogateHeatDriver) :
  let s := mapping_loops hd (fresh_loop od) in
  mapping_fits_int od hd ->
  (forall r, is_Some (ml_r2c s !! r) <-> 0 <= r < mapped_rings hd) /\
  (forall a, is_Some (ml_c2r s !! a) <->
             length (cells_ od) <= a < length (ml_cells s)) /\
  (forall a r, r ∈ Table.get (ml_c2r s) a -> 0 <= r < mapped_rings hd).
Proof.
  intros s0 Hfit. subst s0.
  destruct (fresh_loops_inv od hd Hfit) as (Hinv & _).
  destruct (mapping_loops_no_empty hd (fresh_loop od)) as (Hne_c & Hne_r).
  { split; intros k l Hl; simpl in Hl; now rewrite lookup_empty in Hl. }
  assert (Hcons : tables_consistent
                    (ml_c2r (mapping_loops hd (fresh_loop od)))
                    (ml_r2c (mapping_loops hd (fresh_loop od)))).
  { apply mapping_loops_consistent. intros r c. simpl.
    rewrite !Table.get_empty. split; intros Hin; inversion Hin. }
  set (s := mapping_loops hd (fresh_loop od)) in *.
  assert (Hentry : forall a r, a ∈ Table.get (ml_r2c s) r ->
            0 <= r < mapped_rings hd /\
            length (cells_ od) <= a < length (ml_cells s)).
  { intros a r Hin.
    assert (Hr : 0 <= r < mapped_rings hd).
    { apply (forward_entries_in_grid hd _ s r Hinv).
      intros Hnil. rewrite Hnil in Hin. inversion Hin. }
    split; [exact Hr|].
    apply list_elem_of_lookup in Hin as (m & Hm).
    destruct (ring_ok_entry _ _ _ _ _ _ m a
                (inv_done _ _ _ _ _ Hinv r Hr) Hm) as (Hle & Hcell).
    apply lookup_lt_Some in Hcell. lia. }
  split; [|split].
  - intros r. rewrite (get_no_empty _ r Hne_r). split.
    + apply (forward_entries_in_grid hd _ s r Hinv).
    + intros Hr Hnil.
      pose proof (ring_ok_length _ _ _ _ _ _ (inv_done _ _ _ _ _ Hinv r Hr))
        as Hlen.
      rewrite Hnil in Hlen. discriminate.
  - intros a. rewrite (get_no_empty _ a Hne_c). split.
    + intros Hne.
      destruct (Table.get (ml_c2r s) a) as [|r l] eqn:Hl; [done|].
      apply (Hentry a r). apply Hcons. rewrite Hl. left.
    + intros Ha Hnil.
      destruct (inv_cover _ _ _ _ _ Hinv a Ha) as (r & _ & Hin).
      apply Hcons in Hin. rewrite Hnil in Hin. inversion Hin.
  - intros a r Hin. apply Hcons in Hin. now apply (Hentry a r).
Qed.

(** X16.  After [init_mappings] the keys of the forward table are exactly
    the ring indices of the grid, the keys of the reverse table are exactly
    the indices of the cell instances registered by the build, and every
    entry of the reverse table is a ring index of the grid. *)
Theorem init_mappings_keys (power : float)
    (max_timesteps max_picard_iter : Z) (od : OpenmcDriver)
    (hd : SurrogateHeatDriver) :
  let d :=
    init_mappings (fresh_driver power max_timesteps max_picard_iter od hd) in
  mapping_fits_int od hd ->
  (forall r, is_Some (ring_to_cell_inst_ d !! r) <->
             0 <= r < mapped_rings hd) /\
  (forall a, is_Some (cell_inst_to_ring_ d !! a) <->
             length (cells_ od) <= a < length (cells_ (openmc_driver_ d))) /\
  (forall a r, r ∈ Table.get (cell_inst_to_ring_ d) a ->
               0 <= r < mapped_rings hd).
Proof. intros d. apply fresh_loops_keys. Qed.

(** ** [OpenmcHeatDriver::init_tallies] and the constructor *)

(** [CellInstance::material_index_] and [OpenmcDriver::create_tallies]. *)
Variable material_index : CellInstance -> Z.
Variable transport_create_tallies : list Z -> TransportState -> TransportState.

Definition int_sub (a b : Z) : Z := wrap32 (a - b).

Definition init_tallies (d : OpenmcHeatDriver) : OpenmcHeatDriver :=
  if openmc_active_ (openmc_driver_ d) then
    let mats :=
      fold_left (fun mats c => mats ++ [int_sub (material_index c) 1])
        (cells_ (openmc_driver_ d)) [] in
    on_transport (transport_create_tallies mats) d
  else d.

(** The constructor, once the coupling parameters are read from the XML
    node and the two drivers are built. *)
Definition construct (power : float) (max_timesteps max_picard_iter : Z)
    (od : OpenmcDriver) (hd : SurrogateHeatDriver) : OpenmcHeatDriver :=
  init_tallies
    (init_mappings (fresh_driver power max_timesteps max_picard_iter od hd)).

Lemma fold_push_back {A B : Type} (f : A -> B) (l : list A) (acc : list B) :
  fold_left (fun mats c => mats ++ [f c]) l acc = acc ++ map f l.
Proof.
  revert acc. induction l as [|x l IH]; intros acc; simpl.
  - now rewrite app_nil_r.
  - now rewrite IH, <- app_assoc.
Qed.

(** [init_tallies] touches the transport solver only. *)
Lemma init_tallies_frame (d : OpenmcHeatDriver) :
  let d' := init_tallies d in
  power_ d' = power_ d /\
  max_timesteps_ d' = max_timesteps_ d /\
  max_picard_iter_ d' = max_picard_iter_ d /\
  cells_ (openmc_driver_ d') = cells_ (openmc_driver_ d) /\
  openmc_active_ (openmc_driver_ d') = openmc_active_ (openmc_driver_ d) /\
  heat_driver_ d' = heat_driver_ d /\
  cell_inst_to_ring_ d' = cell_inst_to_ring_ d /\
  ring_to_cell_inst_ d' = ring_to_cell_inst_ d.
Proof.
  unfold init_tallies.
  destruct (openmc_active_ (openmc_driver_ d)) eqn:Ha; simpl;
    repeat split; try reflexivity; exact Ha.
Qed.

(** X17.  On a process that takes part in the transport solve, the
    constructor requests tallies for one material per registered cell
    instance (a material shared by two cell instances is listed twice), and
    the materials requested are exactly the materials, shifted by one, of the
    cell instances located at the sample points; on any other process it
    requests nothing. *)
Theorem construct_tallies (power : float) (max_timesteps max_picard_iter : Z)
    (od : OpenmcDriver) (hd : SurrogateHeatDriver) :
  let d := construct power max_timesteps max_picard_iter od hd in
  cells_ od = [] ->
  mapping_fits_int od hd ->
  if openmc_active_ od then
    exists mats : list Z,
      transport_ (openmc_driver_ d) =
        transport_create_tallies mats (transport_ od) /\
      length mats = length (cells_ (openmc_driver_ d)) /\
      forall x, x ∈ mats <->
        exists i j k m,
          0 <= i < length (pin_centers_ hd) /\ 0 <= j < n_axial_ hd /\
          0 <= k < n_rings hd /\ 0 <= m < n_azimuthal /\
          x = int_sub (material_index (locate (sample_point hd j k m))) 1
  else transport_ (openmc_driver_ d) = transport_ od.
Proof.
  intros d Hnil Hfit. unfold d, construct, init_tallies.
  change (openmc_active_
            (openmc_driver_
               (init_mappings
                  (fresh_driver power max_timesteps max_picard_iter od hd))))
    with (openmc_active_ od).
  destruct (openmc_active_ od); [|reflexivity].
  eexists. split; [reflexivity|].
  cbn [on_transport openmc_driver_ cells_].
  change (cells_ (openmc_driver_
            (init_mappings
               (fresh_driver power max_timesteps max_picard_iter od hd))))
    with (ml_cells (mapping_loops hd (fresh_loop od))).
  rewrite fold_push_back, app_nil_l. split; [apply length_map|].
  intros x. rewrite list_elem_of_In, in_map_iff. split.
  - intros (c & <- & Hc). apply list_elem_of_In in Hc.
    assert (Hc' : c ∈ drop (length (cells_ od))
                      (ml_cells (mapping_loops hd (fresh_loop od))))
      by (rewrite Hnil; exact Hc).
    apply (fresh_loops_registered od hd c Hfit) in Hc'
      as (i & j & k & m & Hi & Hj & Hk & Hm & ->).
    exists i, j, k, m. repeat split; try lia.
  - intros (i & j & k & m & Hi & Hj & Hk & Hm & ->).
    exists (locate (sample_point hd j k m)). split; [reflexivity|].
    apply list_elem_of_In.
    assert (Hc' : locate (sample_point hd j k m)
                  ∈ drop (length (cells_ od))
                      (ml_cells (mapping_loops hd (fresh_loop od)))).
    { apply (fresh_loops_registered od hd _ Hfit).
      exists i, j, k, m. repeat split; try lia. }
    rewrite Hnil in Hc'. exact Hc'.
Qed.

(** X18.  On a driver built by the constructor, [update_heat_source]
    returns and leaves in the slot of every fuel ring the average, over the 4
    azimuthal samples of the ring, of the heat generation reported for the
    cell instance located at the sample:
    [(0.0 + Q(a0) + Q(a1) + Q(a2) + Q(a3)) / 4]. *)
Theorem construct_heat_source (power : float)
    (max_timesteps max_picard_iter : Z) (od : OpenmcDriver)
    (hd : SurrogateHeatDriver) :
  let d := construct power max_timesteps max_picard_iter od hd in
  let Q :=
    Xt.get (transport_heat_source (transport_ (openmc_driver_ d)) power) in
  n_pins_ hd = length (pin_centers_ hd) ->
  mapping_fits_int od hd ->
  source_shaped hd -> Xt.well_shaped (source_ hd) ->
  exists d', update_heat_source d = Some d' /\
    forall i j k, in_grid hd i j k -> k < n_fuel_rings_ hd ->
      exists a0 a1 a2 a3,
        (forall (m : nat) (a : Z),
           [a0; a1; a2; a3] !! m = Some a ->
           cells_ (openmc_driver_ d) !! Z.to_nat a =
           Some (locate (sample_point hd j k m))) /\
        Xt.at_ (source_ (heat_driver_ d')) i j k =
        Some ((0 + Q a0 + Q a1 + Q a2 + Q a3) / 4)%float.
Proof.
  intros d Q Hpins Hfit Hshape Hwf.
  set (d0 := init_mappings
               (fresh_driver power max_timesteps max_picard_iter od hd)).
  destruct (init_tallies_frame d0)
    as (Hp & _ & _ & Hcells & _ & Hh & _ & Hr).
  change (init_tallies d0) with d in Hp, Hcells, Hh, Hr.
  change (heat_driver_ d0) with hd in Hh.
  change (power_ d0) with power in Hp.
  change (cells_ (openmc_driver_ d0))
    with (ml_cells (mapping_loops hd (fresh_loop od))) in Hcells.
  change (ring_to_cell_inst_ d0)
    with (ml_r2c (mapping_loops hd (fresh_loop od))) in Hr.
  destruct (fresh_loops_inv od hd Hfit) as (Hinv & _).
  assert (Hmapped : mapped_rings hd = total_rings hd).
  { unfold mapped_rings, total_rings. rewrite Hpins, !Nat2Z.inj_mul.
    reflexivity. }
  assert (Hrfit : rings_fit_int hd).
  { unfold rings_fit_int. rewrite <- Hmapped.
    unfold mapping_fits_int, n_azimuthal in Hfit.
    assert (0 <= mapped_rings hd) by (unfold mapped_rings; nia). lia. }
  destruct (update_heat_source_spec d) as (src & r2c & Hrun & Hs & Hl & _ & Hdata);
    [rewrite Hh; exact Hshape | rewrite Hh; exact Hwf
    | rewrite Hh; exact Hrfit |].
  rewrite Hh, Hp, Hr in Hdata. rewrite Hh in Hs, Hl.
  eexists. split; [exact Hrun|]. cbn [heat_driver_ with_source source_].
  intros i j k Hin Hfuel.
  pose proof (ring_of_bound hd i j k Hin) as Hb.
  destruct Hin as (Hi & Hj & Hk).
  pose proof (inv_done _ _ _ _ _ Hinv (ring_of hd i j k)
                ltac:(rewrite Hmapped; lia)) as Hok.
  unfold ring_ok in Hok. change (seqZ 0 n_azimuthal) with [0; 1; 2; 3] in Hok.
  apply Forall2_cons_inv_l in Hok as (a0 & l0 & He0 & Hok & Hl0).
  apply Forall2_cons_inv_l in Hok as (a1 & l1 & He1 & Hok & Hl1).
  apply Forall2_cons_inv_l in Hok as (a2 & l2 & He2 & Hok & Hl2).
  apply Forall2_cons_inv_l in Hok as (a3 & l3 & He3 & Hok & Hl3).
  apply Forall2_nil_inv_l in Hok.
  rewrite Hok in Hl3. rewrite Hl3 in Hl2. rewrite Hl2 in Hl1.
  rewrite Hl1 in Hl0. clear Hl1 Hl2 Hl3 Hok l0 l1 l2 l3.
  unfold entry_ok, ring_layer, ring_radial in He0, He1, He2, He3.
  rewrite (ring_of_div hd i j k Hj Hk), (ring_of_mod hd i j k Hk)
    in He0, He1, He2, He3.
  exists a0, a1, a2, a3. split.
  - rewrite Hcells. intros m a Hm.
    destruct m as [|[|[|[|m]]]]; simpl in Hm; try discriminate;
      injection Hm as <-; [apply He0 | apply He1 | apply He2 | apply He3].
  - unfold Xt.at_.
    rewrite (offset_in_shape src _ _ _ i j k Hs Hi Hj Hk).
    change ((i * n_axial_ hd + j) * n_rings hd + k) with (ring_of hd i j k).
    rewrite Hdata by lia. rewrite Z2Nat.id by lia.
    unfold ring_heat_source. rewrite ring_of_mod by exact Hk.
    replace (k <? n_fuel_rings_ hd) with true
      by (symmetry; apply Z.ltb_lt; lia).
    rewrite Hl0. reflexivity.
Qed.

(** *** The tables stay as the constructor built them *)

(** [d'] has the registry, the tables and the grid dimensions of [d]. *)
Definition same_mapping (d d' : OpenmcHeatDriver) : Prop :=
  cells_ (openmc_driver_ d') = cells_ (openmc_driver_ d) /\
  cell_inst_to_ring_ d' = cell_inst_to_ring_ d /\
  ring_to_cell_inst_ d' = ring_to_cell_inst_ d /\
  n_pins_ (heat_driver_ d') = n_pins_ (heat_driver_ d) /\
  n_axial_ (heat_driver_ d') = n_axial_ (heat_driver_ d) /\
  n_fuel_rings_ (heat_driver_ d') = n_fuel_rings_ (heat_driver_ d) /\
  n_clad_rings_ (heat_driver_ d') = n_clad_rings_ (heat_driver_ d).

(** Every ring of the grid has a key in the forward table and every
    registered cell instance has one in the reverse table. *)
Definition keys_complete (d : OpenmcHeatDriver) : Prop :=
  (forall r, 0 <= r < total_rings (heat_driver_ d) ->
     is_Some (ring_to_cell_inst_ d !! r)) /\
  (forall a, 0 <= a < length (cells_ (openmc_driver_ d)) ->
     is_Some (cell_inst_to_ring_ d !! a)).

Definition stable (d : OpenmcHeatDriver) : Prop :=
  source_shaped (heat_driver_ d) /\ rings_fit_int (heat_driver_ d) /\
  keys_complete d.

Lemma same_mapping_refl (d : OpenmcHeatDriver) : same_mapping d d.
Proof. unfold same_mapping. repeat split; reflexivity. Qed.

Lemma same_mapping_trans (d1 d2 d3 : OpenmcHeatDriver) :
  same_mapping d1 d2 -> same_mapping d2 d3 -> same_mapping d1 d3.
Proof.
  unfold same_mapping.
  intros (A1 & A2 & A3 & A4 & A5 & A6 & A7) (B1 & B2 & B3 & B4 & B5 & B6 & B7).
  repeat split; congruence.
Qed.

Lemma stable_same_mapping (d d' : OpenmcHeatDriver) :
  stable d -> same_mapping d d' -> source_shaped (heat_driver_ d') ->
  stable d'.
Proof.
  intros (_ & Hfit & Hfwd & Hrev) (A1 & A2 & A3 & A4 & A5 & A6 & A7) Hshape.
  assert (Htotal : total_rings (heat_driver_ d')
                   = total_rings (heat_driver_ d)).
  { unfold total_rings, n_rings. now rewrite A4, A5, A6, A7. }
  split; [exact Hshape|]. split; [|split].
  - unfold rings_fit_int in *. now rewrite Htotal.
  - intros r Hr. rewrite A3. apply Hfwd. now rewrite <- Htotal.
  - intros a Ha. rewrite A2. apply Hrev. now rewrite <- A1.
Qed.

Lemma update_heat_source_same_mapping (d : OpenmcHeatDriver) :
  stable d ->
  exists d', update_heat_source d = Some d' /\ same_mapping d d' /\
             source_shaped (heat_driver_ d') /\ trace_ d' = trace_ d /\
             heat_active_ (heat_driver_ d') = heat_active_ (heat_driver_ d).
Proof.
  intros (Hshape & Hfit & Hfwd & _).
  destruct (update_heat_source_effect d Hshape Hfit)
    as (src & r2c & Hrun & Hs & Htab).
  eexists. split; [exact Hrun|].
  split; [|split; [exact Hs | split; reflexivity]].
  unfold same_mapping; simpl. repeat split; try reflexivity.
  apply map_eq. intros r. rewrite Htab.
  destruct (is_fuel_ring (heat_driver_ d) (total_rings (heat_driver_ d)) r)
    eqn:Hfuel; [|reflexivity].
  unfold is_fuel_ring in Hfuel.
  apply andb_prop in Hfuel as (Hrange & _).
  apply andb_prop in Hrange as (H0 & H1).
  apply Z.leb_le in H0. apply Z.ltb_lt in H1.
  destruct (Hfwd r) as [l Hl]; [lia|].
  unfold Table.get. now rewrite Hl.
Qed.

Lemma update_temperature_same_mapping (d : OpenmcHeatDriver) :
  stable d -> same_mapping d (update_temperature d).
Proof.
  intros (_ & _ & _ & Hrev).
  destruct (update_temperature_spec d)
    as ((Hcells & _) & _ & _ & _ & Hh & Hr & _).
  cbn [tl_openmc] in Hcells.
  unfold same_mapping. rewrite Hcells, Hh, Hr.
  repeat split; try reflexivity.
  apply map_eq. intros k. rewrite update_temperature_reverse.
  destruct ((0 <=? k) && (k <? length (cells_ (openmc_driver_ d))))
    eqn:Hk; [|reflexivity].
  apply andb_prop in Hk as (H0 & H1).
  apply Z.leb_le in H0. apply Z.ltb_lt in H1.
  destruct (Hrev k) as [l Hl]; [lia|].
  unfold Table.get. now rewrite Hl.
Qed.

Lemma picard_body_same_mapping (d : OpenmcHeatDriver)
    (i_timestep i_picard : Z) :
  stable d ->
  exists d', picard_body i_timestep i_picard d = Some d' /\
             same_mapping d d' /\ stable d'.
Proof.
  intros Hd. unfold picard_body.
  set (d1 := if openmc_active_ (openmc_driver_ d) then _ else d).
  assert (H1 : same_mapping d d1 /\ source_shaped (heat_driver_ d1)).
  { subst d1. destruct Hd as (Hshape & _).
    destruct (openmc_active_ (openmc_driver_ d));
      (split; [apply same_mapping_refl || (unfold same_mapping; simpl;
                                           repeat split; reflexivity)
              | exact Hshape]). }
  clearbody d1. destruct H1 as (Hm1 & Hs1).
  set (d2 := log EvUpdateHeatSource (barrier d1)).
  assert (Hm2 : same_mapping d d2).
  { apply (same_mapping_trans d d1 d2 Hm1).
    unfold same_mapping; simpl. repeat split; reflexivity. }
  assert (Hd2 : stable d2) by exact (stable_same_mapping d d2 Hd Hm2 Hs1).
  clearbody d2.
  destruct (update_heat_source_same_mapping d2 Hd2)
    as (d3 & Hrun & Hm3 & Hs3 & _).
  rewrite Hrun.
  assert (Hd3 : stable d3) by exact (stable_same_mapping d2 d3 Hd2 Hm3 Hs3).
  set (d4 := log EvUpdateTemperature (barrier _)).
  assert (H4 : same_mapping d3 d4 /\ source_shaped (heat_driver_ d4)).
  { subst d4. destruct (heat_active_ (heat_driver_ d3));
      (split; [unfold same_mapping; simpl; repeat split; reflexivity
              | exact Hs3]). }
  clearbody d4. destruct H4 as (Hm4 & Hs4).
  assert (Hd4 : stable d4) by exact (stable_same_mapping d3 d4 Hd3 Hm4 Hs4).
  pose proof (update_temperature_same_mapping d4 Hd4) as Hm5.
  assert (Hs5 : source_shaped (heat_driver_ (update_temperature d4))).
  { destruct (update_temperature_spec d4) as (_ & _ & _ & _ & Hh & _).
    now rewrite Hh. }
  eexists. split; [reflexivity|]. split.
  - eapply same_mapping_trans; [exact Hm2|].
    eapply same_mapping_trans; [exact Hm3|].
    eapply same_mapping_trans; [exact Hm4 | exact Hm5].
  - exact (stable_same_mapping d4 _ Hd4 Hm5 Hs5).
Qed.

(** [solve_step] keeps the registry and the tables of a driver whose
    tables have all their keys. *)
Lemma solve_step_same_mapping (d : OpenmcHeatDriver) :
  stable d ->
  exists d', solve_step d = Some d' /\ same_mapping d d'.
Proof.
  intros Hd. unfold solve_step.
  destruct (Z.le_gt_cases 0 (max_timesteps_ d)) as [Hn|Hn].
  2:{ rewrite try_for_int_nonpos by lia. exists d.
      split; [reflexivity | apply same_mapping_refl]. }
  destruct (try_for_int_ind
              (fun _ t => same_mapping d t /\ stable t)
              (max_timesteps_ d)
              (fun i_timestep =>
                 try_for_int (max_picard_iter_ d) (picard_body i_timestep))
              d) as (d' & Hrun & Hm & _);
    [exact Hn | split; [apply same_mapping_refl | exact Hd] | |eauto].
  intros it t _ (Hmt & Ht).
  destruct (Z.le_gt_cases 0 (max_picard_iter_ d)) as [Hp|Hp].
  2:{ rewrite try_for_int_nonpos by lia. exists t. auto. }
  apply (try_for_int_ind (fun _ u => same_mapping d u /\ stable u));
    [exact Hp | split; assumption |].
  intros ip u _ (Hmu & Hu).
  destruct (picard_body_same_mapping u it ip Hu) as (u' & Hrun & Hm' & Hu').
  exists u'. split; [exact Hrun|]. split; [|exact Hu'].
  exact (same_mapping_trans d u u' Hmu Hm').
Qed.

(** X19.  On a driver built by the constructor, [solve_step] returns and
    leaves the registry of cell instances and both mapping tables exactly as
    the constructor built them: every [operator[]] of the two projectors
    finds its key. *)
Theorem construct_solve_step_keeps_mapping (power : float)
    (max_timesteps max_picard_iter : Z) (od : OpenmcDriver)
    (hd : SurrogateHeatDriver) :
  let d := construct power max_timesteps max_picard_iter od hd in
  cells_ od = [] ->
  n_pins_ hd = length (pin_centers_ hd) ->
  mapping_fits_int od hd ->
  source_shaped hd ->
  exists d',
    solve_step d = Some d' /\
    cells_ (openmc_driver_ d') = cells_ (openmc_driver_ d) /\
    cell_inst_to_ring_ d' = cell_inst_to_ring_ d /\
    ring_to_cell_inst_ d' = ring_to_cell_inst_ d.
Proof.
  intros d Hnil Hpins Hfit Hshape.
  set (d0 := init_mappings
               (fresh_driver power max_timesteps max_picard_iter od hd)).
  destruct (init_tallies_frame d0)
    as (_ & _ & _ & Hcells & _ & Hh & Hc & Hr).
  change (init_tallies d0) with d in Hcells, Hh, Hc, Hr.
  change (heat_driver_ d0) with hd in Hh.
  change (cells_ (openmc_driver_ d0))
    with (ml_cells (mapping_loops hd (fresh_loop od))) in Hcells.
  change (ring_to_cell_inst_ d0)
    with (ml_r2c (mapping_loops hd (fresh_loop od))) in Hr.
  change (cell_inst_to_ring_ d0)
    with (ml_c2r (mapping_loops hd (fresh_loop od))) in Hc.
  destruct (fresh_loops_keys od hd Hfit) as (Hfwd & Hrev & _).
  assert (Hmapped : mapped_rings hd = total_rings hd).
  { unfold mapped_rings, total_rings. rewrite Hpins, !Nat2Z.inj_mul.
    reflexivity. }
  assert (Hd : stable d).
  { unfold stable, keys_complete. rewrite Hh, Hr, Hc, Hcells.
    split; [exact Hshape|]. split; [|split].
    - unfold rings_fit_int. rewrite <- Hmapped.
      unfold mapping_fits_int, n_azimuthal in Hfit.
      assert (0 <= mapped_rings hd) by (unfold mapped_rings; nia). lia.
    - intros r Hr'. apply Hfwd. now rewrite Hmapped.
    - intros a Ha. apply Hrev. rewrite Hnil. simpl. lia. }
  destruct (solve_step_same_mapping d Hd) as (d' & Hrun & Hm1 & Hm2 & Hm3 & _).
  exists d'. auto.
Qed.

End Coupling.

(** * A single-pin model

    One pin, two axial layers, two fuel rings and one cladding ring; the
    transport geometry has one fuel cell and one cladding cell, found from
    the distance of a point to the pin axis.  The theorems above are applied
    to it, and it shows how the forward mapping repeats an index. *)

Module PinCell.

(** Polynomial stand-ins for [std::cos] and [std::sin] (Taylor series, 20
    terms), good to about [1e-15] for the angles used here. *)
Fixpoint taylor (n : nat) (k x2 : float) : float :=
  match n with
  | O => 1%float
  | S n' => (1 - x2 / (k * (k + 1)) * taylor n' (k + 2) x2)%float
  end.

Definition taylor_cos (x : float) : float := taylor 20 1%float (x * x)%float.
Definition taylor_sin (x : float) : float :=
  (x * taylor 20 2%float (x * x))%float.

(** Cell instances are numbered: 10 is the fuel, 20 the cladding. *)
Definition locate (p : Position) : Z :=
  if (pos_x p * pos_x p + pos_y p * pos_y p <? 0.16)%float then 10 else 20.

(** The transport state is the number of solves done and the temperatures
    set for the two cells. *)
Record transport : Type := {
  solves : nat;
  cell_temperatures : list (Z * float)
}.

Definition init_step (t : transport) : transport := t.

Definition advance_step (i : Z) (t : transport) : transport :=
  {| solves := S (solves t); cell_temperatures := cell_temperatures t |}.

Definition finalize_step (t : transport) : transport := t.

Definition heat_source (t : transport) (power : float) : list float :=
  [power; 0%float].

Definition set_cell_temperature (c : Z) (v : float) (t : transport)
    : transport :=
  {| solves := solves t; cell_temperatures := (c, v) :: cell_temperatures t |}.

(** The heat solve of the example returns the heat source plus 300 K. *)
Definition heat_solve (h : SurrogateHeatDriver) : Xt.tensor3 :=
  {| Xt.shape := Xt.shape (source_ h);
     Xt.data := map (fun q => (q + 300)%float) (Xt.data (source_ h)) |}.

Definition heat : SurrogateHeatDriver :=
  {| n_pins_ := 1;
     n_axial_ := 2;
     n_fuel_rings_ := 2;
     n_clad_rings_ := 1;
     r_grid_fuel_ := [0; 0.2; 0.4]%float;
     r_grid_clad_ := [0.4; 0.5]%float;
     z_ := [0; 1; 2]%float;
     pin_centers_ := [(0, 0)%float];
     source_ := {| Xt.shape := (1, 2, 3)%nat;
                   Xt.data := [7; 7; 7; 7; 7; 7]%float |};
     temperature_ := {| Xt.shape := (1, 2, 3)%nat;
                        Xt.data := [300; 320; 340; 310; 330; 350]%float |};
     heat_active_ := true |}.

Definition openmc : OpenmcDriver (CellInstance := Z) (TransportState := transport) :=
  {| cells_ := [];
     openmc_active_ := true;
     transport_ := {| solves := 0; cell_temperatures := [] |};
     located_ := [];
     temperature_calls_ := [] |}.

Definition fresh : OpenmcHeatDriver :=
  fresh_driver 100%float 2 3 openmc heat.

(** The driver once the constructor has built the mappings. *)
Definition driver : OpenmcHeatDriver :=
  init_mappings locate taylor_cos taylor_sin fresh.

(** A pin whose fuel grid is degenerate: both fuel bands have zero width,
    so the fuel cell has zero total weight. *)
Definition flat_heat : SurrogateHeatDriver :=
  {| n_pins_ := 1;
     n_axial_ := 2;
     n_fuel_rings_ := 2;
     n_clad_rings_ := 1;
     r_grid_fuel_ := [0.3; 0.3; 0.3]%float;
     r_grid_clad_ := [0.4; 0.5]%float;
     z_ := [0; 1; 2]%float;
     pin_centers_ := [(0, 0)%float];
     source_ := source_ heat;
     temperature_ := temperature_ heat;
     heat_active_ := true |}.

Definition flat_driver : OpenmcHeatDriver :=
  init_mappings locate taylor_cos taylor_sin
    (fresh_driver 100%float 2 3 openmc flat_heat).

Example driver_cells : cells_ (openmc_driver_ driver) = [10; 20].
Proof. vm_compute. reflexivity. Qed.

Example driver_forward_ring_0 :
  Table.get (ring_to_cell_inst_ driver) 0 = [0; 0; 0; 0].
Proof. vm_compute. reflexivity. Qed.

Example driver_reverse_fuel :
  Table.get (cell_inst_to_ring_ driver) 0 =
  [0; 0; 0; 0; 1; 1; 1; 1; 3; 3; 3; 3; 4; 4; 4; 4].
Proof. vm_compute. reflexivity. Qed.

Example driver_heat_source :
  option_map (fun d => Xt.data (source_ (heat_driver_ d)))
    (update_heat_source heat_source driver)
  = Some [100; 100; 0; 100; 100; 0]%float.
Proof. vm_compute. reflexivity. Qed.

Example driver_fuel_temperature :
  temperature_calls_
    (openmc_driver_ (update_temperature set_cell_temperature driver)) !! 0%nat
  = Some (10, 320%float).
Proof. vm_compute. reflexivity. Qed.

Example flat_driver_fuel_temperature :
  temperature_calls_
    (openmc_driver_ (update_temperature set_cell_temperature flat_driver))
    !! 0%nat
  = Some (10, nan).
Proof. vm_compute. reflexivity. Qed.

(** C4, as stated, fails here: the four samples of ring 0 all hit the
    fuel cell, and its index is entered four times. *)
Lemma forward_mapping_repeats :
  ~ NoDup (Table.get (ring_to_cell_inst_ driver) 0).
Proof.
  rewrite driver_forward_ring_0, NoDup_cons.
  intros [Hnotin _]. apply Hnotin. left.
Qed.

Lemma update_heat_source_slots_witness :
  let h := heat_driver_ driver in
  let Q := heat_source (transport_ (openmc_driver_ driver)) (power_ driver) in
  exists d', update_heat_source heat_source driver = Some d' /\
    forall i j k, in_grid h i j k ->
      (n_fuel_rings_ h <= k ->
         Xt.at_ (source_ (heat_driver_ d')) i j k = Some 0%float) /\
      (k < n_fuel_rings_ h ->
         Xt.at_ (source_ (heat_driver_ d')) i j k =
         Some (fmean (map (Xt.get Q)
                 (Table.get (ring_to_cell_inst_ driver) (ring_of h i j k))))).
Proof.
  apply (update_heat_source_slots heat_source driver).
  - reflexivity.
  - reflexivity.
  - vm_compute. discriminate.
Defined.

Lemma update_heat_source_idempotent_witness :
  exists d1 d2,
    update_heat_source heat_source driver = Some d1 /\
    update_heat_source heat_source d1 = Some d2 /\
    source_ (heat_driver_ d2) = source_ (heat_driver_ d1).
Proof.
  apply (update_heat_source_idempotent heat_source driver).
  - reflexivity.
  - reflexivity.
  - vm_compute. discriminate.
Defined.

Lemma update_temperature_weighted_average_witness :
  let h := heat_driver_ driver in
  let t := Xt.flatten (temperature_ h) in
  let rings := Table.get (cell_inst_to_ring_ driver) 0 in
  let d' := update_temperature set_cell_temperature driver in
  exists calls : list (Z * float),
    calls !! 0%nat =
      Some (10, (fsum (map (fun r => ring_weight h r * Xt.get t r) rings)
                 / fsum (map (ring_weight h) rings))%float) /\
    map fst calls = cells_ (openmc_driver_ driver) /\
    temperature_calls_ (openmc_driver_ d') =
      temperature_calls_ (openmc_driver_ driver) ++ calls /\
    transport_ (openmc_driver_ d') =
      set_temperatures set_cell_temperature calls
        (transport_ (openmc_driver_ driver)).
Proof.
  apply (update_temperature_weighted_average set_cell_temperature driver
           0%nat 10).
  - vm_compute. reflexivity.
  - vm_compute. reflexivity.
Defined.

Lemma update_temperature_zero_weight_witness :
  let h := heat_driver_ flat_driver in
  let t := Xt.flatten (temperature_ h) in
  let rings := Table.get (cell_inst_to_ring_ flat_driver) 0 in
  exists v : float,
    temperature_calls_
      (openmc_driver_ (update_temperature set_cell_temperature flat_driver))
      !! (length (temperature_calls_ (openmc_driver_ flat_driver)) + 0)%nat =
    Some (10, v) /\
    v = (fsum (map (fun r => ring_weight h r * Xt.get t r) rings)
         / fsum (map (ring_weight h) rings))%float /\
    PrimFloat.is_finite v = false.
Proof.
  apply (update_temperature_zero_weight set_cell_temperature flat_driver
           0%nat 10).
  - vm_compute. reflexivity.
  - vm_compute. reflexivity.
Defined.

Lemma init_mappings_pin_independent_witness :
  let h := heat_driver_ fresh in
  let d1 := init_mappings locate taylor_cos taylor_sin fresh in
  let d2 := init_mappings locate taylor_cos taylor_sin
              (move_pins fresh [(1.26, 1.26)%float]) in
  located_ (openmc_driver_ d1) =
    located_ (openmc_driver_ fresh) ++
    (seqZ 0 (length (pin_centers_ h)) ≫= fun i =>
     seqZ 0 (n_axial_ h) ≫= fun j =>
     seqZ 0 (n_rings h) ≫= fun k =>
     seqZ 0 n_azimuthal ≫= fun m =>
       [sample_point taylor_cos taylor_sin h j k m]) /\
  located_ (openmc_driver_ d2) = located_ (openmc_driver_ d1) /\
  cells_ (openmc_driver_ d2) = cells_ (openmc_driver_ d1) /\
  cell_inst_to_ring_ d2 = cell_inst_to_ring_ d1 /\
  ring_to_cell_inst_ d2 = ring_to_cell_inst_ d1.
Proof.
  apply (init_mappings_pin_independent locate taylor_cos taylor_sin fresh
           [(1.26, 1.26)%float]).
  reflexivity.
Defined.

Lemma init_mappings_forward_entries_witness :
  let l := Table.get (ring_to_cell_inst_ driver) (ring_of heat 0 1 2) in
  length l = 4%nat /\
  forall (m : nat) (a : Z),
    l !! m = Some a ->
    cells_ (openmc_driver_ driver) !! Z.to_nat a =
    Some (locate (sample_point taylor_cos taylor_sin heat 1 2 m)).
Proof.
  apply (init_mappings_forward_entries locate taylor_cos taylor_sin
           100%float 2 3 openmc heat 0 1 2).
  - vm_compute. discriminate.
  - vm_compute. split; [discriminate | reflexivity].
  - vm_compute. split; [discriminate | reflexivity].
  - vm_compute. split; [discriminate | reflexivity].
Defined.

Lemma init_mappings_coverage_witness :
  (forall r,
     0 <= r < length (pin_centers_ heat) * n_axial_ heat * n_rings heat ->
     exists l, ring_to_cell_inst_ driver !! r = Some l /\ l <> []) /\
  (forall a : Z,
     length (cells_ openmc) <= a < length (cells_ (openmc_driver_ driver)) <->
     exists r,
       0 <= r < length (pin_centers_ heat) * n_axial_ heat * n_rings heat /\
       a ∈ Table.get (ring_to_cell_inst_ driver) r).
Proof.
  apply (init_mappings_coverage locate taylor_cos taylor_sin
           100%float 2 3 openmc heat).
  vm_compute. discriminate.
Defined.

Lemma solve_step_two_by_three_witness :
  exists d',
    solve_step init_step advance_step finalize_step heat_source
      set_cell_temperature heat_solve driver = Some d' /\
    new_events driver d' =
      concat
        (map (fun i =>
                [EvInitStep; EvSolveStep i; EvFinalizeStep; EvBarrier;
                 EvUpdateHeatSource; EvHeatSolve; EvBarrier;
                 EvUpdateTemperature])
           [0; 1; 2; 2; 3; 4]) /\
    count_events is_transport_solve (new_events driver d') = 6%nat /\
    count_events is_heat_solve (new_events driver d') = 6%nat /\
    coupled_state d' =
      fold_left
        (fun s i =>
           coupled_iteration init_step advance_step finalize_step
             heat_source set_cell_temperature heat_solve driver i s)
        [0; 1; 2; 2; 3; 4] (coupled_state driver).
Proof.
  apply (solve_step_two_by_three init_step advance_step finalize_step
           heat_source set_cell_temperature heat_solve driver);
    try reflexivity.
  vm_compute. discriminate.
Defined.

Lemma solve_step_iteration_index_witness :
  exists d',
    solve_step init_step advance_step finalize_step heat_source
      set_cell_temperature heat_solve driver = Some d' /\
    new_events driver d' =
      (seqZ 0 (max_timesteps_ driver) ≫= fun i_timestep =>
       seqZ 0 (max_picard_iter_ driver) ≫= fun i_picard =>
         picard_events true (heat_active_ (heat_driver_ driver))
           (i_timestep * max_timesteps_ driver + i_picard)) /\
    coupled_state d' =
      fold_left
        (fun s i =>
           coupled_iteration init_step advance_step finalize_step
             heat_source set_cell_temperature heat_solve driver i s)
        (seqZ 0 (max_timesteps_ driver) ≫= fun i_timestep =>
         seqZ 0 (max_picard_iter_ driver) ≫= fun i_picard =>
           [i_timestep * max_timesteps_ driver + i_picard])
        (coupled_state driver).
Proof.
  apply (solve_step_iteration_index init_step advance_step finalize_step
           heat_source set_cell_temperature heat_solve driver).
  - reflexivity.
  - reflexivity.
  - reflexivity.
  - vm_compute. discriminate.
  - vm_compute. discriminate.
Defined.

End PinCell.

(** * A pin whose outer ring is shared by two cells

    One pin, one axial layer and two fuel rings.  The first cell takes the
    inner ring and the half [x > 0] of the outer ring, the second cell the
    other half: of the four azimuthal samples of the outer ring two are
    located in each cell. *)

Module SplitRing.

Import PinCell.

Definition locate (p : Position) : Z :=
  if (pos_x p * pos_x p + pos_y p * pos_y p <? 0.25)%float then 10
  else if (0 <? pos_x p)%float then 10 else 20.

Definition heat : SurrogateHeatDriver :=
  {| n_pins_ := 1;
     n_axial_ := 1;
     n_fuel_rings_ := 2;
     n_clad_rings_ := 0;
     r_grid_fuel_ := [0; 0.5; 1]%float;
     r_grid_clad_ := [];
     z_ := [0; 1]%float;
     pin_centers_ := [(0, 0)%float];
     source_ := {| Xt.shape := (1, 1, 2)%nat; Xt.data := [0; 0]%float |};
     temperature_ := {| Xt.shape := (1, 1, 2)%nat;
                        Xt.data := [300; 400]%float |};
     heat_active_ := true |}.

Definition driver : OpenmcHeatDriver :=
  init_mappings locate taylor_cos taylor_sin
    (fresh_driver 100%float 2 3 openmc heat).

Example split_driver_cells : cells_ (openmc_driver_ driver) = [10; 20].
Proof. vm_compute. reflexivity. Qed.

Example split_driver_forward :
  Table.get (ring_to_cell_inst_ driver) 0 = [0; 0; 0; 0] /\
  Table.get (ring_to_cell_inst_ driver) 1 = [0; 1; 1; 0].
Proof. vm_compute. split; reflexivity. Qed.

Example split_driver_weights :
  ring_weight heat 0 = 0.25%float /\ ring_weight heat 1 = 0.75%float.
Proof. vm_compute. split; reflexivity. Qed.

(** C2, as stated, fails here.  The rings mapped to the first cell are 0
    and 1, with weights 0.25 and 0.75 and temperatures 300 and 400: the
    weighted average over the mapped rings is 375.  The reverse list holds
    ring 0 four times and ring 1 twice, and the temperature set is
    [(4 * 0.25 * 300 + 2 * 0.75 * 400) / (4 * 0.25 + 2 * 0.75) = 360]. *)
Lemma temperature_counts_samples :
  let h := heat_driver_ driver in
  let t := Xt.flatten (temperature_ h) in
  let rings := Table.get (cell_inst_to_ring_ driver) 0 in
  let d' := update_temperature set_cell_temperature driver in
  rings = [0; 0; 0; 0; 1; 1] /\
  (0 <? fsum (map (ring_weight h) rings))%float = true /\
  weighted_average h t (remove_dups rings) = 375%float /\
  temperature_calls_ (openmc_driver_ d') !! 0%nat = Some (10, 360%float) /\
  cell_temperatures (transport_ (openmc_driver_ d')) !! 1%nat =
    Some (10, 360%float) /\
  temperature_calls_ (openmc_driver_ d') !! 0%nat <>
    Some (10, weighted_average h t (remove_dups rings)).
Proof.
  repeat split; try (vm_compute; reflexivity).
  intros Heq.
  assert (Hv : Some (10, 360%float)
               = Some (10, weighted_average (heat_driver_ driver)
                             (Xt.flatten (temperature_ (heat_driver_ driver)))
                             (remove_dups
                                (Table.get (cell_inst_to_ring_ driver) 0)))).
  { rewrite <- Heq. vm_compute. reflexivity. }
  apply (f_equal (fun o => match o with
                           | Some (_, v) => (v <? 370)%float
                           | None => false
                           end)) in Hv.
  vm_compute in Hv. discriminate Hv.
Qed.

End SplitRing.

(** * The single-pin model, continued

    Inputs at the edges of the driver: tables without keys, a heat-source
    field that was never allocated, loops without iterations, a grid without
    pins; a transport solver that records the tallies it is asked for, and
    one that records the iteration indices it is advanced with. *)

Module PinCellEdges.

Import PinCell.

(** A driver whose registry has two cell instances and whose tables are
    empty. *)
Definition unmapped : OpenmcHeatDriver :=
  fresh_driver 100%float 2 3
    {| cells_ := [10; 20];
       openmc_active_ := true;
       transport_ := {| solves := 0; cell_temperatures := [] |};
       located_ := [];
       temperature_calls_ := [] |}
    heat.

(** A driver with no time step to run. *)
Definition idle : OpenmcHeatDriver := fresh_driver 100%float 0 3 openmc heat.

(** The pin with a heat-source field that was never allocated. *)
Definition short_heat : SurrogateHeatDriver :=
  with_source heat {| Xt.shape := (0, 0, 0)%nat; Xt.data := [] |}.

Definition short : OpenmcHeatDriver :=
  init_mappings locate taylor_cos taylor_sin
    (fresh_driver 100%float 2 3 openmc short_heat).

(** The grid without pins. *)
Definition no_pins : SurrogateHeatDriver := with_pin_centers heat [].

Definition pinless : OpenmcHeatDriver :=
  fresh_driver 100%float 2 3 openmc no_pins.

(** The transport state with the tallies requested at construction. *)
Record tallied : Type := {
  materials : list Z;
  state : transport
}.

Definition on_state (f : transport -> transport) (t : tallied) : tallied :=
  {| materials := materials t; state := f (state t) |}.

Definition create_tallies (mats : list Z) (t : tallied) : tallied :=
  {| materials := mats; state := state t |}.

(** Material 1 is the fuel, material 2 the cladding. *)
Definition material_index (c : Z) : Z := c / 10.

Definition tallied_openmc
    : OpenmcDriver (CellInstance := Z) (TransportState := tallied) :=
  {| cells_ := [];
     openmc_active_ := true;
     transport_ := {| materials := [];
                      state := {| solves := 0; cell_temperatures := [] |} |};
     located_ := [];
     temperature_calls_ := [] |}.

Definition built : OpenmcHeatDriver :=
  construct locate taylor_cos taylor_sin material_index create_tallies
    100%float 2 3 tallied_openmc heat.

Example built_tallies :
  materials (transport_ (openmc_driver_ built)) = [0; 1].
Proof. vm_compute. reflexivity. Qed.

Example short_throws :
  update_heat_source heat_source short = None.
Proof. vm_compute. reflexivity. Qed.

(** On an axis of size 1 the index check of [at] lets every index pass,
    and the write goes to the only element of the axis. *)
Example at_put_broadcasts :
  Xt.at_put {| Xt.shape := (1, 1, 1)%nat; Xt.data := [7%float] |} 0 0 1
    5%float
  = Some {| Xt.shape := (1, 1, 1)%nat; Xt.data := [5%float] |}.
Proof. vm_compute. reflexivity. Qed.

Example at_put_throws :
  Xt.at_put {| Xt.shape := (1, 2, 3)%nat;
               Xt.data := [7; 7; 7; 7; 7; 7]%float |} 0 2 0 5%float
  = None.
Proof. vm_compute. reflexivity. Qed.

(** The transport solver whose state is the list of the iteration indices
    it has been advanced with. *)
Definition recording_openmc
    : OpenmcDriver (CellInstance := Z) (TransportState := list Z) :=
  {| cells_ := [];
     openmc_active_ := true;
     transport_ := [];
     located_ := [];
     temperature_calls_ := [] |}.

Definition recording : OpenmcHeatDriver :=
  init_mappings locate taylor_cos taylor_sin
    (fresh_driver 100%float 2 3 recording_openmc heat).

Example recorded_indices :
  option_map (fun d => transport_ (openmc_driver_ d))
    (solve_step (fun t => t) (fun i t => t ++ [i]) (fun t => t)
       (fun _ power => [power; 0%float]) (fun _ _ t => t) heat_solve
       recording)
  = Some [0; 1; 2; 2; 3; 4].
Proof. vm_compute. reflexivity. Qed.

Lemma update_heat_source_unmapped_ring_witness :
  exists d', update_heat_source heat_source fresh = Some d' /\
    Xt.at_ (source_ (heat_driver_ d')) 0 0 0 = Some nan.
Proof.
  apply (update_heat_source_unmapped_ring heat_source fresh 0 0 0).
  - reflexivity.
  - reflexivity.
  - vm_compute. discriminate.
  - vm_compute. repeat split; discriminate.
  - reflexivity.
  - reflexivity.
Defined.

Lemma update_heat_source_table_witness :
  exists d', update_heat_source heat_source fresh = Some d' /\
    forall r,
      ring_to_cell_inst_ d' !! r =
      if is_fuel_ring heat (total_rings heat) r
      then Some (Table.get (ring_to_cell_inst_ fresh) r)
      else ring_to_cell_inst_ fresh !! r.
Proof.
  apply (update_heat_source_table heat_source fresh).
  - reflexivity.
  - vm_compute. discriminate.
Defined.

Lemma update_temperature_unmapped_cell_witness :
  temperature_calls_
    (openmc_driver_ (update_temperature set_cell_temperature unmapped))
    !! (length (temperature_calls_ (openmc_driver_ unmapped)) + 0)%nat =
  Some (10, nan).
Proof.
  apply (update_temperature_unmapped_cell set_cell_temperature unmapped
           0%nat 10).
  - reflexivity.
  - reflexivity.
Defined.

Lemma solve_step_no_iteration_witness :
  solve_step init_step advance_step finalize_step heat_source
    set_cell_temperature heat_solve idle = Some idle.
Proof.
  apply (solve_step_no_iteration init_step advance_step finalize_step
           heat_source set_cell_temperature heat_solve idle).
  left. vm_compute. discriminate.
Defined.

Lemma solve_step_counts_witness :
  let n := (Z.to_nat (max_timesteps_ driver)
            * Z.to_nat (max_picard_iter_ driver))%nat in
  exists d',
    solve_step init_step advance_step finalize_step heat_source
      set_cell_temperature heat_solve driver = Some d' /\
    count_events is_barrier (new_events driver d') = (2 * n)%nat /\
    count_events is_transport_solve (new_events driver d') =
      (if openmc_active_ (openmc_driver_ driver) then n else 0%nat) /\
    count_events is_heat_solve (new_events driver d') =
      (if heat_active_ (heat_driver_ driver) then n else 0%nat).
Proof.
  apply (solve_step_counts init_step advance_step finalize_step
           heat_source set_cell_temperature heat_solve driver).
  reflexivity.
Defined.

Lemma solve_step_indices_distinct_witness :
  exists d',
    solve_step init_step advance_step finalize_step heat_source
      set_cell_temperature heat_solve driver = Some d' /\
    (NoDup (solve_indices (new_events driver d')) <->
     max_timesteps_ driver <= 1 \/
     max_picard_iter_ driver <= max_timesteps_ driver).
Proof.
  apply (solve_step_indices_distinct init_step advance_step finalize_step
           heat_source set_cell_temperature heat_solve driver).
  - reflexivity.
  - reflexivity.
  - vm_compute. discriminate.
Defined.

Lemma solve_step_throws_witness :
  solve_step init_step advance_step finalize_step heat_source
    set_cell_temperature heat_solve short = None.
Proof.
  apply (solve_step_throws init_step advance_step finalize_step
           heat_source set_cell_temperature heat_solve short).
  - reflexivity.
  - reflexivity.
  - vm_compute. reflexivity.
Defined.

Lemma init_mappings_empty_grid_witness :
  init_mappings locate taylor_cos taylor_sin pinless = pinless.
Proof.
  apply (init_mappings_empty_grid locate taylor_cos taylor_sin pinless).
  reflexivity.
Defined.

Lemma init_mappings_registers_once_witness :
  NoDup (drop (length (cells_ openmc)) (cells_ (openmc_driver_ driver))).
Proof.
  apply (init_mappings_registers_once locate taylor_cos taylor_sin
           100%float 2 3 openmc heat).
  vm_compute. discriminate.
Defined.

Lemma init_mappings_same_cell_witness :
  (0 = 1 <->
   locate (sample_point taylor_cos taylor_sin heat 0 0 0%nat) =
   locate (sample_point taylor_cos taylor_sin heat 1 2 1%nat)).
Proof.
  apply (init_mappings_same_cell locate taylor_cos taylor_sin
           100%float 2 3 openmc heat 0 0 0 0 1 2 0%nat 1%nat 0 1).
  - vm_compute. discriminate.
  - vm_compute. split; [discriminate | reflexivity].
  - vm_compute. split; [discriminate | reflexivity].
  - vm_compute. split; [discriminate | reflexivity].
  - vm_compute. split; [discriminate | reflexivity].
  - vm_compute. split; [discriminate | reflexivity].
  - vm_compute. split; [discriminate | reflexivity].
  - vm_compute. reflexivity.
  - vm_compute. reflexivity.
Defined.

Lemma init_mappings_registered_cells_witness :
  10 ∈ drop (length (cells_ openmc)) (cells_ (openmc_driver_ driver)) <->
  exists i j k m,
    0 <= i < length (pin_centers_ heat) /\ 0 <= j < n_axial_ heat /\
    0 <= k < n_rings heat /\ 0 <= m < n_azimuthal /\
    10 = locate (sample_point taylor_cos taylor_sin heat j k m).
Proof.
  apply (init_mappings_registered_cells locate taylor_cos taylor_sin
           100%float 2 3 openmc heat 10).
  vm_compute. discriminate.
Defined.

Lemma init_mappings_keys_witness :
  (forall r, is_Some (ring_to_cell_inst_ driver !! r) <->
             0 <= r < mapped_rings heat) /\
  (forall a, is_Some (cell_inst_to_ring_ driver !! a) <->
             length (cells_ openmc) <= a
             < length (cells_ (openmc_driver_ driver))) /\
  (forall a r, r ∈ Table.get (cell_inst_to_ring_ driver) a ->
               0 <= r < mapped_rings heat).
Proof.
  apply (init_mappings_keys locate taylor_cos taylor_sin advance_step
           100%float 2 3 openmc heat).
  vm_compute. discriminate.
Defined.

Lemma construct_tallies_witness :
  exists mats : list Z,
    transport_ (openmc_driver_ built) =
      create_tallies mats (transport_ tallied_openmc) /\
    length mats = length (cells_ (openmc_driver_ built)) /\
    forall x, x ∈ mats <->
      exists i j k m,
        0 <= i < length (pin_centers_ heat) /\ 0 <= j < n_axial_ heat /\
        0 <= k < n_rings heat /\ 0 <= m < n_azimuthal /\
        x = int_sub
              (material_index
                 (locate (sample_point taylor_cos taylor_sin heat j k m))) 1.
Proof.
  apply (construct_tallies locate taylor_cos taylor_sin material_index
           create_tallies 100%float 2 3 tallied_openmc heat).
  - reflexivity.
  - vm_compute. discriminate.
Defined.

Lemma construct_heat_source_witness :
  let Q :=
    Xt.get (heat_source (state (transport_ (openmc_driver_ built)))
              100%float) in
  exists d',
    update_heat_source (fun t => heat_source (state t)) built = Some d' /\
    forall i j k, in_grid heat i j k -> k < n_fuel_rings_ heat ->
      exists a0 a1 a2 a3,
        (forall (m : nat) (a : Z),
           [a0; a1; a2; a3] !! m = Some a ->
           cells_ (openmc_driver_ built) !! Z.to_nat a =
           Some (locate (sample_point taylor_cos taylor_sin heat j k m))) /\
        Xt.at_ (source_ (heat_driver_ d')) i j k =
        Some ((0 + Q a0 + Q a1 + Q a2 + Q a3) / 4)%float.
Proof.
  apply (construct_heat_source locate taylor_cos taylor_sin
           (fun t => heat_source (state t)) material_index create_tallies
           100%float 2 3 tallied_openmc heat).
  - reflexivity.
  - vm_compute. discriminate.
  - reflexivity.
  - reflexivity.
Defined.

Lemma construct_solve_step_keeps_mapping_witness :
  exists d',
    solve_step (on_state init_step) (fun i => on_state (advance_step i))
      (on_state finalize_step) (fun t => heat_source (state t))
      (fun c v => on_state (set_cell_temperature c v)) heat_solve built
    = Some d' /\
    cells_ (openmc_driver_ d') = cells_ (openmc_driver_ built) /\
    cell_inst_to_ring_ d' = cell_inst_to_ring_ built /\
    ring_to_cell_inst_ d' = ring_to_cell_inst_ built.
Proof.
  apply (construct_solve_step_keeps_mapping locate taylor_cos taylor_sin
           (on_state init_step) (fun i => on_state (advance_step i))
           (on_state finalize_step) (fun t => heat_source (state t))
           (fun c v => on_state (set_cell_temperature c v)) heat_solve
           material_index create_tallies 100%float 2 3 tallied_openmc heat).
  - reflexivity.
  - reflexivity.
  - vm_compute. discriminate.
  - reflexivity.
Defined.

End PinCellEdges.
